(** * VoxCPM sync-and-play coordinators

    A shallow embedding of the Node.js scripts that fetch remotely produced
    WAV segments and play them locally, one after the other:

    - [NatsOnly]   : sync_and_play_nats.js (push notifications, one scp per
                     file, no retry);
    - [NatsSerial] : the NATS script with [isSyncing] and scp retry with
                     exponential backoff (second script of unnamed/part_001);
    - [Poll]       : sync_and_play.js (periodic rsync, directory listing);
    - [Hybrid]     : unnamed/part_000 (notifications and directory listing).

    The first script of unnamed/part_001 is an older copy of sync_and_play.js
    whose [main] calls [process.exit(1)] before it does anything; only its
    [syncFiles] is modelled ([Legacy]).

    JavaScript runs every callback to completion, so each model is a
    transition system whose steps are the atomic pieces of code between two
    [await]s: a message handler body, the synchronous prefix of
    [processQueue], the continuation that runs when a child process closes,
    a timer callback.  Child processes, timers, the clock and the local
    directory are the environment; their outcomes are the labels of the
    steps, and the directory may change between any two steps.  The models
    follow a run from the first [await] of [main] until [process.exit]; the
    SIGINT handlers and an exception thrown while [main] starts (a failing
    [mkdirSync], which ends the process through [main().catch]) are left
    out, so nothing below says in how many ways a script can end.

    Names are strings of bytes.  Where the code orders names
    ([Array.prototype.sort] in [getWavFiles], which compares UTF-16 code
    units) the models compare bytes, which is the same order on ASCII names;
    what is stated about that order is stated for ASCII names. *)

From Stdlib Require Import ZArith QArith.
From stdpp Require Import gmap strings list sorting.

Local Set Warnings "-register-all".

Local Open Scope Z_scope.
Local Open Scope string_scope.
Local Open Scope list_scope.

(** ** JavaScript strings, JSON values, child processes *)

(** [String.prototype.endsWith]. *)
Definition endsWith (s suffix : string) : bool :=
  let n := String.length s in
  let m := String.length suffix in
  bool_decide (m ≤ n)%nat && bool_decide (String.substring (n - m) m s = suffix).

(** [String.prototype.includes]. *)
Definition includes (s pat : string) : bool :=
  match String.index 0 pat s with Some _ => true | None => false end.

(** The values [JSON.parse] can return. *)
Inductive json :=
| JNull
| JBool (b : bool)
| JNum (q : Q)
| JStr (s : string)
| JArr (items : list json)
| JObj (fields : list (string * json)).

(** What arrives on the NATS subject: bytes that [JSON.parse] rejects, or a
    parsed value. *)
Inductive payload :=
| Garbage
| Parsed (data : json).

(** A statement either completes normally or throws. *)
Inductive completion (A : Type) :=
| Normal (a : A)
| Throw.
Arguments Normal {A} a.
Arguments Throw {A}.

(** Property read [data.filename]; [None] is [undefined].  A later duplicate
    key overrides an earlier one, reading a property of [null] throws, and a
    boolean, number, string or array has no such property. *)
Fixpoint lookup_field (k : string) (fields : list (string * json)) : option json :=
  match fields with
  | [] => None
  | (k', v) :: rest =>
      match lookup_field k rest with
      | Some v' => Some v'
      | None => if bool_decide (k' = k) then Some v else None
      end
  end.

Definition get_filename (data : json) : completion (option json) :=
  match data with
  | JNull => Throw
  | JObj fields => Normal (lookup_field "filename" fields)
  | _ => Normal None
  end.

(** JavaScript truthiness of a property value. *)
Definition truthy (v : option json) : bool :=
  match v with
  | None => false
  | Some JNull => false
  | Some (JBool b) => b
  | Some (JNum q) => negb (Qeq_bool q 0)
  | Some (JStr s) => negb (bool_decide (s = ""))
  | Some (JArr _) => true
  | Some (JObj _) => true
  end.

(** The guard [filename && filename.endsWith('.wav')] of the message
    handlers, evaluated inside their [try]: [Normal (Some f)] when it passes
    with the string [f], [Normal None] when it is falsy, [Throw] when
    [JSON.parse] throws, [data] is [null], or [filename] is a truthy value
    without an [endsWith] method. *)
Definition wav_filename (p : payload) : completion (option string) :=
  match p with
  | Garbage => Throw
  | Parsed data =>
      match get_filename data with
      | Throw => Throw
      | Normal v =>
          if truthy v then
            match v with
            | Some (JStr s) => if endsWith s ".wav" then Normal (Some s) else Normal None
            | _ => Throw
            end
          else Normal None
      end
  end.

(** How a spawned child ends: the ['close'] event with its exit code and what
    it wrote on stderr, or the ['error'] event when it could not be spawned.
    A child is taken to end in exactly one of the two ways. *)
Inductive child :=
| Exit (code : Z) (stderr : string)
| SpawnError.

(** How a promise settles. *)
Inductive settled :=
| Resolved
| Rejected.

(** [playFile], the same in every script: resolves on exit code 0. *)
Definition playFile (c : child) : settled :=
  match c with
  | Exit code _ => if bool_decide (code = 0) then Resolved else Rejected
  | SpawnError => Rejected
  end.

(** What the scripts do to the outside world, in program order. *)
Inductive action :=
| Push (f : string)     (* playQueue.push(f) *)
| Play (f : string)     (* spawn('aplay', [f]) *)
| Fetch (f : string).   (* syncFile(f) *)

Definition pushes (h : list action) : list string :=
  omap (fun a => match a with Push f => Some f | _ => None end) h.
Definition plays (h : list action) : list string :=
  omap (fun a => match a with Play f => Some f | _ => None end) h.
Definition fetches (h : list action) : list string :=
  omap (fun a => match a with Fetch f => Some f | _ => None end) h.

(** Removal of the first occurrence: one child of that name has closed. *)
Fixpoint remove1 (f : string) (l : list string) : list string :=
  match l with
  | [] => []
  | x :: rest => if bool_decide (x = f) then rest else x :: remove1 f rest
  end.

(** ** sync_and_play_nats.js *)
Module NatsOnly.

Record State := mkState {
  (* module-level variables *)
  playedFiles : gset string;
  playQueue : list string;
  isPlaying : bool;
  idleTimer : option nat;
  (* environment *)
  localFiles : gset string;   (* names present in LOCAL_DIR *)
  aplays : list string;       (* aplay children still running *)
  scps : list string;         (* scp children still running *)
  timeouts : list nat;        (* pending setTimeout handles *)
  fresh : nat;                (* next timer handle *)
  history : list action;
  exitCode : option Z         (* set by process.exit *)
}.

Definition init (dir : gset string) : State :=
  mkState ∅ [] false None dir [] [] [] 0%nat [] None.

Definition isConnectionError (code : Z) (stderr : string) : bool :=
  includes stderr "Connection refused" ||
  includes stderr "Connection timed out" ||
  includes stderr "Network is unreachable" ||
  includes stderr "Connection closed" ||
  bool_decide (code = 255).

(** [syncFile]: the promise of one scp run.  Both failure branches reject;
    they differ in the message only. *)
Definition syncFile (c : child) : settled :=
  match c with
  | Exit code stderr =>
      if bool_decide (code = 0) then Resolved
      else if isConnectionError code stderr then Rejected
      else Rejected
  | SpawnError => Rejected
  end.

Definition existsSync (f : string) (st : State) : bool :=
  bool_decide (f ∈ localFiles st).

(** [spawn('scp', ..)] inside [syncFile]. *)
Definition spawn_scp (f : string) (st : State) : State :=
  mkState (playedFiles st) (playQueue st) (isPlaying st) (idleTimer st)
    (localFiles st) (aplays st) (scps st ++ [f]) (timeouts st) (fresh st)
    (history st ++ [Fetch f]) (exitCode st).

(** [idleTimer = setTimeout(.., IDLE_TIMEOUT)]. *)
Definition arm (st : State) : State :=
  mkState (playedFiles st) (playQueue st) (isPlaying st) (Some (fresh st))
    (localFiles st) (aplays st) (scps st) (timeouts st ++ [fresh st])
    (S (fresh st)) (history st) (exitCode st).

(** [if (idleTimer) { clearTimeout(idleTimer); idleTimer = null; }]. *)
Definition disarm (st : State) : State :=
  match idleTimer st with
  | Some h =>
      mkState (playedFiles st) (playQueue st) (isPlaying st) None
        (localFiles st) (aplays st) (scps st)
        (filter (fun h' => h' ≠ h) (timeouts st)) (fresh st)
        (history st) (exitCode st)
  | None => st
  end.

(** [playQueue.push(filename)]. *)
Definition push (f : string) (st : State) : State :=
  mkState (playedFiles st) (playQueue st ++ [f]) (isPlaying st) (idleTimer st)
    (localFiles st) (aplays st) (scps st) (timeouts st) (fresh st)
    (history st ++ [Push f]) (exitCode st).

(** Body of the [for await (const msg of sub)] loop. *)
Definition onMessage (p : payload) (st : State) : State :=
  match wav_filename p with
  | Throw => st
  | Normal None => st
  | Normal (Some filename) =>
      if bool_decide (filename ∈ playedFiles st) then st
      else if bool_decide (filename ∈ playQueue st) then st
      else
        let st := push filename st in
        let st := disarm st in
        if negb (existsSync filename st) then spawn_scp filename st else st
  end.

(** [playQueue.shift(); isPlaying = true; await playFile(nextFile)], up to
    the spawn of aplay. *)
Definition start_play (nextFile : string) (st : State) : State :=
  mkState (playedFiles st) (tail (playQueue st)) true (idleTimer st)
    (localFiles st) (aplays st ++ [nextFile]) (scps st) (timeouts st)
    (fresh st) (history st ++ [Play nextFile]) (exitCode st).

(** [processQueue] up to its first [await]. *)
Definition processQueue (st : State) : State :=
  if bool_decide (length (playQueue st) = 0%nat) && negb (isPlaying st) then
    match idleTimer st with
    | None => arm st
    | Some _ => st
    end
  else if bool_decide (0 < length (playQueue st))%nat && negb (isPlaying st) then
    match head (playQueue st) with
    | Some nextFile =>
        if existsSync nextFile st then start_play nextFile st
        else spawn_scp nextFile st
    | None => st
    end
  else st.

(** [processQueue] after [await playFile(nextFile)]: the [try] or the
    [catch] branch, then [finally]. *)
Definition played (nextFile : string) (r : settled) (st : State) : State :=
  let done :=
    match r with
    | Resolved => {[nextFile]} ∪ playedFiles st
    | Rejected => {[nextFile]} ∪ playedFiles st
    end in
  mkState done (playQueue st) false (idleTimer st)
    (localFiles st) (remove1 nextFile (aplays st)) (scps st) (timeouts st)
    (fresh st) (history st) (exitCode st).

(** An scp child ends.  Exit code 0 means the file was written; what runs
    afterwards in the script ([then]/[catch], or the [try]/[catch] around
    [await syncFile]) only prints. *)
Definition synced (f : string) (c : child) (st : State) : State :=
  let dir :=
    match syncFile c with
    | Resolved => {[f]} ∪ localFiles st
    | Rejected => localFiles st
    end in
  mkState (playedFiles st) (playQueue st) (isPlaying st) (idleTimer st)
    dir (aplays st) (remove1 f (scps st)) (timeouts st)
    (fresh st) (history st) (exitCode st).

(** The idle timer's callback: [process.exit(0)]. *)
Definition idle_exit (h : nat) (st : State) : State :=
  mkState (playedFiles st) (playQueue st) (isPlaying st) (idleTimer st)
    (localFiles st) (aplays st) (scps st)
    (filter (fun h' => h' ≠ h) (timeouts st)) (fresh st)
    (history st) (Some 0).

(** Anything else that writes to or removes from LOCAL_DIR. *)
Definition set_dir (dir : gset string) (st : State) : State :=
  mkState (playedFiles st) (playQueue st) (isPlaying st) (idleTimer st)
    dir (aplays st) (scps st) (timeouts st) (fresh st) (history st)
    (exitCode st).

Inductive event :=
| Message (p : payload)
| Tick
| AplayDone (f : string) (c : child)
| ScpDone (f : string) (c : child)
| TimerFired (h : nat)
| DirChanged (dir : gset string).

(** One atomic step; [None] when the event cannot happen in [st]. *)
Definition step (st : State) (e : event) : option State :=
  match exitCode st with
  | Some _ => None
  | None =>
      match e with
      | Message p => Some (onMessage p st)
      | Tick => Some (processQueue st)
      | AplayDone f c =>
          if bool_decide (f ∈ aplays st) then Some (played f (playFile c) st)
          else None
      | ScpDone f c =>
          if bool_decide (f ∈ scps st) then Some (synced f c st) else None
      | TimerFired h =>
          if bool_decide (h ∈ timeouts st) then Some (idle_exit h st) else None
      | DirChanged dir => Some (set_dir dir st)
      end
  end.

Fixpoint run (st : State) (es : list event) : option State :=
  match es with
  | [] => Some st
  | e :: es' =>
      match step st e with
      | Some st' => run st' es'
      | None => None
      end
  end.

(** A notification naming [f]. *)
Definition arrival (f : string) : event :=
  Message (Parsed (JObj [("filename", JStr f)])).

End NatsOnly.

(** ** The NATS script with serialized transfers (unnamed/part_001, second
    script) *)
Module NatsSerial.

Definition SYNC_DELAY : Z := 1000.
Definition MAX_SYNC_RETRIES : nat := 3.
Definition RETRY_DELAY : Z := 2000.

Definition isConnectionError (code : Z) (stderr : string) : bool :=
  includes stderr "Connection refused" ||
  includes stderr "Connection timed out" ||
  includes stderr "Network is unreachable" ||
  includes stderr "Connection closed" ||
  includes stderr "Connection reset" ||
  bool_decide (code = 255).

(** One invocation of [syncFile] as the environment answers it: the clock
    on entry, how the scp child ends, the clock when it closes.  A child
    that cannot be spawned ([SpawnError]) emits 'error' and then 'close'
    with a negative code and nothing on stderr. *)
Record attempt := mkAttempt {
  now : Z;
  outcome : child;
  closed_at : Z
}.

(** What [syncFile] and its retries do besides settling. *)
Inductive effect :=
| Throttle (ms : Z)    (* setTimeout(doSync, delayNeeded) *)
| Scp                  (* spawn('scp', ..) *)
| Backoff (ms : Z)     (* setTimeout(() => syncFile(filename, retryCount + 1).., retryDelay) *)
| Orphan (ms : Z) (retryCount : nat).
                       (* the same setTimeout set by the 'error' handler: the
                          'close' handler rejects right after, so the retry
                          [syncFile(filename, retryCount)] settles nothing *)

Definition backoffs (l : list effect) : list Z :=
  omap (fun e => match e with Backoff ms => Some ms | _ => None end) l.
Definition scp_runs (l : list effect) : nat :=
  length (omap (fun e => match e with Scp => Some tt | _ => None end) l).
Definition orphans (l : list effect) : list nat :=
  omap (fun e => match e with Orphan _ k => Some k | _ => None end) l.

Section Policy.
Variable max_retries : nat.
Variable retry_delay : Z.

(** [syncFile(filename, retryCount)] with [lastSyncTime]; each call
    consumes one [attempt].  The result is how the promise settles, the
    [lastSyncTime] at that moment and the effects up to then, in order;
    [None] when the environment's answers run out before the promise
    settles.  On a failed spawn the 'error' handler schedules a retry while
    [retryCount < max_retries] (it rejects otherwise), and the 'close'
    handler that follows rejects in either case, the code being neither 0
    nor 255 and stderr empty: the promise is rejected at once and a
    scheduled retry is left behind.  [ensureSSHControlDir] is taken to
    succeed. *)
Fixpoint syncFile_with (attempts : list attempt) (retryCount : nat)
    (lastSyncTime : Z) : option (settled * Z * list effect) :=
  match attempts with
  | [] => None
  | a :: rest =>
      let timeSinceLastSync := now a - lastSyncTime in
      let delayNeeded := Z.max 0 (SYNC_DELAY - timeSinceLastSync) in
      let doSync :=
        (if bool_decide (0 < delayNeeded) then [Throttle delayNeeded] else [])
        ++ [Scp] in
      let retryDelay := retry_delay * 2 ^ Z.of_nat retryCount in
      let retry :=
        match syncFile_with rest (S retryCount) lastSyncTime with
        | Some (r, t, effs) => Some (r, t, doSync ++ Backoff retryDelay :: effs)
        | None => None
        end in
      match outcome a with
      | Exit code stderr =>
          if bool_decide (code = 0) then Some (Resolved, closed_at a, doSync)
          else if isConnectionError code stderr
                  && bool_decide (retryCount < max_retries)%nat
          then retry
          else Some (Rejected, lastSyncTime, doSync)
      | SpawnError =>
          if bool_decide (retryCount < max_retries)%nat
          then Some (Rejected, lastSyncTime,
                     doSync ++ [Orphan retryDelay (S retryCount)])
          else Some (Rejected, lastSyncTime, doSync)
      end
  end.
End Policy.

Definition syncFile := syncFile_with MAX_SYNC_RETRIES RETRY_DELAY.

(** An attempt that fails with a connection-level error. *)
Definition transient (a : attempt) : Prop :=
  match outcome a with
  | Exit code stderr => code ≠ 0 ∧ isConnectionError code stderr = true
  | SpawnError => False
  end.

Record State := mkState {
  (* module-level variables *)
  playedFiles : gset string;
  playQueue : list string;
  isPlaying : bool;
  isSyncing : bool;
  lastSyncTime : Z;
  idleTimer : option nat;
  (* environment *)
  localFiles : gset string;   (* names present in LOCAL_DIR *)
  aplays : list string;       (* aplay children still running *)
  syncs : list string;        (* syncFile promises [processQueue] awaits *)
  retries : list (string * nat);
                              (* retries left behind by failed spawns:
                                 [syncFile(filename, retryCount)] scheduled
                                 or running, awaited by nobody *)
  timeouts : list nat;        (* pending idle-timer handles *)
  fresh : nat;                (* next timer handle *)
  immediates : nat;           (* pending setImmediate(() => processQueue()) *)
  history : list action;
  exitCode : option Z
}.

Definition init (dir : gset string) : State :=
  mkState ∅ [] false false 0 None dir [] [] [] [] 0%nat 0%nat [] None.

Definition existsSync (f : string) (st : State) : bool :=
  bool_decide (f ∈ localFiles st).

(** [idleTimer = setTimeout(.., IDLE_TIMEOUT)]. *)
Definition arm (st : State) : State :=
  mkState (playedFiles st) (playQueue st) (isPlaying st) (isSyncing st)
    (lastSyncTime st) (Some (fresh st))
    (localFiles st) (aplays st) (syncs st) (retries st) (timeouts st ++ [fresh st])
    (S (fresh st)) (immediates st) (history st) (exitCode st).

(** [if (idleTimer) { clearTimeout(idleTimer); idleTimer = null; }]. *)
Definition disarm (st : State) : State :=
  match idleTimer st with
  | Some h =>
      mkState (playedFiles st) (playQueue st) (isPlaying st) (isSyncing st)
        (lastSyncTime st) None
        (localFiles st) (aplays st) (syncs st) (retries st)
        (filter (fun h' => h' ≠ h) (timeouts st)) (fresh st)
        (immediates st) (history st) (exitCode st)
  | None => st
  end.

(** [playQueue.push(filename)]. *)
Definition push (f : string) (st : State) : State :=
  mkState (playedFiles st) (playQueue st ++ [f]) (isPlaying st) (isSyncing st)
    (lastSyncTime st) (idleTimer st)
    (localFiles st) (aplays st) (syncs st) (retries st) (timeouts st) (fresh st)
    (immediates st) (history st ++ [Push f]) (exitCode st).

(** [setImmediate(() => processQueue())]. *)
Definition setImmediate (st : State) : State :=
  mkState (playedFiles st) (playQueue st) (isPlaying st) (isSyncing st)
    (lastSyncTime st) (idleTimer st)
    (localFiles st) (aplays st) (syncs st) (retries st) (timeouts st) (fresh st)
    (S (immediates st)) (history st) (exitCode st).

(** Body of the [for await (const msg of sub)] loop. *)
Definition onMessage (p : payload) (st : State) : State :=
  match wav_filename p with
  | Throw => st
  | Normal None => st
  | Normal (Some filename) =>
      if bool_decide (filename ∈ playedFiles st) then st
      else if bool_decide (filename ∈ playQueue st) then st
      else
        let st := push filename st in
        let st := disarm st in
        if bool_decide (length (playQueue st) = 1%nat)
           && negb (isPlaying st) && negb (isSyncing st)
        then setImmediate st
        else st
  end.

(** [playQueue.shift(); isPlaying = true; await playFile(nextFile)], up to
    the spawn of aplay. *)
Definition start_play (nextFile : string) (st : State) : State :=
  mkState (playedFiles st) (tail (playQueue st)) true (isSyncing st)
    (lastSyncTime st) (idleTimer st)
    (localFiles st) (aplays st ++ [nextFile]) (syncs st) (retries st) (timeouts st)
    (fresh st) (immediates st) (history st ++ [Play nextFile]) (exitCode st).

(** [isSyncing = true; await syncFile(f)], up to the call. *)
Definition start_sync (f : string) (st : State) : State :=
  mkState (playedFiles st) (playQueue st) (isPlaying st) true
    (lastSyncTime st) (idleTimer st)
    (localFiles st) (aplays st) (syncs st ++ [f]) (retries st) (timeouts st)
    (fresh st) (immediates st) (history st ++ [Fetch f]) (exitCode st).

(** [processQueue] up to its first [await]. *)
Definition processQueue (st : State) : State :=
  if bool_decide (length (playQueue st) = 0%nat)
     && negb (isPlaying st) && negb (isSyncing st) then
    match idleTimer st with
    | None => arm st
    | Some _ => st
    end
  else if isPlaying st || isSyncing st then st
  else if bool_decide (length (playQueue st) = 0%nat) then st
  else
    match head (playQueue st) with
    | Some nextFile =>
        if existsSync nextFile st then start_play nextFile st
        else start_sync nextFile st
    | None => st
    end.

(** [processQueue] after [await playFile(nextFile)]: [try] or [catch], then
    the [finally] block up to its [await syncFile(nextNextFile)]. *)
Definition played (nextFile : string) (r : settled) (st : State) : State :=
  let done :=
    match r with
    | Resolved => {[nextFile]} ∪ playedFiles st
    | Rejected => {[nextFile]} ∪ playedFiles st
    end in
  let st :=
    mkState done (playQueue st) false (isSyncing st)
      (lastSyncTime st) (idleTimer st)
      (localFiles st) (remove1 nextFile (aplays st)) (syncs st) (retries st)
      (timeouts st)
      (fresh st) (immediates st) (history st) (exitCode st) in
  if bool_decide (0 < length (playQueue st))%nat then
    match head (playQueue st) with
    | Some nextNextFile =>
        if negb (existsSync nextNextFile st) then start_sync nextNextFile st
        else st
    | None => st
    end
  else st.

(** [await syncFile(f)] settles with [r]: scp wrote the file when the
    promise resolved; the [catch] only prints; [finally] clears
    [isSyncing]. *)
Definition synced (f : string) (r : settled) (t : Z) (st : State) : State :=
  let dir :=
    match r with
    | Resolved => {[f]} ∪ localFiles st
    | Rejected => localFiles st
    end in
  mkState (playedFiles st) (playQueue st) (isPlaying st) false
    t (idleTimer st)
    dir (aplays st) (remove1 f (syncs st)) (retries st) (timeouts st)
    (fresh st) (immediates st) (history st) (exitCode st).

Fixpoint remove_retry (x : string * nat) (l : list (string * nat)) :
    list (string * nat) :=
  match l with
  | [] => []
  | y :: rest => if bool_decide (y = x) then rest else y :: remove_retry x rest
  end.

(** A retry that a failed spawn scheduled stays behind when the promise
    settles. *)
Definition orphan (f : string) (effs : list effect) (st : State) : State :=
  mkState (playedFiles st) (playQueue st) (isPlaying st) (isSyncing st)
    (lastSyncTime st) (idleTimer st)
    (localFiles st) (aplays st) (syncs st)
    (retries st ++ map (fun k => (f, k)) (orphans effs)) (timeouts st)
    (fresh st) (immediates st) (history st) (exitCode st).

(** A retry left behind comes to its end: scp wrote the file and
    [lastSyncTime] was set if it succeeded; nobody waits for it, so no flag
    changes and nothing is printed by [processQueue]. *)
Definition retried (f : string) (k : nat) (r : settled) (t : Z)
    (st : State) : State :=
  let dir :=
    match r with
    | Resolved => {[f]} ∪ localFiles st
    | Rejected => localFiles st
    end in
  mkState (playedFiles st) (playQueue st) (isPlaying st) (isSyncing st)
    t (idleTimer st)
    dir (aplays st) (syncs st) (remove_retry (f, k) (retries st)) (timeouts st)
    (fresh st) (immediates st) (history st) (exitCode st).

(** The idle timer's callback: [process.exit(0)]. *)
Definition idle_exit (h : nat) (st : State) : State :=
  mkState (playedFiles st) (playQueue st) (isPlaying st) (isSyncing st)
    (lastSyncTime st) (idleTimer st)
    (localFiles st) (aplays st) (syncs st) (retries st)
    (filter (fun h' => h' ≠ h) (timeouts st)) (fresh st)
    (immediates st) (history st) (Some 0).

(** A pending [setImmediate] callback is taken off the loop and runs
    [processQueue]. *)
Definition take_immediate (st : State) : State :=
  mkState (playedFiles st) (playQueue st) (isPlaying st) (isSyncing st)
    (lastSyncTime st) (idleTimer st)
    (localFiles st) (aplays st) (syncs st) (retries st) (timeouts st) (fresh st)
    (pred (immediates st)) (history st) (exitCode st).

Definition run_immediate (st : State) : State :=
  processQueue (take_immediate st).

(** Anything else that writes to or removes from LOCAL_DIR. *)
Definition set_dir (dir : gset string) (st : State) : State :=
  mkState (playedFiles st) (playQueue st) (isPlaying st) (isSyncing st)
    (lastSyncTime st) (idleTimer st)
    dir (aplays st) (syncs st) (retries st) (timeouts st) (fresh st)
    (immediates st) (history st) (exitCode st).

Inductive event :=
| Message (p : payload)
| Tick
| Immediate
| AplayDone (f : string) (c : child)
| SyncDone (f : string) (attempts : list attempt)
| RetryDone (f : string) (retryCount : nat) (attempts : list attempt)
| TimerFired (h : nat)
| DirChanged (dir : gset string).

(** One atomic step; [None] when the event cannot happen in [st]. *)
Definition step (st : State) (e : event) : option State :=
  match exitCode st with
  | Some _ => None
  | None =>
      match e with
      | Message p => Some (onMessage p st)
      | Tick => Some (processQueue st)
      | Immediate =>
          if bool_decide (0 < immediates st)%nat then Some (run_immediate st)
          else None
      | AplayDone f c =>
          if bool_decide (f ∈ aplays st) then Some (played f (playFile c) st)
          else None
      | SyncDone f attempts =>
          if bool_decide (f ∈ syncs st) then
            match syncFile attempts 0 (lastSyncTime st) with
            | Some (r, t, effs) => Some (orphan f effs (synced f r t st))
            | None => None
            end
          else None
      | RetryDone f k attempts =>
          if bool_decide ((f, k) ∈ retries st) then
            match syncFile attempts k (lastSyncTime st) with
            | Some (r, t, effs) => Some (orphan f effs (retried f k r t st))
            | None => None
            end
          else None
      | TimerFired h =>
          if bool_decide (h ∈ timeouts st) then Some (idle_exit h st) else None
      | DirChanged dir => Some (set_dir dir st)
      end
  end.

Fixpoint run (st : State) (es : list event) : option State :=
  match es with
  | [] => Some st
  | e :: es' =>
      match step st e with
      | Some st' => run st' es'
      | None => None
      end
  end.

(** A notification naming [f]. *)
Definition arrival (f : string) : event :=
  Message (Parsed (JObj [("filename", JStr f)])).

End NatsSerial.

(** ** sync_and_play.js *)
Module Poll.

(** Byte-wise order: on ASCII names, the order used by
    [Array.prototype.sort] without a comparator. *)
Definition string_le (x y : string) : Prop := String.leb x y = true.

#[local] Instance string_le_dec : RelDecision string_le :=
  λ x y, decide (String.leb x y = true).

Record State := mkState {
  (* module-level variables; [rsyncProcess] is never assigned *)
  playedFiles : gset string;
  isPlaying : bool;
  lastFileCount : nat;
  idleTimer : option nat;
  (* environment *)
  localDir : option (gset string); (* entries of LOCAL_DIR; None: unreadable *)
  aplays : list string;       (* aplay children still running *)
  rsyncs : nat;               (* rsync children still running *)
  timeouts : list nat;        (* pending setTimeout handles *)
  fresh : nat;                (* next timer handle *)
  started : bool;             (* the two intervals are set *)
  history : list action;
  exitCode : option Z
}.

Definition init (dir : option (gset string)) : State :=
  mkState ∅ false 0%nat None dir [] 1%nat [] 0%nat false [] None.

(** [getWavFiles]: the sorted .wav entries, or [[]] when reading throws.
    Names are compared byte by byte, which is the order of [sort()] (by
    UTF-16 code units) when the names are ASCII. *)
Definition getWavFiles (st : State) : list string :=
  match localDir st with
  | Some dir =>
      merge_sort string_le (filter (fun file => endsWith file ".wav" = true) (elements dir))
  | None => []
  end.

Definition isConnectionError (code : Z) (stderr : string) : bool :=
  includes stderr "Connection refused" ||
  includes stderr "Connection timed out" ||
  includes stderr "Network is unreachable" ||
  bool_decide (code = 255).

(** [syncFiles]: the promise of one rsync run. *)
Definition syncFiles (c : child) : settled :=
  match c with
  | Exit code stderr =>
      if bool_decide (code = 0) then Resolved
      else if isConnectionError code stderr then Resolved
      else if bool_decide (code = 23) || bool_decide (code = 24) then Resolved
      else Resolved
  | SpawnError => Rejected
  end.

(** [idleTimer = setTimeout(.., IDLE_TIMEOUT)]. *)
Definition arm (st : State) : State :=
  mkState (playedFiles st) (isPlaying st) (lastFileCount st) (Some (fresh st))
    (localDir st) (aplays st) (rsyncs st) (timeouts st ++ [fresh st])
    (S (fresh st)) (started st) (history st) (exitCode st).

(** [if (idleTimer) { clearTimeout(idleTimer); idleTimer = null; }]. *)
Definition disarm (st : State) : State :=
  match idleTimer st with
  | Some h =>
      mkState (playedFiles st) (isPlaying st) (lastFileCount st) None
        (localDir st) (aplays st) (rsyncs st)
        (filter (fun h' => h' ≠ h) (timeouts st)) (fresh st)
        (started st) (history st) (exitCode st)
  | None => st
  end.

Definition set_lastFileCount (n : nat) (st : State) : State :=
  mkState (playedFiles st) (isPlaying st) n (idleTimer st)
    (localDir st) (aplays st) (rsyncs st) (timeouts st) (fresh st)
    (started st) (history st) (exitCode st).

(** [isPlaying = true; await playFile(nextFile)], up to the spawn. *)
Definition start_play (nextFile : string) (st : State) : State :=
  mkState (playedFiles st) true (lastFileCount st) (idleTimer st)
    (localDir st) (aplays st ++ [nextFile]) (rsyncs st) (timeouts st)
    (fresh st) (started st) (history st ++ [Play nextFile]) (exitCode st).

(** [files.filter(file => !playedFiles.has(file))]. *)
Definition unplayed (files : list string) (st : State) : list string :=
  filter (fun file => file ∉ playedFiles st) files.

(** [processFiles] up to its [await]. *)
Definition processFiles (st : State) : State :=
  let files := getWavFiles st in
  let unplayedFiles := unplayed files st in
  let currentFileCount := length files in
  let st :=
    if bool_decide (currentFileCount ≠ lastFileCount st)
    then disarm (set_lastFileCount currentFileCount st)
    else st in
  if bool_decide (length unplayedFiles = 0%nat) && negb (isPlaying st) then
    match idleTimer st with
    | None => arm st
    | Some _ => st
    end
  else if bool_decide (0 < length unplayedFiles)%nat && negb (isPlaying st) then
    match head unplayedFiles with
    | Some nextFile => start_play nextFile st
    | None => st
    end
  else st.

(** [processFiles] after [await playFile(nextFile)]. *)
Definition played (nextFile : string) (r : settled) (st : State) : State :=
  let done :=
    match r with
    | Resolved => {[nextFile]} ∪ playedFiles st
    | Rejected => {[nextFile]} ∪ playedFiles st
    end in
  mkState done false (lastFileCount st) (idleTimer st)
    (localDir st) (remove1 nextFile (aplays st)) (rsyncs st) (timeouts st)
    (fresh st) (started st) (history st) (exitCode st).

(** [main] after its [await syncFiles()]: exit with 1 on rejection,
    otherwise set the two intervals. *)
Definition initial_sync (r : settled) (st : State) : State :=
  match r with
  | Resolved =>
      mkState (playedFiles st) (isPlaying st) (lastFileCount st) (idleTimer st)
        (localDir st) (aplays st) (pred (rsyncs st)) (timeouts st) (fresh st)
        true (history st) (exitCode st)
  | Rejected =>
      mkState (playedFiles st) (isPlaying st) (lastFileCount st) (idleTimer st)
        (localDir st) (aplays st) (pred (rsyncs st)) (timeouts st) (fresh st)
        (started st) (history st) (Some 1)
  end.

(** The sync interval's callback up to [await syncFiles()]. *)
Definition spawn_rsync (st : State) : State :=
  mkState (playedFiles st) (isPlaying st) (lastFileCount st) (idleTimer st)
    (localDir st) (aplays st) (S (rsyncs st)) (timeouts st) (fresh st)
    (started st) (history st) (exitCode st).

(** The sync interval's callback after [await syncFiles()]: the [catch]
    only prints. *)
Definition rsync_done (r : settled) (st : State) : State :=
  mkState (playedFiles st) (isPlaying st) (lastFileCount st) (idleTimer st)
    (localDir st) (aplays st) (pred (rsyncs st)) (timeouts st) (fresh st)
    (started st) (history st) (exitCode st).

(** The idle timer's callback: [process.exit(0)]. *)
Definition idle_exit (h : nat) (st : State) : State :=
  mkState (playedFiles st) (isPlaying st) (lastFileCount st) (idleTimer st)
    (localDir st) (aplays st) (rsyncs st)
    (filter (fun h' => h' ≠ h) (timeouts st)) (fresh st)
    (started st) (history st) (Some 0).

(** rsync, or anything else, changes LOCAL_DIR. *)
Definition set_dir (dir : option (gset string)) (st : State) : State :=
  mkState (playedFiles st) (isPlaying st) (lastFileCount st) (idleTimer st)
    dir (aplays st) (rsyncs st) (timeouts st) (fresh st)
    (started st) (history st) (exitCode st).

Inductive event :=
| RsyncDone (c : child)
| SyncTick
| Tick
| AplayDone (f : string) (c : child)
| TimerFired (h : nat)
| DirChanged (dir : option (gset string)).

(** One atomic step; [None] when the event cannot happen in [st]. *)
Definition step (st : State) (e : event) : option State :=
  match exitCode st with
  | Some _ => None
  | None =>
      match e with
      | RsyncDone c =>
          if bool_decide (0 < rsyncs st)%nat then
            if started st then Some (rsync_done (syncFiles c) st)
            else Some (initial_sync (syncFiles c) st)
          else None
      | SyncTick => if started st then Some (spawn_rsync st) else None
      | Tick => if started st then Some (processFiles st) else None
      | AplayDone f c =>
          if bool_decide (f ∈ aplays st) then Some (played f (playFile c) st)
          else None
      | TimerFired h =>
          if bool_decide (h ∈ timeouts st) then Some (idle_exit h st) else None
      | DirChanged dir => Some (set_dir dir st)
      end
  end.

Fixpoint run (st : State) (es : list event) : option State :=
  match es with
  | [] => Some st
  | e :: es' =>
      match step st e with
      | Some st' => run st' es'
      | None => None
      end
  end.

End Poll.

(** ** The script with both NATS notifications and directory polling
    (unnamed/part_000) *)
Module Hybrid.

Definition string_le (x y : string) : Prop := String.leb x y = true.

#[local] Instance string_le_dec : RelDecision string_le :=
  λ x y, decide (String.leb x y = true).

Record State := mkState {
  (* module-level variables; [rsyncProcess] is never assigned *)
  playedFiles : gset string;
  playQueue : list string;
  isPlaying : bool;
  lastFileCount : nat;
  idleTimer : option nat;
  natsClient : bool;          (* connect() succeeded *)
  (* configuration: parseInt(process.env.RSYNC_INTERVAL || '0', 10);
     None is NaN *)
  RSYNC_INTERVAL : option Z;
  (* environment *)
  localDir : option (gset string); (* entries of LOCAL_DIR; None: unreadable *)
  aplays : list string;       (* aplay children still running *)
  rsyncs : nat;               (* rsync children still running *)
  handling : option string;   (* the message handler waits in
                                 [await syncFiles()] for this filename *)
  timeouts : list nat;        (* pending setTimeout handles *)
  fresh : nat;                (* next timer handle *)
  started : bool;             (* the intervals are set *)
  closing : bool;             (* the idle callback waits in
                                 [await natsClient.close()] *)
  history : list action;
  exitCode : option Z
}.

(** [RSYNC_INTERVAL > 0]. *)
Definition periodic (interval : option Z) : bool :=
  match interval with
  | Some ms => bool_decide (0 < ms)
  | None => false
  end.

(** [main] up to its first wait after the subscription: with a positive
    interval it waits for the initial rsync, otherwise the process interval is
    set at once. *)
Definition init (connected : bool) (interval : option Z)
    (dir : option (gset string)) : State :=
  mkState ∅ [] false 0%nat None connected interval dir []
    (if periodic interval then 1%nat else 0%nat) None [] 0%nat
    (negb (periodic interval)) false [] None.

(** [getWavFiles]: the sorted .wav entries, or [[]] when reading throws.
    Names are compared byte by byte, which is the order of [sort()] (by
    UTF-16 code units) when the names are ASCII. *)
Definition getWavFiles (st : State) : list string :=
  match localDir st with
  | Some dir =>
      merge_sort string_le (filter (fun file => endsWith file ".wav" = true) (elements dir))
  | None => []
  end.

Definition existsSync (f : string) (st : State) : bool :=
  match localDir st with
  | Some dir => bool_decide (f ∈ dir)
  | None => false
  end.

Definition isConnectionError (code : Z) (stderr : string) : bool :=
  includes stderr "Connection refused" ||
  includes stderr "Connection timed out" ||
  includes stderr "Network is unreachable" ||
  bool_decide (code = 255).

(** [syncFiles]: the promise of one rsync run. *)
Definition syncFiles (c : child) : settled :=
  match c with
  | Exit code stderr =>
      if bool_decide (code = 0) then Resolved
      else if isConnectionError code stderr then Resolved
      else if bool_decide (code = 23) || bool_decide (code = 24) then Resolved
      else Resolved
  | SpawnError => Rejected
  end.

(** [idleTimer = setTimeout(.., IDLE_TIMEOUT)]. *)
Definition arm (st : State) : State :=
  mkState (playedFiles st) (playQueue st) (isPlaying st) (lastFileCount st)
    (Some (fresh st)) (natsClient st) (RSYNC_INTERVAL st)
    (localDir st) (aplays st) (rsyncs st) (handling st)
    (timeouts st ++ [fresh st]) (S (fresh st)) (started st) (closing st)
    (history st) (exitCode st).

(** [if (idleTimer) { clearTimeout(idleTimer); idleTimer = null; }]. *)
Definition disarm (st : State) : State :=
  match idleTimer st with
  | Some h =>
      mkState (playedFiles st) (playQueue st) (isPlaying st) (lastFileCount st)
        None (natsClient st) (RSYNC_INTERVAL st)
        (localDir st) (aplays st) (rsyncs st) (handling st)
        (filter (fun h' => h' ≠ h) (timeouts st)) (fresh st) (started st)
        (closing st) (history st) (exitCode st)
  | None => st
  end.

(** [playQueue.push(filename)]. *)
Definition push (f : string) (st : State) : State :=
  mkState (playedFiles st) (playQueue st ++ [f]) (isPlaying st) (lastFileCount st)
    (idleTimer st) (natsClient st) (RSYNC_INTERVAL st)
    (localDir st) (aplays st) (rsyncs st) (handling st)
    (timeouts st) (fresh st) (started st) (closing st)
    (history st ++ [Push f]) (exitCode st).

Definition set_lastFileCount (n : nat) (st : State) : State :=
  mkState (playedFiles st) (playQueue st) (isPlaying st) n
    (idleTimer st) (natsClient st) (RSYNC_INTERVAL st)
    (localDir st) (aplays st) (rsyncs st) (handling st)
    (timeouts st) (fresh st) (started st) (closing st)
    (history st) (exitCode st).

(** [spawn('rsync', ..)] with the handler waiting for it, or not. *)
Definition spawn_rsync (waiting : option string) (st : State) : State :=
  mkState (playedFiles st) (playQueue st) (isPlaying st) (lastFileCount st)
    (idleTimer st) (natsClient st) (RSYNC_INTERVAL st)
    (localDir st) (aplays st) (S (rsyncs st)) waiting
    (timeouts st) (fresh st) (started st) (closing st)
    (history st) (exitCode st).

(** An rsync child has closed; [waiting] is what remains of [handling]. *)
Definition reap_rsync (waiting : option string) (st : State) : State :=
  mkState (playedFiles st) (playQueue st) (isPlaying st) (lastFileCount st)
    (idleTimer st) (natsClient st) (RSYNC_INTERVAL st)
    (localDir st) (aplays st) (pred (rsyncs st)) waiting
    (timeouts st) (fresh st) (started st) (closing st)
    (history st) (exitCode st).

(** The handler's
    [if (!playedFiles.has(filename) && !playQueue.includes(filename))]. *)
Definition enqueue (filename : string) (st : State) : State :=
  if negb (bool_decide (filename ∈ playedFiles st))
     && negb (bool_decide (filename ∈ playQueue st))
  then disarm (push filename st)
  else st.

(** Body of the [for await (const msg of sub)] loop, up to
    [await syncFiles()] when [RSYNC_INTERVAL === 0]. *)
Definition onMessage (p : payload) (st : State) : State :=
  match wav_filename p with
  | Throw => st
  | Normal None => st
  | Normal (Some filename) =>
      if bool_decide (RSYNC_INTERVAL st = Some 0)
      then spawn_rsync (Some filename) st
      else enqueue filename st
  end.

(** The handler after [await syncFiles()]: the [catch] only prints. *)
Definition onMessage_synced (filename : string) (r : settled) (st : State) : State :=
  match r with
  | Resolved => enqueue filename (reap_rsync None st)
  | Rejected => enqueue filename (reap_rsync None st)
  end.

(** [isPlaying = true; await playFile(f)], up to the spawn, after
    [playQueue.shift()] when the file comes from the queue. *)
Definition start_play (shift : bool) (f : string) (st : State) : State :=
  mkState (playedFiles st)
    (if shift then tail (playQueue st) else playQueue st) true
    (lastFileCount st) (idleTimer st) (natsClient st) (RSYNC_INTERVAL st)
    (localDir st) (aplays st ++ [f]) (rsyncs st) (handling st)
    (timeouts st) (fresh st) (started st) (closing st)
    (history st ++ [Play f]) (exitCode st).

(** [files.filter(file => !playedFiles.has(file) && !playQueue.includes(file))]. *)
Definition unplayed (files : list string) (st : State) : list string :=
  filter (fun file => (file ∉ playedFiles st) ∧ (file ∉ playQueue st)) files.

(** The part of [processFiles] after the queue block, up to its [await]. *)
Definition processListing (st : State) : State :=
  let files := getWavFiles st in
  let unplayedFiles := unplayed files st in
  let currentFileCount := length files in
  let st :=
    if bool_decide (currentFileCount ≠ lastFileCount st)
    then disarm (set_lastFileCount currentFileCount st)
    else st in
  if bool_decide (length unplayedFiles = 0%nat)
     && bool_decide (length (playQueue st) = 0%nat) && negb (isPlaying st) then
    match idleTimer st with
    | None => arm st
    | Some _ => st
    end
  else if bool_decide (0 < length unplayedFiles)%nat && negb (isPlaying st) then
    match head unplayedFiles with
    | Some nextFile => start_play false nextFile st
    | None => st
    end
  else st.

(** [processFiles] up to its first [await]. *)
Definition processFiles (st : State) : State :=
  if bool_decide (0 < length (playQueue st))%nat && negb (isPlaying st) then
    match head (playQueue st) with
    | Some queuedFile =>
        if existsSync queuedFile st then start_play true queuedFile st
        else processListing st
    | None => processListing st
    end
  else processListing st.

(** [processFiles] after either [await playFile(..)]. *)
Definition played (f : string) (r : settled) (st : State) : State :=
  let done :=
    match r with
    | Resolved => {[f]} ∪ playedFiles st
    | Rejected => {[f]} ∪ playedFiles st
    end in
  mkState done (playQueue st) false (lastFileCount st)
    (idleTimer st) (natsClient st) (RSYNC_INTERVAL st)
    (localDir st) (remove1 f (aplays st)) (rsyncs st) (handling st)
    (timeouts st) (fresh st) (started st) (closing st)
    (history st) (exitCode st).

Definition set_started (st : State) : State :=
  mkState (playedFiles st) (playQueue st) (isPlaying st) (lastFileCount st)
    (idleTimer st) (natsClient st) (RSYNC_INTERVAL st)
    (localDir st) (aplays st) (rsyncs st) (handling st)
    (timeouts st) (fresh st) true (closing st)
    (history st) (exitCode st).

(** [process.exit(code)]. *)
Definition exit (code : Z) (st : State) : State :=
  mkState (playedFiles st) (playQueue st) (isPlaying st) (lastFileCount st)
    (idleTimer st) (natsClient st) (RSYNC_INTERVAL st)
    (localDir st) (aplays st) (rsyncs st) (handling st)
    (timeouts st) (fresh st) (started st) (closing st)
    (history st) (Some code).

(** [main] after its [await syncFiles()]. *)
Definition initial_sync (r : settled) (st : State) : State :=
  match r with
  | Resolved => set_started (reap_rsync (handling st) st)
  | Rejected => exit 1 (reap_rsync (handling st) st)
  end.

(** The sync interval's callback after [await syncFiles()]: the [catch] only
    prints. *)
Definition rsync_done (r : settled) (st : State) : State :=
  reap_rsync (handling st) st.

(** The idle timer's callback up to [await natsClient.close()], or to
    [process.exit(0)] when there is no client. *)
Definition idle_fired (h : nat) (st : State) : State :=
  let st :=
    mkState (playedFiles st) (playQueue st) (isPlaying st) (lastFileCount st)
      (idleTimer st) (natsClient st) (RSYNC_INTERVAL st)
      (localDir st) (aplays st) (rsyncs st) (handling st)
      (filter (fun h' => h' ≠ h) (timeouts st)) (fresh st) (started st)
      (natsClient st) (history st) (exitCode st) in
  if natsClient st then st else exit 0 st.

Definition set_dir (dir : option (gset string)) (st : State) : State :=
  mkState (playedFiles st) (playQueue st) (isPlaying st) (lastFileCount st)
    (idleTimer st) (natsClient st) (RSYNC_INTERVAL st)
    dir (aplays st) (rsyncs st) (handling st)
    (timeouts st) (fresh st) (started st) (closing st)
    (history st) (exitCode st).

Inductive event :=
| Message (p : payload)
| RsyncDone (c : child)
| SyncTick
| Tick
| AplayDone (f : string) (c : child)
| TimerFired (h : nat)
| NatsClosed
| DirChanged (dir : option (gset string)).

(** One atomic step; [None] when the event cannot happen in [st]. *)
Definition step (st : State) (e : event) : option State :=
  match exitCode st with
  | Some _ => None
  | None =>
      match e with
      | Message p =>
          if natsClient st && bool_decide (handling st = None)
          then Some (onMessage p st) else None
      | RsyncDone c =>
          if bool_decide (0 < rsyncs st)%nat then
            match handling st with
            | Some filename => Some (onMessage_synced filename (syncFiles c) st)
            | None =>
                if started st then Some (rsync_done (syncFiles c) st)
                else Some (initial_sync (syncFiles c) st)
            end
          else None
      | SyncTick =>
          if started st && periodic (RSYNC_INTERVAL st)
          then Some (spawn_rsync (handling st) st) else None
      | Tick => if started st then Some (processFiles st) else None
      | AplayDone f c =>
          if bool_decide (f ∈ aplays st) then Some (played f (playFile c) st)
          else None
      | TimerFired h =>
          if bool_decide (h ∈ timeouts st) then Some (idle_fired h st) else None
      | NatsClosed => if closing st then Some (exit 0 st) else None
      | DirChanged dir => Some (set_dir dir st)
      end
  end.

Fixpoint run (st : State) (es : list event) : option State :=
  match es with
  | [] => Some st
  | e :: es' =>
      match step st e with
      | Some st' => run st' es'
      | None => None
      end
  end.

(** A notification naming [f]. *)
Definition arrival (f : string) : event :=
  Message (Parsed (JObj [("filename", JStr f)])).

End Hybrid.

(** ** Properties stated below *)


(** The queue is what was pushed minus what went to the player, and exactly
    one aplay runs while [isPlaying] is set. *)
Definition nats_queue_inv (st : NatsOnly.State) : Prop :=
  plays (NatsOnly.history st) ++ NatsOnly.playQueue st = pushes (NatsOnly.history st)
  ∧ (if NatsOnly.isPlaying st then ∃ f, NatsOnly.aplays st = [f]
     else NatsOnly.aplays st = []).

(** While the process runs, the only pending timeout is the one held in
    [idleTimer], and it is held only with an empty queue and no playback. *)
Definition nats_timer_inv (st : NatsOnly.State) : Prop :=
  NatsOnly.exitCode st = None →
  match NatsOnly.idleTimer st with
  | Some h =>
      NatsOnly.timeouts st = [h] ∧ NatsOnly.playQueue st = []
      ∧ NatsOnly.isPlaying st = false
  | None => NatsOnly.timeouts st = []
  end.

(** The serialized script: the same queue equation; one aplay while
    [isPlaying]; one awaited [syncFile], for the queue head, while
    [isSyncing]; never both flags at once. *)
Definition serial_inv (st : NatsSerial.State) : Prop :=
  plays (NatsSerial.history st) ++ NatsSerial.playQueue st
    = pushes (NatsSerial.history st)
  ∧ (if NatsSerial.isPlaying st then ∃ f, NatsSerial.aplays st = [f]
     else NatsSerial.aplays st = [])
  ∧ (if NatsSerial.isSyncing st
     then ∃ f, NatsSerial.syncs st = [f] ∧ head (NatsSerial.playQueue st) = Some f
     else NatsSerial.syncs st = [])
  ∧ (NatsSerial.isPlaying st = true → NatsSerial.isSyncing st = false).

(** In the serialized script the timer is held only when, besides,
    [processQueue] waits for no [syncFile]. *)
Definition serial_timer_inv (st : NatsSerial.State) : Prop :=
  NatsSerial.exitCode st = None →
  match NatsSerial.idleTimer st with
  | Some h =>
      NatsSerial.timeouts st = [h] ∧ NatsSerial.playQueue st = []
      ∧ NatsSerial.isPlaying st = false ∧ NatsSerial.isSyncing st = false
  | None => NatsSerial.timeouts st = []
  end.

(** Scenario B: two notifications, both files absent; the transfer of the
    second file finishes first. *)
Definition nats_scenario_B : list NatsOnly.event :=
  [NatsOnly.arrival "seg_002.wav"; NatsOnly.arrival "seg_001.wav";
   NatsOnly.ScpDone "seg_001.wav" (Exit 0 "");
   NatsOnly.Tick;
   NatsOnly.ScpDone "seg_002.wav" (Exit 0 "");
   NatsOnly.Tick;
   NatsOnly.AplayDone "seg_002.wav" (Exit 0 "");
   NatsOnly.Tick].

(** A notification for a file repeated while that file is being played. *)
Definition nats_duplicate_during_playback : list NatsOnly.event :=
  [NatsOnly.arrival "seg_001.wav";
   NatsOnly.Tick;
   NatsOnly.arrival "seg_001.wav";
   NatsOnly.AplayDone "seg_001.wav" (Exit 0 "");
   NatsOnly.Tick].

(** One file, fetched twice: by the handler and, because it is still absent
    at the first tick, by [processQueue].  The first scp succeeds and the file
    is played; when the player is idle again the second scp still runs. *)
Definition nats_idle_with_transfer : list NatsOnly.event :=
  [NatsOnly.arrival "seg_001.wav";
   NatsOnly.Tick;
   NatsOnly.ScpDone "seg_001.wav" (Exit 0 "");
   NatsOnly.Tick;
   NatsOnly.AplayDone "seg_001.wav" (Exit 0 "");
   NatsOnly.Tick].

(** A payload that cannot name a segment: whenever its [filename] is a
    string, the string does not end in ".wav".  This covers a missing field
    and a wrong suffix, and also unparsable payloads and non-string
    fields. *)
Definition no_wav_filename (p : payload) : Prop :=
  ∀ data s, p = Parsed data → get_filename data = Normal (Some (JStr s)) →
            endsWith s ".wav" = false.

(** How one step may change the queue of sync_and_play_nats.js: not at all,
    by a push at the tail, or by removing a head that is present in
    LOCAL_DIR and goes to aplay in the same step. *)
Definition nats_queue_step (st st' : NatsOnly.State) : Prop :=
  NatsOnly.playQueue st' = NatsOnly.playQueue st
  ∨ (∃ f, NatsOnly.playQueue st' = NatsOnly.playQueue st ++ [f])
  ∨ (∃ f, NatsOnly.playQueue st = f :: NatsOnly.playQueue st'
          ∧ f ∈ NatsOnly.localFiles st
          ∧ NatsOnly.history st' = NatsOnly.history st ++ [Play f]).

Definition serial_queue_step (st st' : NatsSerial.State) : Prop :=
  NatsSerial.playQueue st' = NatsSerial.playQueue st
  ∨ (∃ f, NatsSerial.playQueue st' = NatsSerial.playQueue st ++ [f])
  ∨ (∃ f, NatsSerial.playQueue st = f :: NatsSerial.playQueue st'
          ∧ f ∈ NatsSerial.localFiles st
          ∧ NatsSerial.history st' = NatsSerial.history st ++ [Play f]).

(** Four attempts that all end in an ssh connection failure. *)
Definition refused : child := Exit 255 "ssh: connect to host: Connection refused".

Definition serial_all_refused : list NatsSerial.attempt :=
  [NatsSerial.mkAttempt 1000 refused 1100;
   NatsSerial.mkAttempt 3100 refused 3200;
   NatsSerial.mkAttempt 7200 refused 7300;
   NatsSerial.mkAttempt 15300 refused 15400].

(** Scenario D: two names queued, the transfer of the first one fails on
    every attempt. *)
Definition serial_scenario_D : list NatsSerial.event :=
  [NatsSerial.arrival "seg_001.wav"; NatsSerial.arrival "seg_002.wav";
   NatsSerial.Immediate;
   NatsSerial.SyncDone "seg_001.wav" serial_all_refused].

(** Scenario C: two connection failures, then scp succeeds. *)
Definition serial_third_time_lucky : list NatsSerial.attempt :=
  [NatsSerial.mkAttempt 1000 refused 1100;
   NatsSerial.mkAttempt 3100 refused 3200;
   NatsSerial.mkAttempt 7200 (Exit 0 "") 7900].

Definition serial_scenario_C : list NatsSerial.event :=
  [NatsSerial.arrival "seg_003.wav";
   NatsSerial.Immediate;
   NatsSerial.SyncDone "seg_003.wav" serial_third_time_lucky;
   NatsSerial.Tick].

Definition total (l : list Z) : Z := foldr Z.add 0 l.

(** The script of unnamed/part_000: at most one timeout is pending, it is the
    one held in [idleTimer], and the queue is then empty. *)
Definition hybrid_timer_inv (st : Hybrid.State) : Prop :=
  Hybrid.timeouts st = []
  ∨ ∃ h, Hybrid.idleTimer st = Some h ∧ Hybrid.timeouts st = [h]
         ∧ Hybrid.playQueue st = [].

(** ** Further definitions *)

(** The first script of unnamed/part_001: its [syncFiles] (its [main] exits
    before calling anything). *)
Module Legacy.

(** [syncFiles]: exit codes 23 and 24 count as success, every other failure
    rejects. *)
Definition syncFiles (c : child) : settled :=
  match c with
  | Exit code stderr =>
      if bool_decide (code = 0) then Resolved
      else if bool_decide (code = 23) || bool_decide (code = 24) then Resolved
      else Rejected
  | SpawnError => Rejected
  end.

End Legacy.

(** sync_and_play.js, over the steps of the model: before the intervals are
    set nothing has been played and nothing is armed; the exit after a first
    rsync that could not be spawned (code 1) leaves [started] clear, the
    idle exit (code 0) finds it set. *)
Definition poll_lifecycle_inv (st : Poll.State) : Prop :=
  (Poll.started st = false →
   plays (Poll.history st) = [] ∧ Poll.aplays st = [] ∧ Poll.timeouts st = []
   ∧ Poll.idleTimer st = None ∧ Poll.playedFiles st = ∅)
  ∧ match Poll.exitCode st with
    | None => True
    | Some code =>
        (code = 0 ∧ Poll.started st = true) ∨ (code = 1 ∧ Poll.started st = false)
    end.

(** sync_and_play.js: a file handed to aplay is either still playing or in
    [playedFiles], and no file is handed over twice. *)
Definition poll_once_inv (st : Poll.State) : Prop :=
  (if Poll.isPlaying st then ∃ f, Poll.aplays st = [f] else Poll.aplays st = [])
  ∧ NoDup (plays (Poll.history st))
  ∧ ∀ f, f ∈ plays (Poll.history st)
         ↔ f ∈ Poll.playedFiles st ∨ f ∈ Poll.aplays st.

(** sync_and_play.js: the only pending timeout is the one held in
    [idleTimer], and its handle is older than the next one. *)
Definition poll_timer_shape (st : Poll.State) : Prop :=
  match Poll.idleTimer st with
  | Some h => Poll.timeouts st = [h] ∧ (h < Poll.fresh st)%nat
  | None => Poll.timeouts st = []
  end.

Definition poll_timer_inv (st : Poll.State) : Prop :=
  Poll.exitCode st = None → poll_timer_shape st.

(** The .wav names carried by the messages of a run of the serialized script,
    in receipt order. *)
Definition serial_arrivals (es : list NatsSerial.event) : list string :=
  omap (fun e =>
          match e with
          | NatsSerial.Message p =>
              match wav_filename p with
              | Normal (Some f) => Some f
              | _ => None
              end
          | _ => None
          end) es.

(** The played names are the names in [playedFiles] and the one at the
    player. *)
Definition nats_played_exact (st : NatsOnly.State) : Prop :=
  ∀ f, f ∈ plays (NatsOnly.history st)
       ↔ f ∈ NatsOnly.playedFiles st ∨ f ∈ NatsOnly.aplays st.

Definition serial_played_exact (st : NatsSerial.State) : Prop :=
  ∀ f, f ∈ plays (NatsSerial.history st)
       ↔ f ∈ NatsSerial.playedFiles st ∨ f ∈ NatsSerial.aplays st.


(** unnamed/part_000 seen as sync_and_play.js: the variables the two scripts
    share. *)
Definition hybrid_to_poll (st : Hybrid.State) : Poll.State :=
  Poll.mkState (Hybrid.playedFiles st) (Hybrid.isPlaying st)
    (Hybrid.lastFileCount st) (Hybrid.idleTimer st) (Hybrid.localDir st)
    (Hybrid.aplays st) (Hybrid.rsyncs st) (Hybrid.timeouts st)
    (Hybrid.fresh st) (Hybrid.started st) (Hybrid.history st)
    (Hybrid.exitCode st).

Definition hybrid_to_poll_event (e : Hybrid.event) : option Poll.event :=
  match e with
  | Hybrid.Message _ => None
  | Hybrid.NatsClosed => None
  | Hybrid.RsyncDone c => Some (Poll.RsyncDone c)
  | Hybrid.SyncTick => Some Poll.SyncTick
  | Hybrid.Tick => Some Poll.Tick
  | Hybrid.AplayDone f c => Some (Poll.AplayDone f c)
  | Hybrid.TimerFired h => Some (Poll.TimerFired h)
  | Hybrid.DirChanged dir => Some (Poll.DirChanged dir)
  end.

Definition poll_to_hybrid_event (e : Poll.event) : Hybrid.event :=
  match e with
  | Poll.RsyncDone c => Hybrid.RsyncDone c
  | Poll.SyncTick => Hybrid.SyncTick
  | Poll.Tick => Hybrid.Tick
  | Poll.AplayDone f c => Hybrid.AplayDone f c
  | Poll.TimerFired h => Hybrid.TimerFired h
  | Poll.DirChanged dir => Hybrid.DirChanged dir
  end.

(** unnamed/part_000 without a NATS connection and with a positive
    [RSYNC_INTERVAL]: nothing is ever queued and no handler runs. *)
Definition hybrid_polling (st : Hybrid.State) : Prop :=
  Hybrid.natsClient st = false ∧ Hybrid.playQueue st = []
  ∧ Hybrid.handling st = None ∧ Hybrid.closing st = false
  ∧ Hybrid.periodic (Hybrid.RSYNC_INTERVAL st) = true.

(** unnamed/part_000: [isPlaying] is set exactly while the one aplay child
    runs. *)
Definition hybrid_playing_inv (st : Hybrid.State) : Prop :=
  if Hybrid.isPlaying st then ∃ f, Hybrid.aplays st = [f]
  else Hybrid.aplays st = [].

(** unnamed/part_000: who runs rsync, by the value of [RSYNC_INTERVAL].
    With 0 only the message handler does, one run at a time, and the handler
    waits for it; with a positive value the handler never does; with anything
    else (negative, NaN) nobody does. *)
Definition hybrid_sync_inv (interval : option Z) (st : Hybrid.State) : Prop :=
  Hybrid.RSYNC_INTERVAL st = interval
  ∧ if bool_decide (interval = Some 0) then
      Hybrid.started st = true
      ∧ Hybrid.rsyncs st
        = match Hybrid.handling st with Some _ => 1%nat | None => 0%nat end
    else
      Hybrid.handling st = None
      ∧ (Hybrid.periodic interval = false →
         Hybrid.rsyncs st = 0%nat ∧ Hybrid.started st = true).

(** unnamed/part_000, over the steps of the model: before the intervals
    are set (a positive [RSYNC_INTERVAL], first rsync still running) nothing
    is played or armed; the exit after a first rsync that could not be
    spawned (code 1) leaves [started] clear, the idle exit (code 0) finds it
    set. *)
Definition hybrid_lifecycle_inv (st : Hybrid.State) : Prop :=
  (Hybrid.started st = false →
   Hybrid.periodic (Hybrid.RSYNC_INTERVAL st) = true
   ∧ plays (Hybrid.history st) = [] ∧ Hybrid.aplays st = []
   ∧ Hybrid.timeouts st = [] ∧ Hybrid.closing st = false)
  ∧ match Hybrid.exitCode st with
    | None => True
    | Some code =>
        (code = 0 ∧ Hybrid.started st = true)
        ∨ (code = 1 ∧ Hybrid.started st = false)
    end.

(** The same connection failure on four later attempts. *)
Definition serial_all_refused_again : list NatsSerial.attempt :=
  [NatsSerial.mkAttempt 15900 refused 16000;
   NatsSerial.mkAttempt 18000 refused 18100;
   NatsSerial.mkAttempt 22100 refused 22200;
   NatsSerial.mkAttempt 30200 refused 30300].

(** One name whose transfer fails on every attempt of two successive
    [syncFile] calls. *)
Definition serial_two_calls : list NatsSerial.event :=
  [NatsSerial.arrival "seg_001.wav";
   NatsSerial.Immediate;
   NatsSerial.SyncDone "seg_001.wav" serial_all_refused;
   NatsSerial.Tick;
   NatsSerial.SyncDone "seg_001.wav" serial_all_refused_again].

(** A name made of ASCII characters only.  On such names the UTF-16 code
    units that [Array.prototype.sort] compares are the bytes that
    [String.leb] compares. *)
Definition ascii_name (s : string) : Prop :=
  forallb (fun c => Nat.ltb (Ascii.nat_of_ascii c) 128)
          (String.list_ascii_of_string s) = true.
(** * Proofs *)

(** ** Lists, strings *)

Lemma pushes_snoc h a :
  pushes (h ++ [a]) = pushes h ++ match a with Push f => [f] | _ => [] end.
Proof. unfold pushes. rewrite omap_app. by destruct a. Qed.

Lemma plays_snoc h a :
  plays (h ++ [a]) = plays h ++ match a with Play f => [f] | _ => [] end.
Proof. unfold plays. rewrite omap_app. by destruct a. Qed.

Lemma fetches_snoc h a :
  fetches (h ++ [a]) = fetches h ++ match a with Fetch f => [f] | _ => [] end.
Proof. unfold fetches. rewrite omap_app. by destruct a. Qed.

(** The guard of the handlers fails, by a throw or by a falsy test, on every
    payload that does not carry a string ending in ".wav". *)
Lemma wav_filename_rejects p :
  no_wav_filename p → wav_filename p = Throw ∨ wav_filename p = Normal None.
Proof.
  intros Hno. unfold wav_filename.
  destruct p as [|data]; [by left|].
  destruct (get_filename data) as [v|] eqn:Hg; [|by left].
  destruct (truthy v); [|by right].
  destruct v as [[| | |s| |]|]; try by left.
  by rewrite (Hno data s eq_refl Hg); right.
Qed.

Lemma remove1_singleton f g : f ∈ [g] → remove1 f [g] = [].
Proof.
  intros Hin. apply list_elem_of_singleton in Hin as ->.
  simpl. by rewrite bool_decide_eq_true_2.
Qed.

Lemma head_cons_tail {A} (l : list A) x : head l = Some x → l = x :: tail l.
Proof. destruct l; naive_solver. Qed.

Lemma filter_ne_singleton (h : nat) : filter (fun h' => h' ≠ h) [h] = [].
Proof. rewrite filter_cons_False; [done | naive_solver]. Qed.

(** ** sync_and_play_nats.js *)
Section NatsOnlyFacts.
Import NatsOnly.

Lemma nats_run_invariant (P : State → Prop) :
  (∀ st e st', P st → step st e = Some st' → P st') →
  ∀ es st st', P st → run st es = Some st' → P st'.
Proof.
  intros Hstep es. induction es as [|e es IH]; intros st st' HP Hrun.
  - by simplify_eq/=.
  - simpl in Hrun. destruct (step st e) as [st1|] eqn:He; [|done].
    eapply IH; [|exact Hrun]. eauto.
Qed.

Lemma nats_disarm_fields st :
  playedFiles (disarm st) = playedFiles st ∧ playQueue (disarm st) = playQueue st
  ∧ isPlaying (disarm st) = isPlaying st ∧ localFiles (disarm st) = localFiles st
  ∧ aplays (disarm st) = aplays st ∧ scps (disarm st) = scps st
  ∧ history (disarm st) = history st ∧ exitCode (disarm st) = exitCode st
  ∧ idleTimer (disarm st) = None.
Proof. unfold disarm. destruct (idleTimer st) eqn:?; naive_solver. Qed.

Lemma nats_queue_inv_init dir : nats_queue_inv (init dir).
Proof. by split. Qed.

Lemma nats_queue_inv_step st e st' :
  nats_queue_inv st → step st e = Some st' → nats_queue_inv st'.
Proof.
  intros [Hq Hp] Hstep. unfold step in Hstep.
  destruct (exitCode st); [done|].
  destruct e as [p| |f c|f c|h|dir]; simplify_eq/=.
  - (* Message *)
    unfold onMessage.
    destruct (wav_filename p) as [[f|]|]; try done.
    repeat case_bool_decide; try done.
    destruct (nats_disarm_fields (push f st)) as (_ & Hdq & Hdp & _ & Hda & _ & Hdh & _).
    unfold nats_queue_inv.
    destruct (negb _); simpl; rewrite ?Hdq, ?Hdp, ?Hda, ?Hdh; simpl;
      rewrite ?pushes_snoc, ?plays_snoc, ?app_nil_r;
      (split; [by rewrite app_assoc, Hq | exact Hp]).
  - (* Tick *)
    unfold processQueue.
    destruct (bool_decide (length (playQueue st) = 0%nat) && negb (isPlaying st)).
    { by destruct (idleTimer st). }
    destruct (bool_decide (0 < length (playQueue st))%nat && negb (isPlaying st)) eqn:Hc;
      [|done].
    apply andb_prop in Hc as [_ Hnp%negb_true_iff].
    destruct (head (playQueue st)) as [f|] eqn:Hhd; [|done].
    apply head_cons_tail in Hhd.
    unfold existsSync. case_bool_decide; split; simpl;
      rewrite ?pushes_snoc, ?plays_snoc, ?app_nil_r; try done.
    + rewrite <- Hq, <- app_assoc. simpl. by rewrite <- Hhd.
    + rewrite Hnp in Hp. rewrite Hp. eauto.
  - (* AplayDone *)
    case_bool_decide as Hin; simplify_eq/=. split; [done|]. simpl.
    destruct (isPlaying st).
    + destruct Hp as [g Hg]. rewrite Hg in *. by apply remove1_singleton.
    + rewrite Hp in Hin. by apply elem_of_nil in Hin.
  - (* ScpDone *)
    case_bool_decide; by simplify_eq/=.
  - (* TimerFired *)
    case_bool_decide; by simplify_eq/=.
  - done.
Qed.

Lemma nats_queue_inv_reachable dir es st :
  run (init dir) es = Some st → nats_queue_inv st.
Proof.
  apply nats_run_invariant; [apply nats_queue_inv_step | apply nats_queue_inv_init].
Qed.

End NatsOnlyFacts.

Section NatsOnlyTimerFacts.
Import NatsOnly.

Lemma nats_disarm_timeouts st :
  match idleTimer st with
  | Some h => timeouts st = [h]
  | None => timeouts st = []
  end →
  timeouts (disarm st) = [].
Proof.
  unfold disarm. destruct (idleTimer st) as [h|]; [|done].
  intros ->. simpl. apply filter_ne_singleton.
Qed.

Lemma nats_timer_inv_init dir : nats_timer_inv (init dir).
Proof. by intros _. Qed.

Lemma nats_timer_inv_step st e st' :
  nats_timer_inv st → step st e = Some st' → nats_timer_inv st'.
Proof.
  intros Hinv Hstep. unfold step in Hstep.
  destruct (exitCode st) eqn:Hrun; [done|].
  destruct e as [p| |f c|f c|h|dir]; simplify_eq/=.
  - (* Message *)
    unfold onMessage.
    destruct (wav_filename p) as [[f|]|]; try done.
    repeat case_bool_decide; try done.
    assert (timeouts (disarm (push f st)) = []) as Ht.
    { apply nats_disarm_timeouts. simpl.
      specialize (Hinv Hrun). destruct (idleTimer st); [|done].
      by destruct Hinv as (-> & _). }
    destruct (nats_disarm_fields (push f st)) as (_ & _ & _ & _ & _ & _ & _ & _ & Hi).
    intros _. destruct (negb _); simpl; by rewrite Hi, Ht.
  - (* Tick *)
    unfold processQueue. specialize (Hinv Hrun).
    destruct (bool_decide (length (playQueue st) = 0%nat) && negb (isPlaying st)) eqn:Hc.
    { apply andb_prop in Hc as [Hq%bool_decide_eq_true Hnp%negb_true_iff].
      apply length_zero_iff_nil in Hq.
      destruct (idleTimer st) eqn:Hi; intros _; simpl; rewrite ?Hi; [done|].
      by rewrite Hinv. }
    destruct (bool_decide (0 < length (playQueue st))%nat && negb (isPlaying st)) eqn:Hc';
      [|by intros _].
    apply andb_prop in Hc' as [Hq%bool_decide_eq_true _].
    destruct (idleTimer st) as [h|] eqn:Hi.
    { destruct Hinv as (_ & Hnil & _). rewrite Hnil in Hq. simpl in Hq. lia. }
    destruct (head (playQueue st)) as [f|]; [|by intros _; rewrite Hi].
    unfold existsSync.
    destruct (bool_decide (f ∈ localFiles st)); intros _; simpl; by rewrite Hi.
  - (* AplayDone *)
    case_bool_decide; simplify_eq/=. intros _. specialize (Hinv Hrun). simpl.
    destruct (idleTimer st); [by destruct Hinv as (? & ? & ?)|done].
  - (* ScpDone *)
    case_bool_decide; simplify_eq/=. intros _. by specialize (Hinv Hrun).
  - (* TimerFired *)
    case_bool_decide; by simplify_eq/=.
  - intros _. by specialize (Hinv Hrun).
Qed.

Lemma nats_timer_inv_reachable dir es st :
  run (init dir) es = Some st → nats_timer_inv st.
Proof.
  apply nats_run_invariant; [apply nats_timer_inv_step | apply nats_timer_inv_init].
Qed.



End NatsOnlyTimerFacts.

(** ** sync_and_play.js *)
Section PollFacts.
Import Poll.

Lemma poll_run_invariant (P : State → Prop) :
  (∀ st e st', P st → step st e = Some st' → P st') →
  ∀ es st st', P st → run st es = Some st' → P st'.
Proof.
  intros Hstep es. induction es as [|e es IH]; intros st st' HP Hrun.
  - by simplify_eq/=.
  - simpl in Hrun. destruct (step st e) as [st1|] eqn:He; [|done].
    eapply IH; [|exact Hrun]. eauto.
Qed.

Lemma poll_disarm_fields st :
  playedFiles (disarm st) = playedFiles st ∧ isPlaying (disarm st) = isPlaying st
  ∧ lastFileCount (disarm st) = lastFileCount st ∧ localDir (disarm st) = localDir st
  ∧ aplays (disarm st) = aplays st ∧ rsyncs (disarm st) = rsyncs st
  ∧ history (disarm st) = history st ∧ exitCode (disarm st) = exitCode st
  ∧ started (disarm st) = started st ∧ idleTimer (disarm st) = None.
Proof. unfold disarm. destruct (idleTimer st) eqn:?; naive_solver. Qed.

(** What [processFiles] leaves alone, whichever branch it takes. *)
Lemma poll_processFiles_frame st :
  playedFiles (processFiles st) = playedFiles st
  ∧ exitCode (processFiles st) = exitCode st
  ∧ rsyncs (processFiles st) = rsyncs st
  ∧ localDir (processFiles st) = localDir st.
Proof.
  unfold processFiles.
  set (st1 := if bool_decide (_ ≠ _) then _ else st).
  assert (playedFiles st1 = playedFiles st ∧ exitCode st1 = exitCode st
          ∧ rsyncs st1 = rsyncs st ∧ localDir st1 = localDir st) as (H1 & H2 & H3 & H4).
  { subst st1. case_bool_decide; [|done].
    destruct (poll_disarm_fields (set_lastFileCount (length (getWavFiles st)) st))
      as (-> & _ & _ & -> & _ & -> & _ & -> & _). done. }
  destruct (_ && _); [by destruct (idleTimer st1)|].
  destruct (_ && _); [|done].
  by destruct (head _).
Qed.

(** Exactly one aplay runs while [isPlaying] is set. *)
Lemma poll_playing_inv_step st e st' :
  (if isPlaying st then ∃ f, aplays st = [f] else aplays st = []) →
  step st e = Some st' →
  if isPlaying st' then ∃ f, aplays st' = [f] else aplays st' = [].
Proof.
  intros Hp Hstep. unfold step in Hstep.
  destruct (exitCode st); [done|].
  destruct e as [c| | |f c|h|dir]; simplify_eq/=.
  - case_bool_decide; [|done]. destruct (started st); simplify_eq/=; [done|].
    by destruct (syncFiles c).
  - by destruct (started st); simplify_eq/=.
  - destruct (started st); simplify_eq/=.
    unfold processFiles.
    set (st1 := if bool_decide (_ ≠ _) then _ else st).
    assert (isPlaying st1 = isPlaying st ∧ aplays st1 = aplays st) as [Hi Ha].
    { subst st1. case_bool_decide; [|done].
      destruct (poll_disarm_fields (set_lastFileCount (length (getWavFiles st)) st))
        as (_ & -> & _ & _ & -> & _). done. }
    destruct (_ && negb (isPlaying st1)); [by destruct (idleTimer st1); simpl; rewrite ?Hi, ?Ha|].
    destruct (_ && negb (isPlaying st1)) eqn:Hc; [|by rewrite Hi, Ha].
    apply andb_prop in Hc as [_ Hnp%negb_true_iff].
    destruct (head _) as [f|]; [|by rewrite Hi, Ha].
    simpl. rewrite Ha. rewrite Hi in Hnp. rewrite Hnp in Hp. rewrite Hp. eauto.
  - case_bool_decide as Hin; simplify_eq/=.
    destruct (isPlaying st).
    + destruct Hp as [g Hg]. rewrite Hg in *. by apply remove1_singleton.
    + rewrite Hp in Hin. by apply elem_of_nil in Hin.
  - case_bool_decide; by simplify_eq/=.
  - done.
Qed.

Lemma poll_playing_inv_reachable dir es st :
  run (init dir) es = Some st →
  if isPlaying st then ∃ f, aplays st = [f] else aplays st = [].
Proof.
  apply (poll_run_invariant
           (fun st => if isPlaying st then ∃ f, aplays st = [f] else aplays st = [])).
  - apply poll_playing_inv_step.
  - done.
Qed.

End PollFacts.

(** ** The serialized NATS script: [syncFile] and its retries *)
Section SyncFileFacts.
Import NatsSerial.
Variable max_retries : nat.
Variable retry_delay : Z.

Lemma backoffs_app l1 l2 : backoffs (l1 ++ l2) = backoffs l1 ++ backoffs l2.
Proof. apply omap_app. Qed.

Lemma scp_runs_app l1 l2 : scp_runs (l1 ++ l2) = (scp_runs l1 + scp_runs l2)%nat.
Proof. unfold scp_runs. by rewrite omap_app, length_app. Qed.

Lemma orphans_app l1 l2 : orphans (l1 ++ l2) = orphans l1 ++ orphans l2.
Proof. apply omap_app. Qed.

(** The effects of one [doSync]: perhaps a throttle, then one scp. *)
Lemma doSync_effects (d : Z) :
  let pre := (if bool_decide (0 < d) then [Throttle d] else []) ++ [Scp] in
  backoffs pre = [] ∧ scp_runs pre = 1%nat.
Proof. simpl. by case_bool_decide. Qed.

Lemma doSync_orphans (d : Z) :
  orphans ((if bool_decide (0 < d) then [Throttle d] else []) ++ [Scp]) = [].
Proof. by case_bool_decide. Qed.

(** A failed spawn: the promise rejects at once, after one scp and no delay;
    while [retryCount < max_retries] a retry is left behind. *)
Lemma syncFile_with_spawn_error a rest k last :
  outcome a = SpawnError →
  ∃ effs,
    syncFile_with max_retries retry_delay (a :: rest) k last
      = Some (Rejected, last, effs)
    ∧ backoffs effs = [] ∧ scp_runs effs = 1%nat
    ∧ orphans effs = (if bool_decide (k < max_retries)%nat then [S k] else []).
Proof.
  intros Hout. simpl. rewrite Hout.
  destruct (doSync_effects (Z.max 0 (SYNC_DELAY - (now a - last)))) as [Hb Hs].
  pose proof (doSync_orphans (Z.max 0 (SYNC_DELAY - (now a - last)))) as Ho.
  simpl in Hb, Hs.
  destruct (bool_decide (k < max_retries)%nat); eexists; (split; [done|]).
  - by rewrite backoffs_app, scp_runs_app, orphans_app, Hb, Hs, Ho.
  - by rewrite Hb, Hs, Ho.
Qed.

(** The delays are [retry_delay * 2^retryCount] for consecutive
    [retryCount]s, there is one scp run more than there are delays, and
    [retryCount] never passes [max_retries]. *)
Lemma syncFile_with_shape attempts : ∀ k last r t effs,
  syncFile_with max_retries retry_delay attempts k last = Some (r, t, effs) →
  backoffs effs
    = map (fun i => retry_delay * 2 ^ Z.of_nat (k + i)) (seq 0 (length (backoffs effs)))
  ∧ scp_runs effs = S (length (backoffs effs))
  ∧ (backoffs effs = [] ∨ (k + length (backoffs effs) ≤ max_retries)%nat).
Proof.
  induction attempts as [|a rest IH]; intros k last r t effs Hrun; [done|].
  simpl in Hrun.
  set (d := Z.max 0 (SYNC_DELAY - (now a - last))) in *.
  destruct (doSync_effects d) as [Hb Hs]. simpl in Hb, Hs.
  set (pre := (if bool_decide (0 < d) then [Throttle d] else []) ++ [Scp]) in *.
  assert (∀ r t effs,
    match syncFile_with max_retries retry_delay rest (S k) last with
    | Some (r, t, effs) =>
        Some (r, t, pre ++ Backoff (retry_delay * 2 ^ Z.of_nat k) :: effs)
    | None => None
    end = Some (r, t, effs) →
    (k < max_retries)%nat →
    backoffs effs
      = map (fun i => retry_delay * 2 ^ Z.of_nat (k + i)) (seq 0 (length (backoffs effs)))
    ∧ scp_runs effs = S (length (backoffs effs))
    ∧ (backoffs effs = [] ∨ (k + length (backoffs effs) ≤ max_retries)%nat)) as Hretry.
  { clear Hrun r t effs. intros r t effs Hrun Hlt.
    destruct (syncFile_with _ _ rest (S k) last) as [[[r' t'] effs']|] eqn:Hrec; [|done].
    simplify_eq. destruct (IH _ _ _ _ _ Hrec) as (Hd & Hn & Hc).
    rewrite backoffs_app, Hb. simpl. rewrite scp_runs_app, Hs. simpl.
    change (scp_runs (Backoff (retry_delay * 2 ^ Z.of_nat k) :: effs'))
      with (scp_runs effs').
    split; [|split; [by rewrite Hn|]].
    - rewrite Nat.add_0_r. f_equal. rewrite Hd at 1.
      rewrite <- seq_shift, map_map. apply map_ext. intros i.
      by rewrite Nat.add_succ_comm.
    - right. destruct Hc as [->|Hc]; simpl; lia. }
  assert (backoffs pre
            = map (fun i => retry_delay * 2 ^ Z.of_nat (k + i))
                  (seq 0 (length (backoffs pre)))
          ∧ scp_runs pre = S (length (backoffs pre))
          ∧ (backoffs pre = [] ∨ (k + length (backoffs pre) ≤ max_retries)%nat)) as Hstop.
  { rewrite Hb, Hs. auto. }
  destruct (outcome a) as [code stderr|].
  - case_bool_decide; [by simplify_eq|].
    destruct (isConnectionError code stderr); simpl in Hrun.
    + case_bool_decide; [by eapply Hretry|by simplify_eq].
    + by simplify_eq.
  - case_bool_decide; simplify_eq; [|done].
    rewrite backoffs_app, scp_runs_app, Hb, Hs. simpl. auto.
Qed.

(** [n] transient failures within the limit, then a success: the promise
    resolves after exactly the delays for [retryCount = k .. k+n-1]. *)
Lemma syncFile_with_retries fails : ∀ a rest k last stderr,
  Forall transient fails →
  (k + length fails ≤ max_retries)%nat →
  outcome a = Exit 0 stderr →
  ∃ effs,
    syncFile_with max_retries retry_delay (fails ++ a :: rest) k last
      = Some (Resolved, closed_at a, effs)
    ∧ backoffs effs
      = map (fun i => retry_delay * 2 ^ Z.of_nat (k + i)) (seq 0 (length fails)).
Proof.
  induction fails as [|b fails IH]; intros a rest k last stderr Hall Hlen Hok.
  - simpl. rewrite Hok. simpl. eexists. split; [done|].
    by destruct (doSync_effects (Z.max 0 (SYNC_DELAY - (now a - last)))) as [-> _].
  - apply Forall_cons in Hall as [Hb Hall]. simpl in Hlen.
    destruct (IH a rest (S k) last stderr Hall ltac:(lia) Hok) as (effs & Hrec & Hd).
    simpl. rewrite Hrec. unfold transient in Hb.
    destruct (outcome b) as [code err|]; [|done]. destruct Hb as [Hne Hconn].
    rewrite bool_decide_eq_false_2 by done. rewrite Hconn. simpl.
    rewrite bool_decide_eq_true_2 by lia.
    eexists. split; [done|].
    rewrite backoffs_app.
    destruct (doSync_effects (Z.max 0 (SYNC_DELAY - (now b - last)))) as [-> _].
    simpl. rewrite Nat.add_0_r. f_equal.
    rewrite Hd, <- seq_shift, map_map. apply map_ext. intros i.
    by rewrite Nat.add_succ_comm.
Qed.

(** Transient failures on every attempt: after [max_retries] retries the
    promise rejects and [lastSyncTime] is left alone. *)
Lemma syncFile_with_exhausted fails : ∀ rest k last,
  Forall transient fails →
  (k ≤ max_retries)%nat →
  (k + length fails = S max_retries)%nat →
  ∃ effs,
    syncFile_with max_retries retry_delay (fails ++ rest) k last
      = Some (Rejected, last, effs)
    ∧ length (backoffs effs) = (max_retries - k)%nat.
Proof.
  induction fails as [|b fails IH]; intros rest k last Hall Hle Hlen.
  - simpl in Hlen. lia.
  - apply Forall_cons in Hall as [Hb Hall]. simpl in Hlen.
    unfold transient in Hb. simpl.
    destruct (outcome b) as [code err|]; [|done]. destruct Hb as [Hne Hconn].
    rewrite bool_decide_eq_false_2 by done. rewrite Hconn. simpl.
    case_bool_decide as Hk.
    + destruct (IH rest (S k) last Hall ltac:(lia) ltac:(lia)) as (effs & -> & Hd).
      eexists. split; [done|]. rewrite backoffs_app.
      destruct (doSync_effects (Z.max 0 (SYNC_DELAY - (now b - last)))) as [-> _].
      simpl.
      change (backoffs (Backoff (retry_delay * 2 ^ Z.of_nat k) :: effs))
        with (retry_delay * 2 ^ Z.of_nat k :: backoffs effs).
      simpl. lia.
    + eexists. split; [done|].
      destruct (doSync_effects (Z.max 0 (SYNC_DELAY - (now b - last)))) as [-> _].
      simpl. lia.
Qed.

(** The promise settles as soon as the environment has answered more than
    [max_retries - retryCount] attempts. *)
Lemma syncFile_with_settles attempts : ∀ k last,
  attempts ≠ [] →
  (max_retries < k + length attempts)%nat →
  is_Some (syncFile_with max_retries retry_delay attempts k last).
Proof.
  induction attempts as [|a rest IH]; intros k last Hne Hlen; [done|].
  simpl in *.
  assert ((k < max_retries)%nat →
          is_Some (syncFile_with max_retries retry_delay rest (S k) last)) as Hrec.
  { intros Hk. apply IH; [|lia]. intros ->. simpl in Hlen. lia. }
  destruct (outcome a) as [code stderr|].
  - case_bool_decide; [done|].
    destruct (isConnectionError code stderr); simpl; [|done].
    case_bool_decide as Hk; [|done].
    destruct (Hrec Hk) as [[[r t] effs] ->]. done.
  - by case_bool_decide.
Qed.

End SyncFileFacts.

(** ** The serialized NATS script: the coordinator *)
Section NatsSerialFacts.
Import NatsSerial.

Lemma serial_run_invariant (P : State → Prop) :
  (∀ st e st', P st → step st e = Some st' → P st') →
  ∀ es st st', P st → run st es = Some st' → P st'.
Proof.
  intros Hstep es. induction es as [|e es IH]; intros st st' HP Hrun.
  - by simplify_eq/=.
  - simpl in Hrun. destruct (step st e) as [st1|] eqn:He; [|done].
    eapply IH; [|exact Hrun]. eauto.
Qed.

Lemma serial_disarm_fields st :
  playedFiles (disarm st) = playedFiles st ∧ playQueue (disarm st) = playQueue st
  ∧ isPlaying (disarm st) = isPlaying st ∧ isSyncing (disarm st) = isSyncing st
  ∧ localFiles (disarm st) = localFiles st
  ∧ aplays (disarm st) = aplays st ∧ syncs (disarm st) = syncs st
  ∧ history (disarm st) = history st ∧ exitCode (disarm st) = exitCode st
  ∧ idleTimer (disarm st) = None.
Proof. unfold disarm. destruct (idleTimer st) eqn:?; naive_solver. Qed.

Lemma serial_disarm_timeouts st :
  match idleTimer st with
  | Some h => timeouts st = [h]
  | None => timeouts st = []
  end →
  timeouts (disarm st) = [].
Proof.
  unfold disarm. destruct (idleTimer st) as [h|]; [|done].
  intros ->. simpl. apply filter_ne_singleton.
Qed.

(** The message handler either leaves the state alone or pushes one name,
    disarms the timer and perhaps schedules [processQueue]. *)
Lemma serial_onMessage_cases p st :
  onMessage p st = st
  ∨ ∃ f, wav_filename p = Normal (Some f)
         ∧ (f ∉ playedFiles st) ∧ (f ∉ playQueue st)
         ∧ (onMessage p st = disarm (push f st)
            ∨ onMessage p st = setImmediate (disarm (push f st))).
Proof.
  unfold onMessage. destruct (wav_filename p) as [[f|]|]; auto.
  case_bool_decide; auto. case_bool_decide; auto.
  right. exists f. repeat split; try done. destruct (_ && _); auto.
Qed.

(** [processQueue] arms the timer, starts the head's playback, starts the
    head's transfer, or does nothing. *)
Lemma serial_processQueue_cases st :
  (processQueue st = arm st ∧ playQueue st = [] ∧ isPlaying st = false
     ∧ isSyncing st = false ∧ idleTimer st = None)
  ∨ (∃ f, processQueue st = start_play f st ∧ head (playQueue st) = Some f
          ∧ f ∈ localFiles st ∧ isPlaying st = false ∧ isSyncing st = false)
  ∨ (∃ f, processQueue st = start_sync f st ∧ head (playQueue st) = Some f
          ∧ (f ∉ localFiles st) ∧ isPlaying st = false ∧ isSyncing st = false)
  ∨ processQueue st = st.
Proof.
  unfold processQueue.
  destruct (bool_decide (length (playQueue st) = 0%nat)
            && negb (isPlaying st) && negb (isSyncing st)) eqn:Hc.
  { apply andb_prop in Hc as [Hc Hs%negb_true_iff].
    apply andb_prop in Hc as [Hq%bool_decide_eq_true Hp%negb_true_iff].
    apply length_zero_iff_nil in Hq.
    destruct (idleTimer st) eqn:Hi; auto 10. }
  destruct (isPlaying st) eqn:Hp; simpl; [auto 10|].
  destruct (isSyncing st) eqn:Hs; simpl; [auto 10|].
  case_bool_decide; [auto 10|].
  destruct (head (playQueue st)) as [f|] eqn:Hhd; [|auto 10].
  unfold existsSync. case_bool_decide.
  - right. left. exists f. auto.
  - right. right. left. exists f. auto.
Qed.

(** The continuation after playback marks the file played and then either
    starts the transfer of the new head or stops. *)
Lemma serial_played_cases f r st :
  let st1 :=
    mkState ({[f]} ∪ playedFiles st) (playQueue st) false (isSyncing st)
      (lastSyncTime st) (idleTimer st) (localFiles st) (remove1 f (aplays st))
      (syncs st) (retries st) (timeouts st) (fresh st) (immediates st)
      (history st) (exitCode st) in
  played f r st = st1
  ∨ ∃ g, played f r st = start_sync g st1 ∧ head (playQueue st) = Some g
         ∧ g ∉ localFiles st.
Proof.
  unfold played. simpl.
  replace (match r with
           | Resolved => {[f]} ∪ playedFiles st
           | Rejected => {[f]} ∪ playedFiles st
           end) with ({[f]} ∪ playedFiles st) by (by destruct r).
  case_bool_decide; [|auto].
  destruct (head (playQueue st)) as [g|] eqn:Hhd; [|auto].
  unfold existsSync. simpl. case_bool_decide; simpl; [auto|].
  right. exists g. auto.
Qed.

Lemma serial_inv_init dir : serial_inv (init dir).
Proof. by repeat split. Qed.

Lemma serial_inv_step st e st' :
  serial_inv st → step st e = Some st' → serial_inv st'.
Proof.
  intros (Hq & Hp & Hs & Hx) Hstep. unfold step in Hstep.
  destruct (exitCode st); [done|].
  assert (∀ st0, playQueue st0 = playQueue st → history st0 = history st →
            isPlaying st0 = isPlaying st → isSyncing st0 = isSyncing st →
            aplays st0 = aplays st → syncs st0 = syncs st →
            serial_inv (processQueue st0)) as Hpq.
  { intros st0 E1 E2 E3 E4 E5 E6.
    destruct (serial_processQueue_cases st0)
      as [(-> & _)|[(f & -> & Hhd & _ & Hnp & Hns)
                   |[(f & -> & Hhd & _ & Hnp & Hns)| ->]]];
      unfold serial_inv; simpl; rewrite ?E1, ?E2, ?E3, ?E4, ?E5, ?E6 in *;
      rewrite ?pushes_snoc, ?plays_snoc, ?app_nil_r; try done.
    - rewrite Hnp in Hp. rewrite Hns in Hs. rewrite Hp, Hs, Hns.
      apply head_cons_tail in Hhd. repeat split; eauto.
      rewrite <- Hq, <- app_assoc. simpl. by rewrite <- Hhd.
    - rewrite Hnp in Hp. rewrite Hns in Hs. rewrite Hp, Hs, Hnp.
      repeat split; eauto. }
  destruct e as [p| | |f c|f attempts|f k attempts|h|dir]; simplify_eq/=.
  - (* Message *)
    destruct (serial_onMessage_cases p st) as [->|(f & _ & _ & _ & Hcase)]; [done|].
    destruct (serial_disarm_fields (push f st))
      as (_ & Hdq & Hdp & Hds & _ & Hda & Hdy & Hdh & _).
    assert (serial_inv (disarm (push f st))) as Hd.
    { unfold serial_inv. rewrite Hdq, Hdp, Hds, Hda, Hdy, Hdh. simpl.
      rewrite pushes_snoc, plays_snoc, app_nil_r, app_assoc, Hq.
      repeat split; try done.
      destruct (isSyncing st); [|done].
      destruct Hs as (g & Hg & Hhd). exists g. split; [done|].
      apply head_cons_tail in Hhd. by rewrite Hhd. }
    destruct Hcase as [->| ->]; done.
  - (* Tick *) by apply Hpq.
  - (* Immediate *)
    case_bool_decide; simplify_eq/=. unfold run_immediate. by apply Hpq.
  - (* AplayDone *)
    case_bool_decide as Hin; simplify_eq/=.
    assert (isPlaying st = true) as Hpl.
    { destruct (isPlaying st); [done|]. rewrite Hp in Hin.
      by apply elem_of_nil in Hin. }
    rewrite Hpl in Hp. destruct Hp as [g Hg]. specialize (Hx Hpl).
    rewrite Hx in Hs. rewrite Hg in Hin.
    destruct (serial_played_cases f (playFile c) st) as [->|(g' & -> & Hhd & _)];
      unfold serial_inv; simpl; rewrite ?pushes_snoc, ?plays_snoc, ?app_nil_r,
        ?Hx, ?Hs, ?Hg, ?remove1_singleton; try done.
    repeat split; eauto.
  - (* SyncDone *)
    case_bool_decide as Hin; [|done].
    destruct (syncFile attempts 0 (lastSyncTime st)) as [[[r t] effs]|]; simplify_eq/=.
    assert (isSyncing st = true) as Hsy.
    { destruct (isSyncing st); [done|]. rewrite Hs in Hin.
      by apply elem_of_nil in Hin. }
    rewrite Hsy in Hs. destruct Hs as (g & Hg & Hhd). rewrite Hg in Hin.
    unfold serial_inv. simpl. rewrite Hg, remove1_singleton by done.
    repeat split; try done.
  - (* RetryDone *)
    case_bool_decide as Hin; [|done].
    destruct (syncFile attempts k (lastSyncTime st)) as [[[r t] effs]|]; simplify_eq/=.
    done.
  - (* TimerFired *)
    case_bool_decide; by simplify_eq/=.
  - done.
Qed.

Lemma serial_inv_reachable dir es st :
  run (init dir) es = Some st → serial_inv st.
Proof.
  apply serial_run_invariant; [apply serial_inv_step | apply serial_inv_init].
Qed.

Lemma serial_timer_inv_init dir : serial_timer_inv (init dir).
Proof. by intros _. Qed.

Lemma serial_timer_inv_step st e st' :
  serial_timer_inv st → step st e = Some st' → serial_timer_inv st'.
Proof.
  intros Hinv Hstep. unfold step in Hstep.
  destruct (exitCode st) eqn:Hrun; [done|]. specialize (Hinv Hrun).
  assert (∀ st0, playQueue st0 = playQueue st → idleTimer st0 = idleTimer st →
            isPlaying st0 = isPlaying st → isSyncing st0 = isSyncing st →
            timeouts st0 = timeouts st →
            serial_timer_inv (processQueue st0)) as Hpq.
  { intros st0 E1 E2 E3 E4 E5 _.
    destruct (serial_processQueue_cases st0)
      as [(-> & Hnil & Hnp & Hns & Hi)|[(f & -> & Hhd & _)
                   |[(f & -> & Hhd & _)| ->]]];
      simpl; rewrite ?E1, ?E2, ?E3, ?E4, ?E5 in *; try done.
    - rewrite Hi in Hinv. by rewrite Hinv.
    - destruct (idleTimer st); [|done].
      destruct Hinv as (_ & Hnil & _). by rewrite Hnil in Hhd.
    - destruct (idleTimer st); [|done].
      destruct Hinv as (_ & Hnil & _). by rewrite Hnil in Hhd. }
  destruct e as [p| | |f c|f attempts|f k attempts|h|dir]; simplify_eq/=.
  - (* Message *)
    destruct (serial_onMessage_cases p st) as [->|(f & _ & _ & _ & Hcase)];
      [by intros _|].
    assert (timeouts (disarm (push f st)) = []) as Ht.
    { apply serial_disarm_timeouts. simpl.
      destruct (idleTimer st); [|done]. by destruct Hinv as (-> & _). }
    destruct (serial_disarm_fields (push f st)) as (_ & _ & _ & _ & _ & _ & _ & _ & _ & Hi).
    intros _. destruct Hcase as [->| ->]; simpl; by rewrite Hi, Ht.
  - (* Tick *) by apply Hpq.
  - (* Immediate *)
    case_bool_decide; simplify_eq/=. unfold run_immediate. by apply Hpq.
  - (* AplayDone *)
    case_bool_decide as Hin; simplify_eq/=. intros _.
    destruct (serial_played_cases f (playFile c) st) as [->|(g' & -> & Hhd & _)]; simpl.
    + destruct (idleTimer st); [by destruct Hinv as (? & ? & ? & ?)|done].
    + destruct (idleTimer st); [|done].
      destruct Hinv as (_ & Hnil & _). by rewrite Hnil in Hhd.
  - (* SyncDone *)
    case_bool_decide as Hin; [|done].
    destruct (syncFile attempts 0 (lastSyncTime st)) as [[[r t] effs]|]; simplify_eq/=.
    intros _. simpl.
    destruct (idleTimer st); [by destruct Hinv as (? & ? & ? & ?)|done].
  - (* RetryDone *)
    case_bool_decide as Hin; [|done].
    destruct (syncFile attempts k (lastSyncTime st)) as [[[r t] effs]|]; simplify_eq/=.
    by intros _.
  - (* TimerFired *)
    case_bool_decide; by simplify_eq/=.
  - by intros _.
Qed.

Lemma serial_timer_inv_reachable dir es st :
  run (init dir) es = Some st → serial_timer_inv st.
Proof.
  apply serial_run_invariant; [apply serial_timer_inv_step | apply serial_timer_inv_init].
Qed.

End NatsSerialFacts.

(** ** The script with notifications and polling (unnamed/part_000) *)
Section HybridFacts.
Import Hybrid.

Lemma hybrid_run_invariant (P : State → Prop) :
  (∀ st e st', P st → step st e = Some st' → P st') →
  ∀ es st st', P st → run st es = Some st' → P st'.
Proof.
  intros Hstep es. induction es as [|e es IH]; intros st st' HP Hrun.
  - by simplify_eq/=.
  - simpl in Hrun. destruct (step st e) as [st1|] eqn:He; [|done].
    eapply IH; [|exact Hrun]. eauto.
Qed.

Lemma hybrid_disarm_inv st :
  (Hybrid.timeouts st = [] ∨ ∃ h, idleTimer st = Some h ∧ timeouts st = [h]) →
  timeouts (disarm st) = [] ∧ idleTimer (disarm st) = None
  ∧ playQueue (disarm st) = playQueue st ∧ isPlaying (disarm st) = isPlaying st
  ∧ lastFileCount (disarm st) = lastFileCount st.
Proof.
  unfold disarm. intros [Ht|(h & Hi & Ht)].
  - destruct (idleTimer st) eqn:Hi; simpl; rewrite ?Ht; repeat split; done.
  - rewrite Hi. simpl. rewrite Ht, filter_ne_singleton. repeat split; done.
Qed.

Lemma hybrid_timer_inv_weaken st :
  hybrid_timer_inv st →
  Hybrid.timeouts st = [] ∨ ∃ h, idleTimer st = Some h ∧ timeouts st = [h].
Proof. intros [?|(h & ? & ? & _)]; eauto. Qed.

Lemma hybrid_enqueue_inv f st :
  hybrid_timer_inv st → hybrid_timer_inv (enqueue f st).
Proof.
  intros Hinv. unfold enqueue. destruct (_ && _); [|done].
  left. apply hybrid_disarm_inv. simpl. by apply hybrid_timer_inv_weaken.
Qed.

Lemma hybrid_processListing_inv st :
  hybrid_timer_inv st → hybrid_timer_inv (processListing st).
Proof.
  intros Hinv. unfold processListing.
  set (st1 := if bool_decide (_ ≠ _) then _ else st).
  assert (hybrid_timer_inv st1) as Hinv1.
  { subst st1. case_bool_decide; [|done]. left.
    apply hybrid_disarm_inv. simpl. by apply hybrid_timer_inv_weaken. }
  destruct (_ && _ && _) eqn:Hc.
  - apply andb_prop in Hc as [Hc _]. apply andb_prop in Hc as [_ Hq%bool_decide_eq_true].
    apply length_zero_iff_nil in Hq.
    destruct (idleTimer st1) as [h|] eqn:Hi; [done|].
    right. exists (fresh st1). simpl.
    destruct Hinv1 as [Ht|(h & Hi' & _)]; [|congruence].
    rewrite Ht. split; [reflexivity|]. split; [reflexivity|]. exact Hq.
  - clear Hc. destruct (_ && negb _); [|exact Hinv1].
    destruct (head _); [|exact Hinv1].
    destruct Hinv1 as [?|(h & ? & ? & ?)]; [by left|right; by exists h].
Qed.

Lemma hybrid_timer_inv_step st e st' :
  hybrid_timer_inv st → step st e = Some st' → hybrid_timer_inv st'.
Proof.
  intros Hinv Hstep. unfold step in Hstep.
  destruct (exitCode st); [done|].
  destruct e as [p|c| | |f c|h| |dir]; simplify_eq/=.
  - destruct (_ && _); simplify_eq/=. unfold onMessage.
    destruct (wav_filename p) as [[f|]|]; try done.
    case_bool_decide; [done|]. by apply hybrid_enqueue_inv.
  - case_bool_decide; [|done]. destruct (handling st) as [f|].
    + simplify_eq/=. unfold onMessage_synced.
      destruct (syncFiles c); by apply hybrid_enqueue_inv.
    + destruct (started st); simplify_eq/=; [done|].
      unfold initial_sync. by destruct (syncFiles c).
  - by destruct (_ && _); simplify_eq/=.
  - destruct (started st); simplify_eq/=. unfold processFiles.
    destruct (_ && _) eqn:Hc; [|by apply hybrid_processListing_inv].
    destruct (head (playQueue st)) as [f|] eqn:Hhd;
      [|by apply hybrid_processListing_inv].
    destruct (existsSync f st); [|by apply hybrid_processListing_inv].
    left. simpl. destruct Hinv as [?|(h & _ & _ & Hq)]; [done|].
    by rewrite Hq in Hhd.
  - case_bool_decide; simplify_eq/=. done.
  - case_bool_decide as Hin; simplify_eq/=. left.
    assert (filter (λ h', h' ≠ h) (timeouts st) = []) as Hnil.
    { destruct Hinv as [Ht|(h' & _ & Ht & _)]; rewrite Ht in *.
      - by apply elem_of_nil in Hin.
      - apply list_elem_of_singleton in Hin as ->. apply filter_ne_singleton. }
    unfold idle_fired. by destruct (natsClient st).
  - by destruct (closing st); simplify_eq/=.
  - done.
Qed.

(** The idle timer of unnamed/part_000: at most one timeout is ever pending
    (arming is idempotent), it is pending only with an empty queue, and a new
    name in the queue disarms it. *)
Lemma hybrid_idle_timer_discipline connected interval dir es st :
  run (init connected interval dir) es = Some st →
  (length (timeouts st) ≤ 1)%nat
  ∧ (timeouts st ≠ [] → playQueue st = [])
  ∧ ∀ f, f ∉ playedFiles st → f ∉ playQueue st →
         playQueue (enqueue f st) = playQueue st ++ [f]
         ∧ idleTimer (enqueue f st) = None
         ∧ timeouts (enqueue f st) = [].
Proof.
  intros Hrun.
  assert (hybrid_timer_inv st) as Hinv.
  { revert Hrun. apply hybrid_run_invariant; [apply hybrid_timer_inv_step|by left]. }
  split; [|split].
  - destruct Hinv as [->|(h & _ & -> & _)]; simpl; lia.
  - intros Hne. by destruct Hinv as [?|(h & _ & _ & ?)].
  - intros f Hp Hq. unfold enqueue.
    rewrite !bool_decide_eq_false_2 by done. simpl.
    destruct (hybrid_disarm_inv (push f st)) as (Ht & Hi & Hpq & _).
    { simpl. by apply hybrid_timer_inv_weaken. }
    by rewrite Ht, Hi, Hpq.
Qed.

(** Exit codes 23 and 24 in unnamed/part_000: [syncFiles] resolves, and the
    handler that waited for it goes on to enqueue the name; [processFiles]
    takes the head off the queue only if its file exists. *)
Lemma hybrid_partial_transfer_soft_success code stderr :
  code = 23 ∨ code = 24 →
  syncFiles (Exit code stderr) = Resolved
  ∧ (∀ f st, onMessage_synced f (syncFiles (Exit code stderr)) st
             = enqueue f (reap_rsync None st))
  ∧ (∀ st, playQueue (processFiles st) = playQueue st
           ∨ ∃ f, playQueue st = f :: playQueue (processFiles st)
                  ∧ existsSync f st = true).
Proof.
  intros Hcode.
  assert (syncFiles (Exit code stderr) = Resolved) as Hres.
  { unfold syncFiles. rewrite bool_decide_eq_false_2 by lia.
    destruct (isConnectionError code stderr); [done|].
    destruct Hcode as [-> | ->]; done. }
  split; [done|]. split; [by intros f st; rewrite Hres|].
  intros st.
  assert (playQueue (processListing st) = playQueue st) as Hl.
  { unfold processListing.
    set (st1 := if bool_decide (_ ≠ _) then _ else st).
    assert (playQueue st1 = playQueue st) as Hq.
    { subst st1. case_bool_decide; [|done]. unfold disarm.
      by destruct (idleTimer _). }
    destruct (_ && _ && _); [by destruct (idleTimer st1)|].
    destruct (_ && _); [|done]. by destruct (head _). }
  unfold processFiles.
  destruct (_ && _); [|auto].
  destruct (head (playQueue st)) as [f|] eqn:Hhd; [|auto].
  destruct (existsSync f st) eqn:Hex; [|auto].
  right. exists f. simpl. apply head_cons_tail in Hhd. auto.
Qed.

End HybridFacts.

(** * The properties of the specification *)

Section OrderAndDedup.
Import NatsOnly.



(** C2, evaluated at the failing input: seg_001.wav is announced, its
    playback starts, and it is announced again before aplay has closed.
    The name is then neither in [playQueue] nor in [playedFiles], so it is
    pushed, and played, a second time. *)
Theorem nats_duplicate_replayed :
  ∃ st, run (init {["seg_001.wav"]}) nats_duplicate_during_playback = Some st
        ∧ pushes (history st) = ["seg_001.wav"; "seg_001.wav"]
        ∧ plays (history st) = ["seg_001.wav"; "seg_001.wav"].
Proof. eexists. split; [by vm_compute|]. by vm_compute. Qed.

(** The part of C2 that the handler does implement: a name that is queued
    or already played is dropped without any effect. *)
Lemma nats_known_name_ignored p f st :
  wav_filename p = Normal (Some f) →
  f ∈ playedFiles st ∨ f ∈ playQueue st →
  onMessage p st = st.
Proof.
  intros Hf Hknown. unfold onMessage. rewrite Hf.
  case_bool_decide; [done|]. case_bool_decide; [done|]. by destruct Hknown.
Qed.

(** Scenario A: the same name twice in a row is queued once. *)
Lemma nats_scenario_A dir :
  ∃ st, run (init dir) [arrival "seg_001.wav"; arrival "seg_001.wav"] = Some st
        ∧ playQueue st = ["seg_001.wav"].
Proof.
  unfold arrival. set (p := Parsed _).
  assert (wav_filename p = Normal (Some "seg_001.wav")) as Hf by (by vm_compute).
  assert (playQueue (onMessage p (init dir)) = ["seg_001.wav"]
          ∧ exitCode (onMessage p (init dir)) = None) as [Hq Hx].
  { unfold onMessage. rewrite Hf.
    rewrite bool_decide_eq_false_2 by set_solver.
    rewrite bool_decide_eq_false_2 by (simpl; set_solver).
    by destruct (negb _). }
  assert (step (init dir) (Message p) = Some (onMessage p (init dir))) as E1 by done.
  assert (step (onMessage p (init dir)) (Message p)
          = Some (onMessage p (init dir))) as E2.
  { unfold step. rewrite Hx. f_equal.
    apply (nats_known_name_ignored _ "seg_001.wav"); [done|].
    right. rewrite Hq. set_solver. }
  exists (onMessage p (init dir)). split; [|done].
  change (run (init dir) [Message p; Message p])
    with (match step (init dir) (Message p) with
          | Some st' =>
              match step st' (Message p) with
              | Some st'' => Some st''
              | None => None
              end
          | None => None
          end).
  by rewrite E1, E2.
Qed.

End OrderAndDedup.

Section IdleTimerAndGuard.
Import NatsOnly.

(** [processQueue] arms the timer, starts the head's playback, starts a
    transfer of the head, or does nothing. *)
Lemma nats_processQueue_cases st :
  (processQueue st = arm st ∧ playQueue st = [] ∧ isPlaying st = false
     ∧ idleTimer st = None)
  ∨ (∃ f, processQueue st = start_play f st ∧ head (playQueue st) = Some f
          ∧ f ∈ localFiles st ∧ isPlaying st = false)
  ∨ (∃ f, processQueue st = spawn_scp f st ∧ head (playQueue st) = Some f
          ∧ (f ∉ localFiles st) ∧ isPlaying st = false)
  ∨ processQueue st = st.
Proof.
  unfold processQueue.
  destruct (bool_decide (length (playQueue st) = 0%nat) && negb (isPlaying st)) eqn:Hc.
  { apply andb_prop in Hc as [Hq%bool_decide_eq_true Hp%negb_true_iff].
    apply length_zero_iff_nil in Hq.
    destruct (idleTimer st) eqn:Hi; auto 10. }
  destruct (bool_decide (0 < length (playQueue st))%nat && negb (isPlaying st)) eqn:Hc';
    [|auto 10].
  apply andb_prop in Hc' as [_ Hp%negb_true_iff].
  destruct (head (playQueue st)) as [f|] eqn:Hhd; [|auto 10].
  unfold existsSync. destruct (bool_decide (f ∈ localFiles st)) eqn:Hex.
  - apply bool_decide_eq_true in Hex. right. left. exists f. auto.
  - apply bool_decide_eq_false in Hex. right. right. left. exists f. auto.
Qed.

(** The message handler either leaves the state alone or pushes one new
    name, disarms the timer and perhaps starts a transfer. *)
Lemma nats_onMessage_cases p st :
  onMessage p st = st
  ∨ ∃ f, wav_filename p = Normal (Some f)
         ∧ (f ∉ playedFiles st) ∧ (f ∉ playQueue st)
         ∧ (onMessage p st = disarm (push f st)
            ∨ onMessage p st = spawn_scp f (disarm (push f st))).
Proof.
  unfold onMessage. destruct (wav_filename p) as [[f|]|]; auto.
  case_bool_decide; auto. case_bool_decide; auto.
  right. exists f. repeat split; try done. destruct (negb _); auto.
Qed.

(** A step hands a file to aplay only when nothing is playing. *)
Lemma nats_step_plays st e st' :
  step st e = Some st' →
  plays (history st') = plays (history st)
  ∨ (isPlaying st = false ∧ ∃ f, plays (history st') = plays (history st) ++ [f]).
Proof.
  intros Hstep. unfold step in Hstep.
  destruct (exitCode st); [done|].
  destruct e as [p| |f c|f c|h|dir]; simplify_eq/=; auto.
  - destruct (nats_onMessage_cases p st) as [->|(f & _ & _ & _ & [-> | ->])]; auto.
    + destruct (nats_disarm_fields (push f st)) as (_ & _ & _ & _ & _ & _ & -> & _).
      simpl. rewrite plays_snoc, app_nil_r. auto.
    + simpl. destruct (nats_disarm_fields (push f st)) as (_ & _ & _ & _ & _ & _ & -> & _).
      simpl. rewrite !plays_snoc, !app_nil_r. auto.
  - destruct (nats_processQueue_cases st)
      as [(-> & _)|[(f & -> & _ & _ & Hnp)|[(f & -> & _)| ->]]]; simpl; auto.
    + rewrite plays_snoc. eauto.
    + rewrite plays_snoc, app_nil_r. auto.
  - case_bool_decide; simplify_eq/=; auto.
  - case_bool_decide; simplify_eq/=; auto.
  - case_bool_decide; simplify_eq/=; auto.
Qed.

(** C5, as the code has it.  While sync_and_play_nats.js runs: the idle
    timer is held only with an empty queue and no playback, and it is then
    the only pending timeout; without it no timeout is pending.  A tick
    that finds the queue empty and nothing playing leaves the timer armed;
    a tick while it is armed changes nothing (no second timer); every
    accepted notification disarms it; and when it fires the process exits
    with code 0 and nothing runs afterwards. *)
Theorem nats_idle_timer_discipline dir es st :
  run (init dir) es = Some st →
  exitCode st = None →
  (∀ h, idleTimer st = Some h →
        timeouts st = [h] ∧ playQueue st = [] ∧ isPlaying st = false
        ∧ aplays st = [])
  ∧ (idleTimer st = None → timeouts st = [])
  ∧ (playQueue st = [] → isPlaying st = false →
     ∃ h, idleTimer (processQueue st) = Some h ∧ timeouts (processQueue st) = [h])
  ∧ (∀ h, idleTimer st = Some h → processQueue st = st)
  ∧ (∀ p f, wav_filename p = Normal (Some f) →
            f ∉ playedFiles st → f ∉ playQueue st →
            playQueue (onMessage p st) = playQueue st ++ [f]
            ∧ idleTimer (onMessage p st) = None
            ∧ timeouts (onMessage p st) = [])
  ∧ (∀ h st', step st (TimerFired h) = Some st' →
              idleTimer st = Some h ∧ exitCode st' = Some 0
              ∧ ∀ e, step st' e = None).
Proof.
  intros Hrun Hlive.
  pose proof (nats_timer_inv_reachable _ _ _ Hrun Hlive) as Ht.
  destruct (nats_queue_inv_reachable _ _ _ Hrun) as [_ Hp].
  split; [|split; [|split; [|split; [|split]]]].
  - intros h Hi. rewrite Hi in Ht. destruct Ht as (Ht & Hq & Hnp).
    rewrite Hnp in Hp. done.
  - intros Hi. by rewrite Hi in Ht.
  - intros Hq Hnp. unfold processQueue. rewrite Hq, Hnp. simpl.
    destruct (idleTimer st) as [h|] eqn:Hi.
    + exists h. rewrite Hi. by destruct Ht as (? & ? & ?).
    + exists (fresh st). simpl. by rewrite Ht.
  - intros h Hi. rewrite Hi in Ht. destruct Ht as (_ & Hq & Hnp).
    unfold processQueue. by rewrite Hq, Hnp, Hi.
  - intros p f Hf Hnew1 Hnew2. unfold onMessage. rewrite Hf.
    rewrite !bool_decide_eq_false_2 by done.
    destruct (nats_disarm_fields (push f st))
      as (_ & Hdq & _ & _ & _ & _ & _ & _ & Hdi).
    assert (timeouts (disarm (push f st)) = []) as Hd.
    { apply nats_disarm_timeouts. simpl.
      destruct (idleTimer st); [|done]. by destruct Ht as (? & ? & ?). }
    destruct (negb _); simpl; by rewrite Hdq, Hdi, Hd.
  - intros h st' Hstep. unfold step in Hstep. rewrite Hlive in Hstep.
    case_bool_decide as Hin; [|done]. simplify_eq/=.
    split; [|done].
    destruct (idleTimer st) as [h'|].
    + destruct Ht as (Ht & _). rewrite Ht in Hin.
      by apply list_elem_of_singleton in Hin as ->.
    + rewrite Ht in Hin. by apply elem_of_nil in Hin.
Qed.

Lemma nats_idle_timer_discipline_witness :
  ∃ st, run (init ∅) nats_idle_with_transfer = Some st
        ∧ idleTimer st = Some 0%nat ∧ timeouts st = [0%nat]
        ∧ playQueue st = [] ∧ processQueue st = st.
Proof.
  destruct (run (init ∅) nats_idle_with_transfer) as [st|] eqn:Hrun.
  - assert (exitCode st = None) as Hlive.
    { vm_compute in Hrun. injection Hrun as <-. reflexivity. }
    assert (idleTimer st = Some 0%nat) as Hi.
    { vm_compute in Hrun. injection Hrun as <-. reflexivity. }
    destruct (nats_idle_timer_discipline ∅ nats_idle_with_transfer st Hrun Hlive)
      as (Harmed & _ & _ & Hidem & _).
    destruct (Harmed _ Hi) as (Ht & Hq & _).
    exists st. repeat split; try assumption. exact (Hidem _ Hi).
  - vm_compute in Hrun. discriminate Hrun.
Defined.

(** C5 as stated fails in both directions: before the first tick the queue
    is empty and nothing is in flight, yet no timer is armed; and at the
    end of [nats_idle_with_transfer] the timer is armed while an scp for
    seg_001.wav is still running. *)
Lemma nats_idle_timer_not_exact :
  (playQueue (init ∅) = [] ∧ aplays (init ∅) = [] ∧ scps (init ∅) = []
   ∧ idleTimer (init ∅) = None)
  ∧ ∃ st, run (init ∅) nats_idle_with_transfer = Some st
          ∧ idleTimer st = Some 0%nat ∧ scps st = ["seg_001.wav"].
Proof. split; [done|]. eexists. split; [by vm_compute|]. by vm_compute. Qed.

(** C9. A message whose payload has no [filename], or whose [filename]
    does not end in ".wav", leaves the whole state of
    sync_and_play_nats.js as it was: queue, played set, flags, timer,
    pending timeouts and running children. *)
Theorem nats_message_without_wav_ignored p st :
  no_wav_filename p → onMessage p st = st.
Proof.
  intros Hno. unfold onMessage.
  destruct (wav_filename_rejects p Hno) as [Hf | Hf]; rewrite Hf; reflexivity.
Qed.

Lemma nats_message_without_wav_ignored_witness :
  onMessage (Parsed (JObj [("filename", JStr "notes.txt")])) (init {["a.wav"]})
    = init {["a.wav"]}
  ∧ onMessage (Parsed (JObj [("file", JStr "a.wav")])) (init {["a.wav"]})
    = init {["a.wav"]}.
Proof.
  split; apply nats_message_without_wav_ignored.
  - intros data s Hp Hg. injection Hp as <-. vm_compute in Hg.
    injection Hg as <-. reflexivity.
  - intros data s Hp Hg. injection Hp as <-. vm_compute in Hg. discriminate Hg.
Defined.

(** The same guard protects the handlers of the other two NATS scripts. *)
Lemma serial_message_without_wav_ignored p st :
  no_wav_filename p → NatsSerial.onMessage p st = st.
Proof.
  intros Hno. unfold NatsSerial.onMessage.
  by destruct (wav_filename_rejects p Hno) as [-> | ->].
Qed.

Lemma hybrid_message_without_wav_ignored p st :
  no_wav_filename p → Hybrid.onMessage p st = st.
Proof.
  intros Hno. unfold Hybrid.onMessage.
  by destruct (wav_filename_rejects p Hno) as [-> | ->].
Qed.

End IdleTimerAndGuard.

Section PlaybackFacts.

(** A step of sync_and_play.js hands a file to aplay only when nothing is
    playing, and only a file of the current listing that is not yet in
    [playedFiles]. *)
Lemma poll_step_plays st e st' :
  Poll.step st e = Some st' →
  plays (Poll.history st') = plays (Poll.history st)
  ∨ (Poll.isPlaying st = false
     ∧ ∃ f, plays (Poll.history st') = plays (Poll.history st) ++ [f]
            ∧ f ∈ Poll.getWavFiles st ∧ f ∉ Poll.playedFiles st).
Proof.
  intros Hstep. unfold Poll.step in Hstep.
  destruct (Poll.exitCode st); [done|].
  destruct e as [c| | |f c|h|dir]; simplify_eq/=; auto.
  - case_bool_decide; [|done]. destruct (Poll.started st); simplify_eq/=; auto.
    destruct (Poll.syncFiles c); auto.
  - destruct (Poll.started st); simplify_eq/=; auto.
  - destruct (Poll.started st); simplify_eq/=.
    unfold Poll.processFiles.
    set (st1 := if bool_decide (_ ≠ _) then _ else st).
    assert (Poll.isPlaying st1 = Poll.isPlaying st
            ∧ Poll.history st1 = Poll.history st) as [Hi Hh].
    { subst st1. case_bool_decide; [|done].
      destruct (poll_disarm_fields
                  (Poll.set_lastFileCount (length (Poll.getWavFiles st)) st))
        as (_ & -> & _ & _ & _ & _ & -> & _). done. }
    destruct (_ && negb (Poll.isPlaying st1));
      [by destruct (Poll.idleTimer st1); simpl; rewrite ?Hh; auto|].
    destruct (_ && negb (Poll.isPlaying st1)) eqn:Hc; [|rewrite Hh; auto].
    apply andb_prop in Hc as [_ Hnp%negb_true_iff].
    destruct (head _) as [f|] eqn:Hhd; [|rewrite Hh; auto].
    right. rewrite <- Hi. split; [done|]. exists f. simpl.
    rewrite plays_snoc, Hh. split; [done|].
    apply head_cons_tail in Hhd.
    assert (f ∈ Poll.unplayed (Poll.getWavFiles st) st)
      as Hin by (rewrite Hhd; left).
    unfold Poll.unplayed in Hin. apply list_elem_of_filter in Hin as [? ?]. done.
  - case_bool_decide; simplify_eq/=; auto.
  - case_bool_decide; simplify_eq/=; auto.
Qed.

(** In sync_and_play_nats.js a tick that finds nothing playing and the head
    of the queue absent calls [syncFile] for it, whatever is running. *)
Lemma nats_tick_fetches_absent_head st f :
  NatsOnly.isPlaying st = false →
  head (NatsOnly.playQueue st) = Some f →
  f ∉ NatsOnly.localFiles st →
  NatsOnly.processQueue st = NatsOnly.spawn_scp f st.
Proof.
  intros Hnp Hhd Habs. unfold NatsOnly.processQueue, NatsOnly.existsSync.
  rewrite Hnp, Hhd. apply head_cons_tail in Hhd. rewrite Hhd. simpl.
  by rewrite bool_decide_eq_false_2.
Qed.

Lemma nats_ticks_pile_up n : ∀ st f,
  NatsOnly.exitCode st = None →
  NatsOnly.isPlaying st = false →
  head (NatsOnly.playQueue st) = Some f →
  f ∉ NatsOnly.localFiles st →
  ∃ st', NatsOnly.run st (repeat NatsOnly.Tick n) = Some st'
         ∧ NatsOnly.scps st' = NatsOnly.scps st ++ repeat f n.
Proof.
  induction n as [|n IH]; intros st f Hlive Hnp Hhd Habs.
  - exists st. by rewrite app_nil_r.
  - destruct (IH (NatsOnly.spawn_scp f st) f) as (st' & Hrun & Hscps); try done.
    exists st'. split.
    + change (repeat NatsOnly.Tick (S n))
        with (NatsOnly.Tick :: repeat NatsOnly.Tick n).
      simpl. unfold NatsOnly.step. rewrite Hlive.
      by rewrite (nats_tick_fetches_absent_head st f).
    + rewrite Hscps. simpl. by rewrite <- app_assoc.
Qed.

Lemma poll_sync_ticks_pile_up n : ∀ st,
  Poll.exitCode st = None →
  Poll.started st = true →
  ∃ st', Poll.run st (repeat Poll.SyncTick n) = Some st'
         ∧ Poll.rsyncs st' = (Poll.rsyncs st + n)%nat.
Proof.
  induction n as [|n IH]; intros st Hlive Hs.
  - exists st. split; [done|lia].
  - destruct (IH (Poll.spawn_rsync st)) as (st' & Hrun & Hn); try done.
    exists st'. split.
    + change (repeat Poll.SyncTick (S n))
        with (Poll.SyncTick :: repeat Poll.SyncTick n).
      simpl. unfold Poll.step. by rewrite Hlive, Hs.
    + rewrite Hn. simpl. lia.
Qed.

(** C4, as the code has it.  In sync_and_play_nats.js and in
    sync_and_play.js at most one aplay runs at any moment, it runs exactly
    while [isPlaying] is set, and no step starts a playback while one is
    outstanding.  Transfers are not serialized in these two scripts.  In
    sync_and_play_nats.js every accepted notification for an absent file
    starts its own scp at once, whatever transfers are running, and every
    tick that finds nothing playing and the head of the queue absent starts
    another scp for it and leaves the queue alone, so that [n] such ticks
    after the notification leave [n + 1] scp children running for one file.
    In sync_and_play.js every tick of the sync interval starts an rsync
    whether or not the previous one has ended, so that [n] such ticks leave
    [n] rsync children running. *)
Theorem one_playback_at_a_time :
  (∀ dir es st,
     NatsOnly.run (NatsOnly.init dir) es = Some st →
     (length (NatsOnly.aplays st) ≤ 1)%nat
     ∧ (NatsOnly.aplays st ≠ [] ↔ NatsOnly.isPlaying st = true)
     ∧ ∀ e st', NatsOnly.aplays st ≠ [] → NatsOnly.step st e = Some st' →
                plays (NatsOnly.history st') = plays (NatsOnly.history st))
  ∧ (∀ dir es st,
       Poll.run (Poll.init dir) es = Some st →
       (length (Poll.aplays st) ≤ 1)%nat
       ∧ (Poll.aplays st ≠ [] ↔ Poll.isPlaying st = true)
       ∧ ∀ e st', Poll.aplays st ≠ [] → Poll.step st e = Some st' →
                  plays (Poll.history st') = plays (Poll.history st))
  ∧ (∀ st p f,
       wav_filename p = Normal (Some f) →
       f ∉ NatsOnly.playedFiles st → f ∉ NatsOnly.playQueue st →
       f ∉ NatsOnly.localFiles st →
       NatsOnly.scps (NatsOnly.onMessage p st) = NatsOnly.scps st ++ [f])
  ∧ (∀ st f,
       NatsOnly.isPlaying st = false →
       head (NatsOnly.playQueue st) = Some f →
       f ∉ NatsOnly.localFiles st →
       NatsOnly.scps (NatsOnly.processQueue st) = NatsOnly.scps st ++ [f]
       ∧ NatsOnly.playQueue (NatsOnly.processQueue st) = NatsOnly.playQueue st)
  ∧ (∀ dir f n,
       endsWith f ".wav" = true → f ∉ dir →
       ∃ st, NatsOnly.run (NatsOnly.init dir)
               (NatsOnly.arrival f :: repeat NatsOnly.Tick n) = Some st
             ∧ NatsOnly.scps st = repeat f (S n))
  ∧ (∀ st,
       Poll.exitCode st = None → Poll.started st = true →
       ∃ st', Poll.step st Poll.SyncTick = Some st'
              ∧ Poll.rsyncs st' = S (Poll.rsyncs st))
  ∧ (∀ dir n,
       ∃ st, Poll.run (Poll.init dir)
               (Poll.RsyncDone (Exit 0 "") :: repeat Poll.SyncTick n) = Some st
             ∧ Poll.rsyncs st = n).
Proof.
  split; [|split; [|split; [|split; [|split; [|split]]]]].
  - intros dir es st Hrun.
    destruct (nats_queue_inv_reachable _ _ _ Hrun) as [_ Hp].
    destruct (NatsOnly.isPlaying st) eqn:Hpl.
    + destruct Hp as [f Hf]. rewrite Hf. repeat split; try done.
      intros e st' _ Hstep.
      destruct (nats_step_plays _ _ _ Hstep) as [?|[Hnp _]]; [done|congruence].
    + rewrite Hp. repeat split; try done. simpl. lia.
  - intros dir es st Hrun.
    pose proof (poll_playing_inv_reachable _ _ _ Hrun) as Hp.
    destruct (Poll.isPlaying st) eqn:Hpl.
    + destruct Hp as [f Hf]. rewrite Hf. repeat split; try done.
      intros e st' _ Hstep.
      destruct (poll_step_plays _ _ _ Hstep) as [?|[Hnp _]]; [done|congruence].
    + rewrite Hp. repeat split; try done. simpl. lia.
  - intros st p f Hf Hnp Hnq Habs. unfold NatsOnly.onMessage. rewrite Hf.
    rewrite !bool_decide_eq_false_2 by done.
    destruct (nats_disarm_fields (NatsOnly.push f st))
      as (_ & _ & _ & El & _ & Es & _).
    unfold NatsOnly.existsSync. rewrite El. simpl.
    rewrite bool_decide_eq_false_2 by done. simpl. by rewrite Es.
  - intros st f Hnp Hhd Habs.
    by rewrite (nats_tick_fetches_absent_head st f).
  - intros dir f n Hwav Habs.
    assert (NatsOnly.step (NatsOnly.init dir) (NatsOnly.arrival f)
            = Some (NatsOnly.spawn_scp f (NatsOnly.push f (NatsOnly.init dir))))
      as Hfirst.
    { unfold NatsOnly.step, NatsOnly.arrival, NatsOnly.onMessage. simpl.
      rewrite Hwav. simpl.
      rewrite !bool_decide_eq_false_2 by set_solver.
      unfold NatsOnly.existsSync. simpl.
      by rewrite !bool_decide_eq_false_2 by set_solver. }
    destruct (nats_ticks_pile_up n
                (NatsOnly.spawn_scp f (NatsOnly.push f (NatsOnly.init dir))) f)
      as (st & Hrun & Hscps); try done.
    exists st. split; [|done].
    change (NatsOnly.run (NatsOnly.init dir)
              (NatsOnly.arrival f :: repeat NatsOnly.Tick n))
      with (match NatsOnly.step (NatsOnly.init dir) (NatsOnly.arrival f) with
            | Some st' => NatsOnly.run st' (repeat NatsOnly.Tick n)
            | None => None
            end).
    by rewrite Hfirst.
  - intros st Hlive Hs. exists (Poll.spawn_rsync st). split; [|done].
    unfold Poll.step. by rewrite Hlive, Hs.
  - intros dir n.
    assert (Poll.step (Poll.init dir) (Poll.RsyncDone (Exit 0 ""))
            = Some (Poll.initial_sync Resolved (Poll.init dir))) as Hfirst by done.
    destruct (poll_sync_ticks_pile_up n (Poll.initial_sync Resolved (Poll.init dir)))
      as (st & Hrun & Hn); try done.
    exists st. split; [|done].
    change (Poll.run (Poll.init dir)
              (Poll.RsyncDone (Exit 0 "") :: repeat Poll.SyncTick n))
      with (match Poll.step (Poll.init dir) (Poll.RsyncDone (Exit 0 "")) with
            | Some st' => Poll.run st' (repeat Poll.SyncTick n)
            | None => None
            end).
    by rewrite Hfirst.
Qed.

Lemma one_playback_at_a_time_witness :
  ∃ st, NatsOnly.run (NatsOnly.init ∅) nats_scenario_B = Some st
        ∧ NatsOnly.aplays st = ["seg_001.wav"]
        ∧ (length (NatsOnly.aplays st) ≤ 1)%nat
        ∧ plays (NatsOnly.history (NatsOnly.processQueue st))
          = plays (NatsOnly.history st).
Proof.
  destruct (NatsOnly.run (NatsOnly.init ∅) nats_scenario_B) as [st|] eqn:Hrun.
  - assert (NatsOnly.aplays st = ["seg_001.wav"]) as Ha.
    { vm_compute in Hrun. injection Hrun as <-. reflexivity. }
    assert (NatsOnly.step st NatsOnly.Tick = Some (NatsOnly.processQueue st)) as Hs.
    { vm_compute in Hrun. injection Hrun as <-. reflexivity. }
    destruct (proj1 one_playback_at_a_time ∅ nats_scenario_B st Hrun)
      as (Hone & _ & Hnone).
    exists st. repeat split; try assumption.
    apply (Hnone NatsOnly.Tick); [|exact Hs].
    rewrite Ha. discriminate.
  - vm_compute in Hrun. discriminate Hrun.
Defined.

(** C4 as stated fails on the transfers: after two notifications for
    absent files sync_and_play_nats.js has two scp children running, and
    two sync ticks of sync_and_play.js start two rsyncs. *)
Lemma two_transfers_in_flight :
  (∃ st, NatsOnly.run (NatsOnly.init ∅)
           [NatsOnly.arrival "seg_001.wav"; NatsOnly.arrival "seg_002.wav"]
         = Some st
         ∧ NatsOnly.scps st = ["seg_001.wav"; "seg_002.wav"])
  ∧ (∃ st, Poll.run (Poll.init (Some ∅))
             [Poll.RsyncDone (Exit 0 ""); Poll.SyncTick; Poll.SyncTick]
           = Some st
           ∧ Poll.rsyncs st = 2%nat).
Proof. split; (eexists; split; [by vm_compute|by vm_compute]). Qed.

(** In the serialized script [processQueue] waits for at most one aplay
    or one [syncFile], never for both. *)
Lemma serial_one_operation_at_a_time dir es st :
  NatsSerial.run (NatsSerial.init dir) es = Some st →
  (length (NatsSerial.aplays st) + length (NatsSerial.syncs st) ≤ 1)%nat.
Proof.
  intros Hrun. destruct (serial_inv_reachable _ _ _ Hrun) as (_ & Hp & Hs & Hx).
  destruct (NatsSerial.isPlaying st).
  - rewrite Hx in Hs by done. destruct Hp as [f ->]. rewrite Hs. simpl. lia.
  - rewrite Hp. destruct (NatsSerial.isSyncing st).
    + destruct Hs as (f & -> & _). simpl. lia.
    + rewrite Hs. simpl. lia.
Qed.

(** The serialized script plays in push order as well. *)
Lemma serial_playback_fifo dir es st :
  NatsSerial.run (NatsSerial.init dir) es = Some st →
  plays (NatsSerial.history st) ++ NatsSerial.playQueue st
  = pushes (NatsSerial.history st).
Proof. intros Hrun. by destruct (serial_inv_reachable _ _ _ Hrun). Qed.



End PlaybackFacts.

Section QueueFacts.

(** C10. In sync_and_play_nats.js and in the serialized script, a step
    changes [playQueue] only by a push at the tail or by removing the head
    of a non-empty queue whose file is present in LOCAL_DIR at that moment
    (the file then goes to aplay); in particular the end of a transfer,
    failed or not, leaves the queue as it is. *)
Theorem queue_head_removed_only_when_present :
  (∀ st e st',
     NatsOnly.step st e = Some st' →
     nats_queue_step st st'
     ∧ ∀ f c, e = NatsOnly.ScpDone f c →
              NatsOnly.playQueue st' = NatsOnly.playQueue st)
  ∧ (∀ st e st',
       NatsSerial.step st e = Some st' →
       serial_queue_step st st'
       ∧ ∀ f attempts, e = NatsSerial.SyncDone f attempts →
                       NatsSerial.playQueue st' = NatsSerial.playQueue st).
Proof.
  split; intros st e st' Hstep.
  - unfold NatsOnly.step in Hstep. destruct (NatsOnly.exitCode st); [done|].
    unfold nats_queue_step.
    destruct e as [p| |f c|f c|h|dir]; simplify_eq/=.
    + split; [|done].
      destruct (nats_onMessage_cases p st) as [->|(f & _ & _ & _ & [-> | ->])]; auto;
        destruct (nats_disarm_fields (NatsOnly.push f st)) as (_ & Hq & _);
        right; left; exists f; simpl; by rewrite Hq.
    + split; [|done].
      destruct (nats_processQueue_cases st)
        as [(-> & _)|[(f & -> & Hhd & Hex & _)|[(f & -> & _)| ->]]]; auto.
      right. right. exists f. simpl. apply head_cons_tail in Hhd. auto.
    + case_bool_decide; simplify_eq/=. auto.
    + case_bool_decide; simplify_eq/=. auto.
    + case_bool_decide; simplify_eq/=. auto.
    + auto.
  - unfold NatsSerial.step in Hstep. destruct (NatsSerial.exitCode st); [done|].
    unfold serial_queue_step.
    assert (∀ st0, NatsSerial.playQueue st0 = NatsSerial.playQueue st →
              NatsSerial.localFiles st0 = NatsSerial.localFiles st →
              NatsSerial.history st0 = NatsSerial.history st →
              serial_queue_step st (NatsSerial.processQueue st0)) as Hpq.
    { intros st0 E1 E2 E3. unfold serial_queue_step.
      destruct (serial_processQueue_cases st0)
        as [(-> & _)|[(f & -> & Hhd & Hex & _)|[(f & -> & _)| ->]]]; simpl;
        rewrite ?E1, ?E2, ?E3 in *; auto.
      right. right. exists f. apply head_cons_tail in Hhd. auto. }
    destruct e as [p| | |f c|f attempts|f k attempts|h|dir]; simplify_eq/=.
    + split; [|done].
      destruct (serial_onMessage_cases p st) as [->|(f & _ & _ & _ & [-> | ->])]; auto;
        destruct (serial_disarm_fields (NatsSerial.push f st)) as (_ & Hq & _);
        right; left; exists f; simpl; by rewrite Hq.
    + split; [|done]. by apply Hpq.
    + case_bool_decide; simplify_eq/=. split; [|done]. by apply Hpq.
    + case_bool_decide; simplify_eq/=. split; [|done].
      destruct (serial_played_cases f (playFile c) st) as [->|(g & -> & _)]; auto.
    + case_bool_decide; [|done].
      destruct (NatsSerial.syncFile attempts 0 (NatsSerial.lastSyncTime st))
        as [[[r t] effs]|]; simplify_eq/=. auto.
    + case_bool_decide; [|done].
      destruct (NatsSerial.syncFile attempts k (NatsSerial.lastSyncTime st))
        as [[[r t] effs]|]; simplify_eq/=. auto.
    + case_bool_decide; simplify_eq/=. auto.
    + auto.
Qed.

Lemma queue_head_removed_only_when_present_witness :
  nats_queue_step
    (NatsOnly.push "seg_001.wav" (NatsOnly.init {["seg_001.wav"]}))
    (NatsOnly.processQueue
       (NatsOnly.push "seg_001.wav" (NatsOnly.init {["seg_001.wav"]}))).
Proof.
  apply (proj1 queue_head_removed_only_when_present _ NatsOnly.Tick).
  reflexivity.
Defined.

(** C3, as the code has it.  In the serialized script, when the transfer of
    the head fails with a connection error on the first attempt and on all
    [MAX_SYNC_RETRIES] retries, [syncFile] rejects; the failure is only
    printed: the queue is unchanged with the file still at its head,
    nothing is added to [playedFiles], [isSyncing] is cleared, and the next
    [processQueue] calls [syncFile] for the same file again.  In
    sync_and_play_nats.js a failed scp likewise changes nothing, and the
    next tick fetches an absent head again. *)
Theorem failed_fetch_stays_at_head :
  (∀ dir es st f attempts,
     NatsSerial.run (NatsSerial.init dir) es = Some st →
     NatsSerial.exitCode st = None →
     f ∈ NatsSerial.syncs st →
     Forall NatsSerial.transient attempts →
     length attempts = S NatsSerial.MAX_SYNC_RETRIES →
     ∃ st' effs,
       NatsSerial.syncFile attempts 0 (NatsSerial.lastSyncTime st)
         = Some (Rejected, NatsSerial.lastSyncTime st, effs)
       ∧ length (NatsSerial.backoffs effs) = NatsSerial.MAX_SYNC_RETRIES
       ∧ NatsSerial.step st (NatsSerial.SyncDone f attempts) = Some st'
       ∧ NatsSerial.playQueue st' = NatsSerial.playQueue st
       ∧ head (NatsSerial.playQueue st') = Some f
       ∧ NatsSerial.playedFiles st' = NatsSerial.playedFiles st
       ∧ NatsSerial.localFiles st' = NatsSerial.localFiles st
       ∧ NatsSerial.isSyncing st' = false
       ∧ (f ∉ NatsSerial.localFiles st →
          NatsSerial.processQueue st' = NatsSerial.start_sync f st'))
  ∧ (∀ st f c,
       NatsOnly.exitCode st = None →
       f ∈ NatsOnly.scps st →
       NatsOnly.syncFile c = Rejected →
       ∃ st',
         NatsOnly.step st (NatsOnly.ScpDone f c) = Some st'
         ∧ NatsOnly.playQueue st' = NatsOnly.playQueue st
         ∧ NatsOnly.playedFiles st' = NatsOnly.playedFiles st
         ∧ NatsOnly.localFiles st' = NatsOnly.localFiles st
         ∧ ∀ g, head (NatsOnly.playQueue st) = Some g →
                g ∉ NatsOnly.localFiles st →
                NatsOnly.isPlaying st = false →
                NatsOnly.processQueue st' = NatsOnly.spawn_scp g st').
Proof.
  split.
  - intros dir es st f attempts Hrun Hlive Hin Hall Hlen.
    destruct (serial_inv_reachable _ _ _ Hrun) as (_ & _ & Hs & Hx).
    assert (NatsSerial.isSyncing st = true) as Hsy.
    { destruct (NatsSerial.isSyncing st); [done|]. rewrite Hs in Hin.
      by apply elem_of_nil in Hin. }
    rewrite Hsy in Hs. destruct Hs as (g & Hg & Hhd). rewrite Hg in Hin.
    apply list_elem_of_singleton in Hin as ->.
    assert (NatsSerial.isPlaying st = false) as Hnp.
    { destruct (NatsSerial.isPlaying st); [|done]. by rewrite Hx in Hsy. }
    destruct (syncFile_with_exhausted NatsSerial.MAX_SYNC_RETRIES
                NatsSerial.RETRY_DELAY attempts [] 0 (NatsSerial.lastSyncTime st)
                Hall ltac:(lia) Hlen) as (effs & Hsync & Hb).
    rewrite app_nil_r in Hsync. fold NatsSerial.syncFile in Hsync.
    eexists _, effs. split; [exact Hsync|]. split; [by rewrite Hb, Nat.sub_0_r|].
    split.
    { unfold NatsSerial.step. rewrite Hlive, Hg.
      rewrite bool_decide_eq_true_2 by set_solver. by rewrite Hsync. }
    repeat split; try done.
    intros Habs. unfold NatsSerial.processQueue, NatsSerial.existsSync. simpl.
    rewrite Hnp, Hhd. apply head_cons_tail in Hhd. rewrite Hhd. simpl.
    by rewrite bool_decide_eq_false_2.
  - intros st f c Hlive Hin Hrej. eexists. split.
    { unfold NatsOnly.step. by rewrite Hlive, bool_decide_eq_true_2. }
    unfold NatsOnly.synced. rewrite Hrej. repeat split; try done.
    intros g Hhd Habs Hnp.
    unfold NatsOnly.processQueue, NatsOnly.existsSync. simpl.
    rewrite Hnp, Hhd. apply head_cons_tail in Hhd. rewrite Hhd. simpl.
    by rewrite bool_decide_eq_false_2.
Qed.

Lemma failed_fetch_stays_at_head_witness :
  ∃ st st',
    NatsSerial.run (NatsSerial.init ∅)
      [NatsSerial.arrival "seg_001.wav"; NatsSerial.arrival "seg_002.wav";
       NatsSerial.Immediate] = Some st
    ∧ NatsSerial.step st (NatsSerial.SyncDone "seg_001.wav" serial_all_refused)
      = Some st'
    ∧ NatsSerial.playQueue st' = NatsSerial.playQueue st
    ∧ head (NatsSerial.playQueue st') = Some "seg_001.wav"
    ∧ NatsSerial.isSyncing st' = false.
Proof.
  destruct (NatsSerial.run (NatsSerial.init ∅)
              [NatsSerial.arrival "seg_001.wav"; NatsSerial.arrival "seg_002.wav";
               NatsSerial.Immediate]) as [st|] eqn:Hrun.
  - assert (NatsSerial.exitCode st = None) as Hlive.
    { vm_compute in Hrun. injection Hrun as <-. reflexivity. }
    assert ("seg_001.wav" ∈ NatsSerial.syncs st) as Hin.
    { vm_compute in Hrun. injection Hrun as <-. simpl. left. }
    assert (Forall NatsSerial.transient serial_all_refused) as Hall.
    { repeat constructor; try discriminate; reflexivity. }
    destruct (proj1 failed_fetch_stays_at_head _ _ st "seg_001.wav"
                serial_all_refused Hrun Hlive Hin Hall eq_refl)
      as (st' & effs & _ & _ & Hstep & Hq & Hhd & _ & _ & Hs & _).
    exists st, st'. repeat split; assumption.
  - vm_compute in Hrun. discriminate Hrun.
Defined.

(** C3 as stated fails: in scenario D the transfer of seg_001.wav is
    rejected after three retries, and seg_001.wav is still at the head of
    the queue, in front of seg_002.wav; nothing was played or marked. *)
Lemma exhausted_fetch_not_skipped :
  ∃ st effs,
    NatsSerial.run (NatsSerial.init ∅) serial_scenario_D = Some st
    ∧ NatsSerial.syncFile serial_all_refused 0 0 = Some (Rejected, 0, effs)
    ∧ NatsSerial.backoffs effs = [2000; 4000; 8000]
    ∧ NatsSerial.playQueue st = ["seg_001.wav"; "seg_002.wav"]
    ∧ NatsSerial.playedFiles st = ∅
    ∧ fetches (NatsSerial.history (NatsSerial.processQueue st))
      = ["seg_001.wav"; "seg_001.wav"].
Proof.
  eexists _, _. split; [by vm_compute|]. split; [by vm_compute|].
  by vm_compute.
Qed.

End QueueFacts.

Section TransferFacts.

(** What is left of one [syncFile] call whose attempts all fail with a
    connection error: the promise rejects after [MAX_SYNC_RETRIES] delays on
    the schedule and [MAX_SYNC_RETRIES + 1] scp runs, and no retry is left
    behind. *)
Lemma serial_exhausted_call attempts last :
  Forall NatsSerial.transient attempts →
  length attempts = S NatsSerial.MAX_SYNC_RETRIES →
  ∃ effs,
    NatsSerial.syncFile attempts 0 last = Some (Rejected, last, effs)
    ∧ NatsSerial.backoffs effs
      = map (λ i, NatsSerial.RETRY_DELAY * 2 ^ Z.of_nat i)
            (seq 0 NatsSerial.MAX_SYNC_RETRIES)
    ∧ NatsSerial.scp_runs effs = S NatsSerial.MAX_SYNC_RETRIES.
Proof.
  intros Hall Hlen.
  destruct (syncFile_with_exhausted NatsSerial.MAX_SYNC_RETRIES
              NatsSerial.RETRY_DELAY attempts [] 0 last Hall ltac:(lia) Hlen)
    as (effs & Hsync & Hb).
  rewrite app_nil_r in Hsync. rewrite Nat.sub_0_r in Hb.
  destruct (syncFile_with_shape _ _ _ _ _ _ _ _ Hsync) as (Hd & Hn & _).
  exists effs. split; [exact Hsync|]. split; [by rewrite Hd, Hb|].
  by rewrite Hn, Hb.
Qed.

(** The serialized script after the awaited [syncFile] of the head was
    rejected: the next tick calls [syncFile] for the same name again. *)
Lemma serial_rejected_fetch_restarts dir es st f attempts effs :
  NatsSerial.run (NatsSerial.init dir) es = Some st →
  NatsSerial.exitCode st = None →
  f ∈ NatsSerial.syncs st →
  f ∉ NatsSerial.localFiles st →
  NatsSerial.syncFile attempts 0 (NatsSerial.lastSyncTime st)
    = Some (Rejected, NatsSerial.lastSyncTime st, effs) →
  ∃ st1 st2,
    NatsSerial.step st (NatsSerial.SyncDone f attempts) = Some st1
    ∧ NatsSerial.step st1 NatsSerial.Tick = Some st2
    ∧ fetches (NatsSerial.history st2) = fetches (NatsSerial.history st) ++ [f]
    ∧ NatsSerial.playQueue st2 = NatsSerial.playQueue st
    ∧ NatsSerial.syncs st2 = [f]
    ∧ NatsSerial.exitCode st2 = None
    ∧ NatsSerial.lastSyncTime st2 = NatsSerial.lastSyncTime st.
Proof.
  intros Hrun Hlive Hin Habs Hsync.
  destruct (serial_inv_reachable _ _ _ Hrun) as (_ & _ & Hs & Hx).
  assert (NatsSerial.isSyncing st = true) as Hsy.
  { destruct (NatsSerial.isSyncing st); [done|]. rewrite Hs in Hin.
    by apply elem_of_nil in Hin. }
  rewrite Hsy in Hs. destruct Hs as (g & Hg & Hhd). rewrite Hg in Hin.
  apply list_elem_of_singleton in Hin as ->.
  assert (NatsSerial.isPlaying st = false) as Hnp.
  { destruct (NatsSerial.isPlaying st); [|done]. by rewrite Hx in Hsy. }
  set (st1 := NatsSerial.orphan g effs
                (NatsSerial.synced g Rejected (NatsSerial.lastSyncTime st) st)).
  assert (NatsSerial.processQueue st1 = NatsSerial.start_sync g st1) as Hpq.
  { unfold NatsSerial.processQueue, NatsSerial.existsSync. simpl.
    rewrite Hnp, Hhd. apply head_cons_tail in Hhd. rewrite Hhd. simpl.
    by rewrite bool_decide_eq_false_2. }
  exists st1, (NatsSerial.start_sync g st1). split.
  { unfold NatsSerial.step. rewrite Hlive, Hg.
    rewrite bool_decide_eq_true_2 by set_solver. by rewrite Hsync. }
  split.
  { unfold NatsSerial.step. simpl. by rewrite Hlive, Hpq. }
  simpl. rewrite fetches_snoc, Hg, remove1_singleton by set_solver.
  repeat split; done.
Qed.

(** C7, as the code has it.  Within one call of [syncFile] of the
    serialized script, for any retry limit and base delay: after [n]
    connection failures within the limit and a success, the promise resolves
    having waited exactly [base * 2^0], ..., [base * 2^(n-1)] between the
    [n + 1] scp runs; however the attempts end, the delays before the
    promise settles follow that schedule and there are at most [max_retries]
    of them; and the promise settles once more than [max_retries] attempts
    have been answered.  The script's limit is 3, and in scenario C (two
    connection failures, then a success) the delays add up to
    [RETRY_DELAY * 2^0 + RETRY_DELAY * 2^1], after which the next tick plays
    the file.  The limit holds per call, not per file: when a call has used
    all its retries the promise rejects, the next tick calls [syncFile] for
    the same file again, and that call counts its retries from 0, so it can
    run scp [MAX_SYNC_RETRIES + 1] more times on the same schedule. *)
Theorem syncFile_backoff_schedule :
  (∀ max_retries retry_delay fails a rest last stderr,
     Forall NatsSerial.transient fails →
     (length fails ≤ max_retries)%nat →
     NatsSerial.outcome a = Exit 0 stderr →
     ∃ effs,
       NatsSerial.syncFile_with max_retries retry_delay (fails ++ a :: rest) 0 last
         = Some (Resolved, NatsSerial.closed_at a, effs)
       ∧ NatsSerial.backoffs effs
         = map (λ i, retry_delay * 2 ^ Z.of_nat i) (seq 0 (length fails))
       ∧ NatsSerial.scp_runs effs = S (length fails))
  ∧ (∀ max_retries retry_delay attempts last r t effs,
       NatsSerial.syncFile_with max_retries retry_delay attempts 0 last
         = Some (r, t, effs) →
       (length (NatsSerial.backoffs effs) ≤ max_retries)%nat
       ∧ NatsSerial.backoffs effs
         = map (λ i, retry_delay * 2 ^ Z.of_nat i)
               (seq 0 (length (NatsSerial.backoffs effs)))
       ∧ NatsSerial.scp_runs effs = S (length (NatsSerial.backoffs effs)))
  ∧ (∀ max_retries retry_delay attempts last,
       (max_retries < length attempts)%nat →
       is_Some (NatsSerial.syncFile_with max_retries retry_delay attempts 0 last))
  ∧ NatsSerial.MAX_SYNC_RETRIES = 3%nat
  ∧ (∀ a1 a2 a3 rest last stderr,
       NatsSerial.transient a1 → NatsSerial.transient a2 →
       NatsSerial.outcome a3 = Exit 0 stderr →
       ∃ effs,
         NatsSerial.syncFile (a1 :: a2 :: a3 :: rest) 0 last
           = Some (Resolved, NatsSerial.closed_at a3, effs)
         ∧ total (NatsSerial.backoffs effs)
           = NatsSerial.RETRY_DELAY * 2 ^ 0 + NatsSerial.RETRY_DELAY * 2 ^ 1)
  ∧ (∃ st, NatsSerial.run (NatsSerial.init ∅) serial_scenario_C = Some st
           ∧ fetches (NatsSerial.history st) = ["seg_003.wav"]
           ∧ plays (NatsSerial.history st) = ["seg_003.wav"])
  ∧ (∀ dir es st f attempts attempts',
       NatsSerial.run (NatsSerial.init dir) es = Some st →
       NatsSerial.exitCode st = None →
       f ∈ NatsSerial.syncs st →
       f ∉ NatsSerial.localFiles st →
       Forall NatsSerial.transient attempts →
       length attempts = S NatsSerial.MAX_SYNC_RETRIES →
       Forall NatsSerial.transient attempts' →
       length attempts' = S NatsSerial.MAX_SYNC_RETRIES →
       ∃ st1 st2 st3 effs effs',
         NatsSerial.syncFile attempts 0 (NatsSerial.lastSyncTime st)
           = Some (Rejected, NatsSerial.lastSyncTime st, effs)
         ∧ NatsSerial.scp_runs effs = S NatsSerial.MAX_SYNC_RETRIES
         ∧ NatsSerial.step st (NatsSerial.SyncDone f attempts) = Some st1
         ∧ NatsSerial.step st1 NatsSerial.Tick = Some st2
         ∧ fetches (NatsSerial.history st2)
           = fetches (NatsSerial.history st) ++ [f]
         ∧ NatsSerial.syncFile attempts' 0 (NatsSerial.lastSyncTime st2)
           = Some (Rejected, NatsSerial.lastSyncTime st2, effs')
         ∧ NatsSerial.backoffs effs'
           = map (λ i, NatsSerial.RETRY_DELAY * 2 ^ Z.of_nat i)
                 (seq 0 NatsSerial.MAX_SYNC_RETRIES)
         ∧ NatsSerial.scp_runs effs' = S NatsSerial.MAX_SYNC_RETRIES
         ∧ NatsSerial.step st2 (NatsSerial.SyncDone f attempts') = Some st3).
Proof.
  split; [|split; [|split; [|split; [|split; [|split]]]]].
  - intros max_retries retry_delay fails a rest last stderr Hall Hlen Hok.
    destruct (syncFile_with_retries max_retries retry_delay fails a rest 0 last
                stderr Hall Hlen Hok) as (effs & Hrun & Hd).
    exists effs. split; [done|]. split; [done|].
    destruct (syncFile_with_shape _ _ _ _ _ _ _ _ Hrun) as (_ & -> & _).
    by rewrite Hd, length_map, length_seq.
  - intros max_retries retry_delay attempts last r t effs Hrun.
    destruct (syncFile_with_shape _ _ _ _ _ _ _ _ Hrun) as (Hd & Hn & Hc).
    split; [|done]. destruct Hc as [->|Hc]; simpl in *; lia.
  - intros max_retries retry_delay attempts last Hlen.
    apply syncFile_with_settles; [|done].
    intros ->. simpl in Hlen. lia.
  - done.
  - intros a1 a2 a3 rest last stderr H1 H2 Hok.
    destruct (syncFile_with_retries NatsSerial.MAX_SYNC_RETRIES
                NatsSerial.RETRY_DELAY [a1; a2] a3 rest 0 last stderr)
      as (effs & Hrun & Hd); [by repeat constructor|simpl|done|].
    { unfold NatsSerial.MAX_SYNC_RETRIES. lia. }
    exists effs. split; [done|]. rewrite Hd. simpl. lia.
  - eexists. split; [by vm_compute|]. by vm_compute.
  - intros dir es st f attempts attempts' Hrun Hlive Hin Habs Hall Hlen Hall' Hlen'.
    destruct (serial_exhausted_call attempts (NatsSerial.lastSyncTime st) Hall Hlen)
      as (effs & Hsync & _ & Hn).
    destruct (serial_rejected_fetch_restarts _ _ _ _ _ _ Hrun Hlive Hin Habs Hsync)
      as (st1 & st2 & Hs1 & Hs2 & Hf & _ & Hsy & Hlive2 & Hlast).
    destruct (serial_exhausted_call attempts' (NatsSerial.lastSyncTime st2)
                Hall' Hlen') as (effs' & Hsync' & Hd' & Hn').
    eexists st1, st2, _, effs, effs'.
    split; [exact Hsync|]. split; [exact Hn|]. split; [exact Hs1|].
    split; [exact Hs2|]. split; [exact Hf|]. split; [exact Hsync'|].
    split; [exact Hd'|]. split; [exact Hn'|].
    unfold NatsSerial.step. rewrite Hlive2, Hsy.
    rewrite bool_decide_eq_true_2 by set_solver. by rewrite Hsync'.
Qed.

Lemma syncFile_backoff_schedule_witness :
  ∃ effs,
    NatsSerial.syncFile serial_third_time_lucky 0 0 = Some (Resolved, 7900, effs)
    ∧ NatsSerial.backoffs effs = [2000; 4000]
    ∧ NatsSerial.scp_runs effs = 3%nat.
Proof.
  destruct (proj1 syncFile_backoff_schedule
              NatsSerial.MAX_SYNC_RETRIES NatsSerial.RETRY_DELAY
              [NatsSerial.mkAttempt 1000 refused 1100;
               NatsSerial.mkAttempt 3100 refused 3200]
              (NatsSerial.mkAttempt 7200 (Exit 0 "") 7900) [] 0 "")
    as (effs & Hrun & Hd & Hn).
  - repeat constructor; try discriminate; reflexivity.
  - vm_compute. lia.
  - reflexivity.
  - exists effs. split; [exact Hrun|]. split; [exact Hd|exact Hn].
Defined.

(** C7 as stated fails: the limit is not per file.  The transfer of
    seg_001.wav fails with a connection error on every attempt of two
    successive [syncFile] calls; each call runs scp four times and waits
    2000, 4000 and 8000 ms, so the one file is retried six times and scp
    runs eight times for it, and it is still at the head of the queue. *)
Lemma retry_limit_is_per_call :
  ∃ st effs effs',
    NatsSerial.run (NatsSerial.init ∅) serial_two_calls = Some st
    ∧ fetches (NatsSerial.history st) = ["seg_001.wav"; "seg_001.wav"]
    ∧ NatsSerial.syncFile serial_all_refused 0 0 = Some (Rejected, 0, effs)
    ∧ NatsSerial.backoffs effs = [2000; 4000; 8000]
    ∧ NatsSerial.scp_runs effs = 4%nat
    ∧ NatsSerial.syncFile serial_all_refused_again 0 0 = Some (Rejected, 0, effs')
    ∧ NatsSerial.backoffs effs' = [2000; 4000; 8000]
    ∧ NatsSerial.scp_runs effs' = 4%nat
    ∧ (NatsSerial.MAX_SYNC_RETRIES
       < length (NatsSerial.backoffs effs ++ NatsSerial.backoffs effs'))%nat
    ∧ NatsSerial.playQueue st = ["seg_001.wav"]
    ∧ NatsSerial.lastSyncTime st = 0.
Proof.
  eexists _, _, _. split; [by vm_compute|]. split; [by vm_compute|].
  split; [by vm_compute|]. split; [by vm_compute|]. split; [by vm_compute|].
  split; [by vm_compute|]. split; [by vm_compute|]. split; [by vm_compute|].
  split; [vm_compute; lia|]. by vm_compute.
Qed.

Lemma poll_getWavFiles_listed st f :
  f ∈ Poll.getWavFiles st →
  ∃ dir, Poll.localDir st = Some dir ∧ f ∈ dir ∧ endsWith f ".wav" = true.
Proof.
  unfold Poll.getWavFiles. destruct (Poll.localDir st) as [dir|].
  - intros Hin. exists dir. split; [done|].
    rewrite merge_sort_Permutation in Hin.
    apply list_elem_of_filter in Hin as [Hwav Hin].
    by apply elem_of_elements in Hin.
  - intros Hin. by apply elem_of_nil in Hin.
Qed.

(** C8. In sync_and_play.js an rsync that ends with exit code 23 (partial
    transfer) or 24 (source vanished) resolves the [syncFiles] promise
    whatever it wrote on stderr.  When such a run ends, nothing is marked
    and nothing is respawned: the process keeps running (the first run
    starts the intervals, a later one just ends).  Whether a segment is
    played is decided when [processFiles] lists LOCAL_DIR: only a .wav
    file present there is handed to aplay. *)
Theorem poll_partial_transfer_soft_success code stderr :
  code = 23 ∨ code = 24 →
  Poll.syncFiles (Exit code stderr) = Resolved
  ∧ (∀ st st',
       Poll.step st (Poll.RsyncDone (Exit code stderr)) = Some st' →
       Poll.exitCode st' = None
       ∧ Poll.started st' = true
       ∧ Poll.rsyncs st' = pred (Poll.rsyncs st)
       ∧ Poll.playedFiles st' = Poll.playedFiles st
       ∧ Poll.isPlaying st' = Poll.isPlaying st
       ∧ Poll.idleTimer st' = Poll.idleTimer st
       ∧ Poll.timeouts st' = Poll.timeouts st
       ∧ Poll.aplays st' = Poll.aplays st
       ∧ Poll.localDir st' = Poll.localDir st
       ∧ Poll.history st' = Poll.history st)
  ∧ (∀ st e st' f,
       Poll.step st e = Some st' →
       plays (Poll.history st') = plays (Poll.history st) ++ [f] →
       ∃ dir, Poll.localDir st = Some dir ∧ f ∈ dir ∧ endsWith f ".wav" = true).
Proof.
  intros Hcode.
  assert (Poll.syncFiles (Exit code stderr) = Resolved) as Hres.
  { unfold Poll.syncFiles. rewrite bool_decide_eq_false_2 by lia.
    destruct (Poll.isConnectionError code stderr); [done|].
    destruct Hcode as [-> | ->]; done. }
  split; [done|]. split.
  - intros st st' Hstep. unfold Poll.step in Hstep.
    destruct (Poll.exitCode st) eqn:Hlive; [done|].
    case_bool_decide; [|done]. rewrite Hres in Hstep.
    destruct (Poll.started st) eqn:Hst; simplify_eq/=; done.
  - intros st e st' f Hstep Hplays.
    destruct (poll_step_plays _ _ _ Hstep) as [Heq|(_ & g & Hg & Hin & _)].
    + rewrite Heq in Hplays. rewrite <- (app_nil_r (plays (Poll.history st))) in Hplays at 1.
      by apply app_inv_head in Hplays.
    + rewrite Hg in Hplays. apply app_inv_head in Hplays. simplify_eq.
      by apply poll_getWavFiles_listed.
Qed.

Lemma poll_partial_transfer_soft_success_witness :
  Poll.syncFiles (Exit 23 "rsync error: some files could not be transferred")
    = Resolved.
Proof.
  apply (poll_partial_transfer_soft_success 23
           "rsync error: some files could not be transferred").
  left. reflexivity.
Defined.

End TransferFacts.

(** * Further properties of the code *)

(** ** Strings and sorted listings *)
Section ListingFacts.

Lemma string_app_cons c (a b : string) : String c a +:+ b = String c (a +:+ b).
Proof. reflexivity. Qed.

Lemma string_length_app (a b : string) :
  String.length (a +:+ b) = (String.length a + String.length b)%nat.
Proof.
  induction a as [|c a IH]; [done|].
  rewrite string_app_cons. simpl. by rewrite IH.
Qed.

Lemma substring_whole (s : string) : String.substring 0 (String.length s) s = s.
Proof. induction s as [|c s IH]; simpl; [done|by rewrite IH]. Qed.

Lemma substring_after_prefix (pre suf : string) :
  String.substring (String.length pre) (String.length suf) (pre +:+ suf) = suf.
Proof.
  induction pre as [|c pre IH]; [apply substring_whole|].
  rewrite string_app_cons. exact IH.
Qed.

Lemma substring_split (s : string) : ∀ k,
  (k ≤ String.length s)%nat →
  s = String.substring 0 k s +:+ String.substring k (String.length s - k) s.
Proof.
  induction s as [|c s IH]; intros k Hk; simpl in *.
  - by destruct k.
  - destruct k as [|k]; simpl.
    + by rewrite substring_whole.
    + rewrite string_app_cons. f_equal. apply IH. lia.
Qed.

(** [endsWith] is what it says: the string is some prefix followed by the
    suffix. *)
Lemma endsWith_spec (s suffix : string) :
  endsWith s suffix = true ↔ ∃ base, s = base +:+ suffix.
Proof.
  unfold endsWith. split.
  - intros [Hle%bool_decide_eq_true Heq%bool_decide_eq_true]%andb_prop.
    exists (String.substring 0 (String.length s - String.length suffix) s).
    rewrite <- Heq at 2.
    rewrite (substring_split s (String.length s - String.length suffix)) at 1 by lia.
    do 2 f_equal. lia.
  - intros [base ->]. rewrite string_length_app.
    apply andb_true_intro. split; apply bool_decide_eq_true_2; [lia|].
    replace (String.length base + String.length suffix - String.length suffix)%nat
      with (String.length base) by lia.
    apply substring_after_prefix.
Qed.

Lemma ascii_compare_trans_le (a b c : Ascii.ascii) :
  Ascii.compare a b ≠ Gt → Ascii.compare b c ≠ Gt → Ascii.compare a c ≠ Gt.
Proof.
  unfold Ascii.compare. rewrite !N.compare_le_iff. intros. etrans; eauto.
Qed.

Lemma string_compare_trans (s1 : string) : ∀ s2 s3,
  String.compare s1 s2 ≠ Gt → String.compare s2 s3 ≠ Gt →
  String.compare s1 s3 ≠ Gt.
Proof.
  induction s1 as [|c1 s1 IH]; intros [|c2 s2] [|c3 s3]; simpl; try done.
  unfold Ascii.compare.
  destruct (N.compare_spec (Ascii.N_of_ascii c1) (Ascii.N_of_ascii c2)) as [E12|L12|G12];
    destruct (N.compare_spec (Ascii.N_of_ascii c2) (Ascii.N_of_ascii c3)) as [E23|L23|G23];
    try done.
  - rewrite E12, E23, N.compare_refl. apply IH.
  - rewrite E12. intros _ _. by rewrite (proj2 (N.compare_lt_iff _ _) L23).
  - rewrite <- E23. intros _ _. by rewrite (proj2 (N.compare_lt_iff _ _) L12).
  - intros _ _. rewrite (proj2 (N.compare_lt_iff _ _)); [done|]. by etrans.
Qed.

Lemma string_leb_le (x y : string) :
  String.leb x y = true ↔ String.compare x y ≠ Gt.
Proof. unfold String.leb. by destruct (String.compare x y). Qed.

Lemma string_leb_trans (x y z : string) :
  String.leb x y = true → String.leb y z = true → String.leb x z = true.
Proof. rewrite !string_leb_le. apply string_compare_trans. Qed.

#[local] Instance poll_string_le_trans : Transitive Poll.string_le.
Proof. intros x y z. apply string_leb_trans. Qed.

#[local] Instance poll_string_le_total : Total Poll.string_le.
Proof. intros x y. apply String.leb_total. Qed.

#[local] Instance hybrid_string_le_trans : Transitive Hybrid.string_le.
Proof. intros x y z. apply string_leb_trans. Qed.

#[local] Instance hybrid_string_le_total : Total Hybrid.string_le.
Proof. intros x y. apply String.leb_total. Qed.

(** The sorted .wav names of a directory. *)
Lemma sorted_wav_names (R : relation string) `{!RelDecision R}
    `{!Transitive R} `{!Total R} (dir : gset string) :
  let l := merge_sort R (filter (λ file, endsWith file ".wav" = true) (elements dir)) in
  StronglySorted R l ∧ NoDup l
  ∧ ∀ f, f ∈ l ↔ f ∈ dir ∧ ∃ base, f = base +:+ ".wav".
Proof.
  simpl. split; [by apply StronglySorted_merge_sort|]. split.
  - rewrite merge_sort_Permutation. apply NoDup_filter, NoDup_elements.
  - intros f. rewrite merge_sort_Permutation, list_elem_of_filter.
    rewrite elem_of_elements, endsWith_spec. tauto.
Qed.

Lemma getWavFiles_sorted_wav_names_aux st :
  StronglySorted Poll.string_le (Poll.getWavFiles st).
Proof.
  unfold Poll.getWavFiles. destruct (Poll.localDir st) as [dir|]; [|constructor].
  by destruct (@sorted_wav_names Poll.string_le Poll.string_le_dec _ _ dir).
Qed.

Lemma getWavFiles_sorted_hybrid st :
  StronglySorted Hybrid.string_le (Hybrid.getWavFiles st).
Proof.
  unfold Hybrid.getWavFiles. destruct (Hybrid.localDir st) as [dir|]; [|constructor].
  by destruct (@sorted_wav_names Hybrid.string_le Hybrid.string_le_dec _ _ dir).
Qed.

(** X1. [getWavFiles] of sync_and_play.js and of unnamed/part_000 returns the
    names of LOCAL_DIR that end in ".wav", and only those, each once; it
    returns the empty list when the directory cannot be read.  When these
    names are ASCII they come in ascending order of their characters (every
    name is at most every later one), which is the order of [sort()] on such
    names. *)
Theorem getWavFiles_sorted_wav_names :
  (∀ st,
     NoDup (Poll.getWavFiles st)
     ∧ (∀ f, f ∈ Poll.getWavFiles st
             ↔ ∃ dir base, Poll.localDir st = Some dir ∧ f ∈ dir
                           ∧ f = base +:+ ".wav")
     ∧ (Poll.localDir st = None → Poll.getWavFiles st = [])
     ∧ (Forall ascii_name (Poll.getWavFiles st) →
        StronglySorted Poll.string_le (Poll.getWavFiles st)))
  ∧ (∀ st,
       NoDup (Hybrid.getWavFiles st)
       ∧ (∀ f, f ∈ Hybrid.getWavFiles st
               ↔ ∃ dir base, Hybrid.localDir st = Some dir ∧ f ∈ dir
                             ∧ f = base +:+ ".wav")
       ∧ (Hybrid.localDir st = None → Hybrid.getWavFiles st = [])
       ∧ (Forall ascii_name (Hybrid.getWavFiles st) →
          StronglySorted Hybrid.string_le (Hybrid.getWavFiles st))).
Proof.
  split; intros st.
  - split; [|split; [|split]]; [| | |intros _; apply getWavFiles_sorted_wav_names_aux].
    all: unfold Poll.getWavFiles; destruct (Poll.localDir st) as [dir|].
    all: try destruct (@sorted_wav_names Poll.string_le Poll.string_le_dec _ _ dir)
           as (Hs & Hn & Hin).
    + done.
    + constructor.
    + intros f. split.
      * intros Hf. apply Hin in Hf as [? [base ?]]. by exists dir, base.
      * intros (dir' & base & ? & ? & ?). simplify_eq. apply Hin. eauto.
    + intros f. split.
      * intros Hf. by apply elem_of_nil in Hf.
      * by intros (? & ? & ? & _).
    + done.
    + done.
  - split; [|split; [|split]]; [| | |intros _; apply getWavFiles_sorted_hybrid].
    all: unfold Hybrid.getWavFiles; destruct (Hybrid.localDir st) as [dir|].
    all: try destruct (@sorted_wav_names Hybrid.string_le Hybrid.string_le_dec _ _ dir)
           as (Hs & Hn & Hin).
    + done.
    + constructor.
    + intros f. split.
      * intros Hf. apply Hin in Hf as [? [base ?]]. by exists dir, base.
      * intros (dir' & base & ? & ? & ?). simplify_eq. apply Hin. eauto.
    + intros f. split.
      * intros Hf. by apply elem_of_nil in Hf.
      * by intros (? & ? & ? & _).
    + done.
    + done.
Qed.

Lemma getWavFiles_sorted_wav_names_witness :
  Forall ascii_name
    (Poll.getWavFiles
       (Poll.init (Some {["seg_002.wav"; "seg_001.wav"; "notes.txt"]})))
  ∧ StronglySorted Poll.string_le
      (Poll.getWavFiles
         (Poll.init (Some {["seg_002.wav"; "seg_001.wav"; "notes.txt"]})))
  ∧ Poll.getWavFiles
      (Poll.init (Some {["seg_002.wav"; "seg_001.wav"; "notes.txt"]}))
    = ["seg_001.wav"; "seg_002.wav"].
Proof.
  assert (Poll.getWavFiles
            (Poll.init (Some {["seg_002.wav"; "seg_001.wav"; "notes.txt"]}))
          = ["seg_001.wav"; "seg_002.wav"]) as Hl
    by (vm_compute; reflexivity).
  assert (Forall ascii_name
            (Poll.getWavFiles
               (Poll.init (Some {["seg_002.wav"; "seg_001.wav"; "notes.txt"]}))))
    as Hascii.
  { rewrite Hl. repeat constructor. }
  destruct (proj1 getWavFiles_sorted_wav_names
              (Poll.init (Some {["seg_002.wav"; "seg_001.wav"; "notes.txt"]})))
    as (_ & _ & _ & Hsorted).
  split; [exact Hascii|]. split; [exact (Hsorted Hascii)|exact Hl].
Defined.

End ListingFacts.

(** ** sync_and_play.js: listing order, single playback of a file, exits *)
Section PollCoverage.
Import Poll.

Lemma head_filter_least {A} (R : relation A) (P : A → Prop) `{!∀ x, Decision (P x)}
    (l : list A) x :
  StronglySorted R l → head (filter P l) = Some x →
  P x ∧ x ∈ l ∧ ∀ y, y ∈ l → P y → y = x ∨ R x y.
Proof.
  induction 1 as [|a l Hs IH Hall]; [done|].
  rewrite filter_cons. destruct (decide (P a)) as [Hp|Hn]; simpl.
  - intros [= ->]. split; [done|]. split; [left|].
    intros y [->|Hy]%elem_of_cons _; [by left|right].
    by eapply Forall_forall in Hall.
  - intros Hhd. destruct (IH Hhd) as (Hpx & Hin & Hleast).
    split; [done|]. split; [by right|].
    intros y [->|Hy]%elem_of_cons Hpy; [done|]. by apply Hleast.
Qed.

(** The state after the file-count check of [processFiles]: only
    [lastFileCount], [idleTimer] and the pending timeouts can differ. *)
Lemma poll_count_check st :
  let st1 :=
    if bool_decide (length (getWavFiles st) ≠ lastFileCount st)
    then disarm (set_lastFileCount (length (getWavFiles st)) st) else st in
  playedFiles st1 = playedFiles st ∧ isPlaying st1 = isPlaying st
  ∧ localDir st1 = localDir st ∧ aplays st1 = aplays st
  ∧ rsyncs st1 = rsyncs st ∧ started st1 = started st
  ∧ history st1 = history st ∧ exitCode st1 = exitCode st
  ∧ (idleTimer st1 = idleTimer st ∧ timeouts st1 = timeouts st
     ∨ idleTimer st1 = None
       ∧ length (getWavFiles st) ≠ lastFileCount st
       ∧ ∀ h, idleTimer st = Some h →
              timeouts st1 = filter (λ h', h' ≠ h) (timeouts st)).
Proof.
  simpl. case_bool_decide as Hc; [|repeat split; try done; left; done].
  unfold disarm. simpl. destruct (idleTimer st) as [h|] eqn:Hi; simpl.
  - repeat split; try done. right. repeat split; try done. by intros ? [= <-].
  - repeat split; try done. left. by rewrite Hi.
Qed.

(** [processFiles] arms the timer, starts the first unplayed file, or only
    performs the file-count check. *)
Lemma poll_processFiles_cases st :
  let st1 :=
    if bool_decide (length (getWavFiles st) ≠ lastFileCount st)
    then disarm (set_lastFileCount (length (getWavFiles st)) st) else st in
  (processFiles st = arm st1 ∧ idleTimer st1 = None ∧ isPlaying st = false
   ∧ unplayed (getWavFiles st) st = [])
  ∨ (∃ f, processFiles st = start_play f st1 ∧ isPlaying st = false
          ∧ head (unplayed (getWavFiles st) st) = Some f)
  ∨ processFiles st = st1.
Proof.
  simpl. unfold processFiles.
  set (st1 := if bool_decide (_ ≠ _) then _ else st).
  destruct (poll_count_check st) as (_ & Hp & _). fold st1 in Hp. rewrite Hp.
  destruct (bool_decide (length (unplayed (getWavFiles st) st) = 0%nat)
            && negb (isPlaying st)) eqn:Hc.
  { apply andb_prop in Hc as [Hu%bool_decide_eq_true Hnp%negb_true_iff].
    apply length_zero_iff_nil in Hu.
    destruct (idleTimer st1) eqn:Hi; auto 10. }
  destruct (bool_decide (0 < length (unplayed (getWavFiles st) st))%nat
            && negb (isPlaying st)) eqn:Hc'; [|auto].
  apply andb_prop in Hc' as [_ Hnp%negb_true_iff].
  destruct (head (unplayed (getWavFiles st) st)) as [f|] eqn:Hhd; [|auto].
  right. left. exists f. auto.
Qed.

(** X2. When [processFiles] of sync_and_play.js starts a playback and the
    .wav names of the listing are ASCII, the file is a .wav name of the
    current listing that is not in [playedFiles], and it is the first such
    name in ascending order of characters, the order of [sort()] on such
    names. *)
Theorem poll_plays_first_unplayed st e st' f :
  Forall ascii_name (getWavFiles st) →
  step st e = Some st' →
  plays (history st') = plays (history st) ++ [f] →
  f ∈ getWavFiles st ∧ (f ∉ playedFiles st)
  ∧ ∀ g, g ∈ getWavFiles st → g ∉ playedFiles st → string_le f g.
Proof.
  intros _ Hstep Hplays.
  assert (∀ h : list action, plays h = plays h ++ [f] → False) as Hno.
  { intros h Hh. apply (f_equal length) in Hh. rewrite length_app in Hh.
    simpl in Hh. lia. }
  unfold step in Hstep. destruct (exitCode st); [done|].
  destruct e as [c| | |g c|h|dir]; simplify_eq/=.
  - case_bool_decide; [|done].
    destruct (started st); simplify_eq/=; [by destruct (Hno _ Hplays)|].
    destruct (syncFiles c); by destruct (Hno _ Hplays).
  - destruct (started st); simplify_eq/=. by destruct (Hno _ Hplays).
  - destruct (started st); simplify_eq/=.
    destruct (poll_count_check st) as (_ & _ & _ & _ & _ & _ & Hh & _).
    destruct (poll_processFiles_cases st) as [(Hpf & _)|[(g & Hpf & _ & Hhd)|Hpf]];
      rewrite Hpf in Hplays; simpl in Hplays; rewrite ?plays_snoc, ?Hh in Hplays;
      try by destruct (Hno _ Hplays).
    apply app_inv_head in Hplays. simplify_eq.
    pose proof (getWavFiles_sorted_wav_names_aux st) as Hs.
    destruct (head_filter_least string_le _ _ _ Hs Hhd) as (Hnp & Hin & Hleast).
    repeat split; try done.
    intros g' Hg' Hnp'. destruct (Hleast g' Hg' Hnp') as [->|?]; [|done].
    destruct (String.leb_total f f); done.
  - case_bool_decide; simplify_eq/=. by destruct (Hno _ Hplays).
  - case_bool_decide; simplify_eq/=. by destruct (Hno _ Hplays).
  - by destruct (Hno _ Hplays).
Qed.

Lemma poll_plays_first_unplayed_witness :
  ∃ st st',
    run (init (Some {["seg_002.wav"; "seg_001.wav"; "notes.txt"]}))
      [RsyncDone (Exit 0 "")] = Some st
    ∧ step st Tick = Some st'
    ∧ "seg_001.wav" ∈ getWavFiles st
    ∧ string_le "seg_001.wav" "seg_002.wav".
Proof.
  destruct (run (init (Some {["seg_002.wav"; "seg_001.wav"; "notes.txt"]}))
              [RsyncDone (Exit 0 "")]) as [st|] eqn:Hrun.
  - destruct (step st Tick) as [st'|] eqn:Hstep.
    + assert (plays (history st') = plays (history st) ++ ["seg_001.wav"]) as Hp.
      { vm_compute in Hrun. injection Hrun as <-.
        vm_compute in Hstep. injection Hstep as <-. reflexivity. }
      assert ("seg_002.wav" ∈ getWavFiles st ∧ "seg_002.wav" ∉ playedFiles st)
        as [Hin Hnp].
      { vm_compute in Hrun. injection Hrun as <-. split.
        - vm_compute. right. left.
        - apply not_elem_of_empty. }
      assert (Forall ascii_name (getWavFiles st)) as Hascii.
      { vm_compute in Hrun. injection Hrun as <-. vm_compute.
        repeat constructor. }
      destruct (poll_plays_first_unplayed st Tick st' "seg_001.wav" Hascii
                  Hstep Hp) as (H1 & _ & Hleast).
      exists st, st'. split; [reflexivity|]. split; [exact Hstep|].
      split; [exact H1|]. exact (Hleast "seg_002.wav" Hin Hnp).
    + vm_compute in Hrun. injection Hrun as <-. vm_compute in Hstep.
      discriminate Hstep.
  - vm_compute in Hrun. discriminate Hrun.
Defined.

Lemma poll_once_inv_step st e st' :
  poll_once_inv st → step st e = Some st' → poll_once_inv st'.
Proof.
  intros (Hp & Hnd & Hiff) Hstep. unfold step in Hstep.
  destruct (exitCode st); [done|].
  destruct e as [c| | |g c|h|dir]; simplify_eq/=.
  - case_bool_decide; [|done]. destruct (started st); simplify_eq/=; [done|].
    by destruct (syncFiles c).
  - by destruct (started st); simplify_eq/=.
  - destruct (started st); simplify_eq/=.
    destruct (poll_count_check st) as (Epl & Eip & _ & Eap & _ & _ & Ehi & _).
    unfold poll_once_inv.
    destruct (poll_processFiles_cases st) as [(-> & _)|[(f & -> & Hnp & Hhd)| ->]];
      simpl; rewrite ?Epl, ?Eip, ?Eap, ?Ehi; try done.
    rewrite Hnp in Hp. rewrite Hp in *. rewrite plays_snoc.
    apply head_cons_tail in Hhd.
    assert (f ∈ unplayed (getWavFiles st) st) as Hin by (rewrite Hhd; left).
    unfold unplayed in Hin. apply list_elem_of_filter in Hin as [Hfresh _].
    assert (f ∉ plays (history st)) as Hnew.
    { rewrite Hiff. intros [?|Hnil]; [done|]. by apply elem_of_nil in Hnil. }
    split; [eauto|]. split.
    + apply NoDup_app. split; [done|]. split; [|apply NoDup_singleton].
      intros x Hx ->%list_elem_of_singleton. done.
    + intros x. rewrite elem_of_app, Hiff, !list_elem_of_singleton.
      rewrite elem_of_nil. simpl. rewrite list_elem_of_singleton. tauto.
  - case_bool_decide as Hin; simplify_eq/=.
    assert (aplays st = [g]) as Ha.
    { destruct (isPlaying st).
      - destruct Hp as [x Hx]. rewrite Hx in *.
        by apply list_elem_of_singleton in Hin as ->.
      - rewrite Hp in Hin. by apply elem_of_nil in Hin. }
    unfold poll_once_inv. simpl. rewrite Ha, remove1_singleton by constructor.
    split; [done|]. split; [done|].
    intros x. rewrite Hiff, Ha.
    replace (match playFile c with
             | Resolved => {[g]} ∪ playedFiles st
             | Rejected => {[g]} ∪ playedFiles st
             end) with ({[g]} ∪ playedFiles st) by (by destruct (playFile c)).
    rewrite elem_of_union, elem_of_singleton, list_elem_of_singleton, elem_of_nil.
    tauto.
  - case_bool_decide; by simplify_eq/=.
  - done.
Qed.

(** X3. sync_and_play.js never hands the same file to aplay twice, whatever
    the directory does meanwhile: in every reachable state the played names
    are pairwise distinct, and they are exactly the names in [playedFiles]
    plus the one being played. *)
Theorem poll_never_replays dir es st :
  run (init dir) es = Some st →
  NoDup (plays (history st))
  ∧ ∀ f, f ∈ plays (history st) ↔ f ∈ playedFiles st ∨ f ∈ aplays st.
Proof.
  intros Hrun.
  assert (poll_once_inv st) as (_ & Hnd & Hiff); [|done].
  revert Hrun. apply poll_run_invariant; [apply poll_once_inv_step|].
  split; [done|]. split; [constructor|].
  intros f. simpl. rewrite elem_of_nil. split; [done|].
  intros [Hf|Hf]; [|done]. by apply not_elem_of_empty in Hf.
Qed.

Lemma poll_never_replays_witness :
  ∃ st,
    run (init (Some {["seg_001.wav"]}))
      [RsyncDone (Exit 0 ""); Tick; AplayDone "seg_001.wav" (Exit 1 "");
       DirChanged (Some {["seg_001.wav"; "seg_002.wav"]}); Tick] = Some st
    ∧ NoDup (plays (history st)).
Proof.
  destruct (run (init (Some {["seg_001.wav"]}))
              [RsyncDone (Exit 0 ""); Tick; AplayDone "seg_001.wav" (Exit 1 "");
               DirChanged (Some {["seg_001.wav"; "seg_002.wav"]}); Tick])
    as [st|] eqn:Hrun.
  - exists st. split; [reflexivity|].
    exact (proj1 (poll_never_replays _ _ st Hrun)).
  - vm_compute in Hrun. discriminate Hrun.
Defined.

Lemma poll_lifecycle_inv_step st e st' :
  poll_lifecycle_inv st → step st e = Some st' → poll_lifecycle_inv st'.
Proof.
  intros [Hpre Hexit] Hstep. unfold step in Hstep.
  destruct (exitCode st) eqn:Hlive; [done|].
  destruct e as [c| | |g c|h|dir]; simplify_eq/=.
  - case_bool_decide; [|done]. destruct (started st) eqn:Hst; simplify_eq/=.
    + split; simpl; rewrite ?Hst, ?Hlive; done.
    + unfold initial_sync.
      destruct (syncFiles c); split; simpl; rewrite ?Hst, ?Hlive; try done.
      by right.
  - destruct (started st) eqn:Hst; simplify_eq/=.
    split; simpl; rewrite ?Hst, ?Hlive; done.
  - destruct (started st) eqn:Hst; simplify_eq/=.
    destruct (poll_processFiles_frame st) as (_ & Hx & _).
    assert (started (processFiles st) = true) as Hst'.
    { destruct (poll_count_check st) as (_ & _ & _ & _ & _ & Es & _).
      destruct (poll_processFiles_cases st) as [(-> & _)|[(f & -> & _)| ->]];
        simpl; by rewrite Es. }
    split; [by rewrite Hst'|]. by rewrite Hx, Hlive.
  - case_bool_decide as Hin; simplify_eq/=.
    destruct (started st) eqn:Hst.
    + split; simpl; rewrite ?Hst, ?Hlive; done.
    + destruct (Hpre eq_refl) as (_ & Ha & _). rewrite Ha in Hin.
      by apply elem_of_nil in Hin.
  - case_bool_decide as Hin; simplify_eq/=.
    destruct (started st) eqn:Hst.
    + split; simpl; rewrite ?Hst; [done|by left].
    + destruct (Hpre eq_refl) as (_ & _ & Ht & _). rewrite Ht in Hin.
      by apply elem_of_nil in Hin.
  - split; simpl; rewrite ?Hlive; done.
Qed.

(** X4. rsync failures in sync_and_play.js.  [syncFiles] resolves for every
    exit code of rsync: connection errors, partial transfers and every other
    failure are only logged.  So the first rsync sets the intervals whenever
    it could be spawned, whatever its exit code, and the script exits with
    code 1 when it could not be spawned.  Once the intervals are set, an
    rsync that ends, with any exit code or with a failed spawn, leaves the
    script running and touches neither what was played nor what is playing.
    Before the intervals are set nothing is played and no idle timer is
    armed. *)
Theorem poll_rsync_failures_only_logged :
  (∀ code stderr, syncFiles (Exit code stderr) = Resolved)
  ∧ (∀ dir c st,
       run (init dir) [RsyncDone c] = Some st →
       match c with
       | Exit _ _ => started st = true ∧ exitCode st = None
       | SpawnError => started st = false ∧ exitCode st = Some 1
       end)
  ∧ (∀ st c st',
       started st = true → step st (RsyncDone c) = Some st' →
       exitCode st' = None ∧ started st' = true
       ∧ playedFiles st' = playedFiles st ∧ aplays st' = aplays st
       ∧ isPlaying st' = isPlaying st ∧ history st' = history st
       ∧ rsyncs st' = pred (rsyncs st))
  ∧ (∀ dir es st,
       run (init dir) es = Some st → started st = false →
       plays (history st) = [] ∧ playedFiles st = ∅ ∧ aplays st = []
       ∧ timeouts st = []).
Proof.
  assert (∀ code stderr, syncFiles (Exit code stderr) = Resolved) as Hres.
  { intros code stderr. unfold syncFiles.
    case_bool_decide; [done|]. destruct (isConnectionError code stderr); [done|].
    by destruct (_ || _). }
  split; [done|]. split; [|split].
  - intros dir c st Hrun.
    assert (step (init dir) (RsyncDone c)
            = Some (initial_sync (syncFiles c) (init dir))) as Hs by done.
    change (run (init dir) [RsyncDone c])
      with (match step (init dir) (RsyncDone c) with
            | Some st' => Some st'
            | None => None
            end) in Hrun.
    rewrite Hs in Hrun. simplify_eq.
    destruct c as [code stderr|]; [by rewrite Hres|done].
  - intros st c st' Hs Hstep. unfold step in Hstep.
    destruct (exitCode st) eqn:Hx; [done|].
    destruct (bool_decide (0 < rsyncs st)%nat); [|done].
    rewrite Hs in Hstep. injection Hstep as <-. simpl. by rewrite Hx, Hs.
  - intros dir es st Hrun Hst.
    assert (poll_lifecycle_inv st) as [Hpre _].
    { revert Hrun. apply poll_run_invariant; [apply poll_lifecycle_inv_step|].
      split; simpl; [|done]. intros _. by repeat split. }
    destruct (Hpre Hst) as (? & ? & ? & _ & ?). done.
Qed.

(** [processFiles] keeps the timer's shape, and cancels the pending timer when
    the number of .wav files has changed. *)
Lemma poll_processFiles_timer st :
  poll_timer_shape st →
  poll_timer_shape (processFiles st)
  ∧ ∀ h, idleTimer st = Some h →
         length (getWavFiles st) ≠ lastFileCount st →
         h ∉ timeouts (processFiles st).
Proof.
  intros Hinv. unfold poll_timer_shape in *.
  destruct (poll_count_check st) as (_ & _ & _ & _ & _ & _ & _ & _ & Ht).
  set (st1 := if bool_decide (_ ≠ _) then _ else st) in *.
  assert (fresh st1 = fresh st) as Hf.
  { subst st1. case_bool_decide; [|done]. unfold disarm. simpl.
    by destruct (idleTimer st). }
  assert (match idleTimer st1 with
          | Some h => timeouts st1 = [h] ∧ (h < fresh st1)%nat
          | None => timeouts st1 = []
          end
          ∧ ∀ h, idleTimer st = Some h →
                 length (getWavFiles st) ≠ lastFileCount st →
                 idleTimer st1 = None ∧ timeouts st1 = [] ∧ (h < fresh st1)%nat)
    as [Hinv1 Hcancel].
  { rewrite Hf. subst st1. case_bool_decide as Hc.
    - unfold disarm. simpl. destruct (idleTimer st) as [h|] eqn:Hi; simpl.
      + destruct Hinv as [Hto Hlt]. rewrite Hto, filter_ne_singleton.
        split; [done|]. by intros ? [= <-] _.
      + rewrite Hi. split; [done|]. by intros.
    - split; [done|]. by intros. }
  split.
  - destruct (poll_processFiles_cases st) as [(Hpf & Hi & _)|[(f & Hpf & _)|Hpf]];
      fold st1 in Hpf; rewrite Hpf; simpl; try done.
    fold st1 in Hi. rewrite Hi in Hinv1. rewrite Hinv1. split; [done|lia].
  - intros h Hi Hc. destruct (Hcancel h Hi Hc) as (Hi1 & Hto1 & Hlt).
    destruct (poll_processFiles_cases st) as [(Hpf & _)|[(f & Hpf & _)|Hpf]];
      fold st1 in Hpf; rewrite Hpf; simpl; rewrite Hto1;
      try apply not_elem_of_nil.
    simpl. intros ->%list_elem_of_singleton. lia.
Qed.

Lemma poll_timer_inv_step st e st' :
  poll_timer_inv st → step st e = Some st' → poll_timer_inv st'.
Proof.
  intros Hinv Hstep. unfold step in Hstep.
  destruct (exitCode st) eqn:Hlive; [done|]. specialize (Hinv Hlive).
  destruct e as [c| | |g c|h|dir]; simplify_eq/=.
  - case_bool_decide; [|done]. destruct (started st); simplify_eq/=; [by intros _|].
    unfold initial_sync. destruct (syncFiles c); [by intros _|done].
  - destruct (started st); simplify_eq/=. by intros _.
  - destruct (started st); simplify_eq/=. intros _.
    by apply poll_processFiles_timer.
  - case_bool_decide; simplify_eq/=. by intros _.
  - case_bool_decide; by simplify_eq/=.
  - by intros _.
Qed.

(** X5. The idle timer of sync_and_play.js: while the process runs the only
    pending timeout is the one held in [idleTimer], also after the next
    [processFiles], so arming never leaves two timers pending; and a
    [processFiles] that finds the number of .wav files changed cancels the
    timer that was pending. *)
Theorem poll_idle_timer_single dir es st :
  run (init dir) es = Some st →
  exitCode st = None →
  match idleTimer st with
  | Some h =>
      timeouts st = [h]
      ∧ (length (getWavFiles st) ≠ lastFileCount st →
         h ∉ timeouts (processFiles st))
  | None => timeouts st = []
  end
  ∧ (length (timeouts (processFiles st)) ≤ 1)%nat.
Proof.
  intros Hrun Hlive.
  assert (poll_timer_shape st) as Hinv.
  { assert (poll_timer_inv st) as Hinv; [|by apply Hinv].
    revert Hrun. apply poll_run_invariant; [apply poll_timer_inv_step|by intros _]. }
  destruct (poll_processFiles_timer st Hinv) as [Hinv' Hcancel].
  split.
  - unfold poll_timer_shape in Hinv. destruct (idleTimer st) as [h|]; [|done].
    destruct Hinv as [Hto _]. split; [done|]. by apply Hcancel.
  - unfold poll_timer_shape in Hinv'.
    destruct (idleTimer (processFiles st)); [destruct Hinv' as [-> _]|rewrite Hinv'];
      simpl; lia.
Qed.

Lemma poll_idle_timer_single_witness :
  ∃ st,
    run (init (Some {["seg_001.wav"]}))
      [RsyncDone (Exit 0 ""); Tick; AplayDone "seg_001.wav" (Exit 0 ""); Tick;
       DirChanged (Some {["seg_001.wav"; "seg_002.wav"]})] = Some st
    ∧ idleTimer st = Some 0%nat
    ∧ timeouts st = [0%nat]
    ∧ 0%nat ∉ timeouts (processFiles st).
Proof.
  destruct (run (init (Some {["seg_001.wav"]}))
              [RsyncDone (Exit 0 ""); Tick; AplayDone "seg_001.wav" (Exit 0 ""); Tick;
               DirChanged (Some {["seg_001.wav"; "seg_002.wav"]})])
    as [st|] eqn:Hrun.
  - assert (exitCode st = None) as Hlive.
    { vm_compute in Hrun. injection Hrun as <-. reflexivity. }
    assert (idleTimer st = Some 0%nat) as Hi.
    { vm_compute in Hrun. injection Hrun as <-. reflexivity. }
    assert (length (getWavFiles st) ≠ lastFileCount st) as Hc.
    { vm_compute in Hrun. injection Hrun as <-. vm_compute. discriminate. }
    destruct (poll_idle_timer_single _ _ st Hrun Hlive) as [Harmed _].
    rewrite Hi in Harmed. destruct Harmed as [Hto Hcancel].
    exists st. split; [reflexivity|]. split; [exact Hi|]. split; [exact Hto|].
    exact (Hcancel Hc).
  - vm_compute in Hrun. discriminate Hrun.
Defined.

End PollCoverage.

(** ** The NATS scripts: queue contents, bookkeeping, transfers *)
Section NatsCoverage.

Lemma NoDup_snoc_fresh (l : list string) f : NoDup l → f ∉ l → NoDup (l ++ [f]).
Proof.
  intros Hnd Hf. apply NoDup_app. split; [done|]. split; [|apply NoDup_singleton].
  intros x Hx ->%list_elem_of_singleton. done.
Qed.

Lemma NoDup_tail (l : list string) : NoDup l → NoDup (tail l).
Proof. destruct l; [done|]. by intros [_ ?]%NoDup_cons. Qed.

Lemma nats_queue_nodup_step st e st' :
  NoDup (NatsOnly.playQueue st) → NatsOnly.step st e = Some st' →
  NoDup (NatsOnly.playQueue st').
Proof.
  intros Hnd Hstep. unfold NatsOnly.step in Hstep.
  destruct (NatsOnly.exitCode st); [done|].
  destruct e as [p| |f c|f c|h|dir]; simplify_eq/=; try done.
  - destruct (nats_onMessage_cases p st) as [->|(f & _ & _ & Hq & [-> | ->])];
      [done| |]; simpl;
      destruct (nats_disarm_fields (NatsOnly.push f st)) as (_ & -> & _);
      by apply NoDup_snoc_fresh.
  - destruct (nats_processQueue_cases st)
      as [(-> & _)|[(f & -> & _)|[(f & -> & _)| ->]]]; try done.
    by apply NoDup_tail.
  - case_bool_decide; by simplify_eq/=.
  - case_bool_decide; by simplify_eq/=.
  - case_bool_decide; by simplify_eq/=.
Qed.

Lemma serial_queue_nodup_step st e st' :
  NoDup (NatsSerial.playQueue st) → NatsSerial.step st e = Some st' →
  NoDup (NatsSerial.playQueue st').
Proof.
  intros Hnd Hstep. unfold NatsSerial.step in Hstep.
  destruct (NatsSerial.exitCode st); [done|].
  assert (∀ st0, NatsSerial.playQueue st0 = NatsSerial.playQueue st →
            NoDup (NatsSerial.playQueue (NatsSerial.processQueue st0))) as Hpq.
  { intros st0 E.
    destruct (serial_processQueue_cases st0)
      as [(-> & _)|[(f & -> & _)|[(f & -> & _)| ->]]]; simpl; rewrite E; try done.
    by apply NoDup_tail. }
  destruct e as [p| | |f c|f attempts|f k attempts|h|dir]; simplify_eq/=; try done.
  - destruct (serial_onMessage_cases p st) as [->|(f & _ & _ & Hq & [-> | ->])];
      [done| |]; simpl;
      destruct (serial_disarm_fields (NatsSerial.push f st)) as (_ & -> & _);
      by apply NoDup_snoc_fresh.
  - by apply Hpq.
  - case_bool_decide; simplify_eq/=. by apply Hpq.
  - case_bool_decide; simplify_eq/=.
    by destruct (serial_played_cases f (playFile c) st) as [->|(g & -> & _)].
  - case_bool_decide; [|done].
    by destruct (NatsSerial.syncFile _ _ _) as [[[r t] effs]|]; simplify_eq/=.
  - case_bool_decide; [|done].
    by destruct (NatsSerial.syncFile _ _ _) as [[[r t] effs]|]; simplify_eq/=.
  - case_bool_decide; by simplify_eq/=.
Qed.

(** [processFiles] of unnamed/part_000 leaves the queue alone or removes a head
    whose file exists. *)
Lemma hybrid_processFiles_queue st :
  Hybrid.playQueue (Hybrid.processFiles st) = Hybrid.playQueue st
  ∨ ∃ f, Hybrid.playQueue st = f :: Hybrid.playQueue (Hybrid.processFiles st)
         ∧ Hybrid.existsSync f st = true.
Proof.
  assert (Hybrid.playQueue (Hybrid.processListing st) = Hybrid.playQueue st) as Hl.
  { unfold Hybrid.processListing.
    set (st1 := if bool_decide (_ ≠ _) then _ else st).
    assert (Hybrid.playQueue st1 = Hybrid.playQueue st) as Hq.
    { subst st1. case_bool_decide; [|done]. unfold Hybrid.disarm.
      by destruct (Hybrid.idleTimer _). }
    destruct (_ && _ && _); [by destruct (Hybrid.idleTimer st1)|].
    destruct (_ && negb _); [|done]. by destruct (head _). }
  unfold Hybrid.processFiles.
  destruct (_ && negb _); [|auto].
  destruct (head (Hybrid.playQueue st)) as [f|] eqn:Hhd; [|auto].
  destruct (Hybrid.existsSync f st) eqn:Hex; [|auto].
  right. exists f. simpl. apply head_cons_tail in Hhd. auto.
Qed.

Lemma hybrid_queue_nodup_step st e st' :
  NoDup (Hybrid.playQueue st) → Hybrid.step st e = Some st' →
  NoDup (Hybrid.playQueue st').
Proof.
  intros Hnd Hstep. unfold Hybrid.step in Hstep.
  destruct (Hybrid.exitCode st); [done|].
  assert (∀ f st0, Hybrid.playQueue st0 = Hybrid.playQueue st →
            NoDup (Hybrid.playQueue (Hybrid.enqueue f st0))) as Henq.
  { intros f st0 E. unfold Hybrid.enqueue.
    destruct (negb (bool_decide (f ∈ Hybrid.playedFiles st0))
              && negb (bool_decide (f ∈ Hybrid.playQueue st0))) eqn:Hc;
      [|by rewrite E].
    apply andb_prop in Hc as [_ Hq%negb_true_iff%bool_decide_eq_false].
    rewrite E in Hq.
    unfold Hybrid.disarm. destruct (Hybrid.idleTimer _); simpl; rewrite E;
      by apply NoDup_snoc_fresh. }
  destruct e as [p|c| | |f c|h| |dir]; simplify_eq/=.
  - destruct (_ && _); simplify_eq/=. unfold Hybrid.onMessage.
    destruct (wav_filename p) as [[f|]|]; try done.
    case_bool_decide; [done|]. by apply Henq.
  - case_bool_decide; [|done]. destruct (Hybrid.handling st) as [f|].
    + simplify_eq/=. unfold Hybrid.onMessage_synced.
      destruct (Hybrid.syncFiles c); by apply Henq.
    + destruct (Hybrid.started st); simplify_eq/=; [done|].
      unfold Hybrid.initial_sync. by destruct (Hybrid.syncFiles c).
  - by destruct (_ && _); simplify_eq/=.
  - destruct (Hybrid.started st); simplify_eq/=.
    destruct (hybrid_processFiles_queue st) as [->|(f & Hf & _)]; [done|].
    rewrite Hf in Hnd. by apply NoDup_cons in Hnd as [_ ?].
  - case_bool_decide; by simplify_eq/=.
  - case_bool_decide; simplify_eq/=. unfold Hybrid.idle_fired.
    by destruct (Hybrid.natsClient st).
  - by destruct (Hybrid.closing st); simplify_eq/=.
  - done.
Qed.

(** X6. In the three scripts with a play queue (sync_and_play_nats.js, the
    serialized script, unnamed/part_000) the queue never holds a name twice,
    whatever messages arrive. *)
Theorem queue_never_holds_a_name_twice :
  (∀ dir es st,
     NatsOnly.run (NatsOnly.init dir) es = Some st → NoDup (NatsOnly.playQueue st))
  ∧ (∀ dir es st,
       NatsSerial.run (NatsSerial.init dir) es = Some st →
       NoDup (NatsSerial.playQueue st))
  ∧ (∀ connected interval dir es st,
       Hybrid.run (Hybrid.init connected interval dir) es = Some st →
       NoDup (Hybrid.playQueue st)).
Proof.
  split; [|split].
  - intros dir es st.
    apply (nats_run_invariant (λ st, NoDup (NatsOnly.playQueue st)));
      [apply nats_queue_nodup_step|constructor].
  - intros dir es st.
    apply (serial_run_invariant (λ st, NoDup (NatsSerial.playQueue st)));
      [apply serial_queue_nodup_step|constructor].
  - intros connected interval dir es st.
    apply (hybrid_run_invariant (λ st, NoDup (Hybrid.playQueue st)));
      [apply hybrid_queue_nodup_step|constructor].
Qed.

(** The guard of the handlers passes exactly for an object whose [filename] is
    a string ending in ".wav". *)
Lemma wav_filename_accepts p f :
  wav_filename p = Normal (Some f)
  ↔ ∃ fields base,
      p = Parsed (JObj fields)
      ∧ lookup_field "filename" fields = Some (JStr f)
      ∧ f = base +:+ ".wav".
Proof.
  split.
  - unfold wav_filename. destruct p as [|data]; [done|].
    unfold get_filename.
    destruct data as [| | | | |fields]; try done.
    destruct (lookup_field "filename" fields) as [v|] eqn:Hl; [|done].
    destruct (truthy (Some v)); [|done].
    destruct v as [| | |s| |]; try done.
    destruct (endsWith s ".wav") eqn:Hs; [|done].
    intros [= ->]. apply endsWith_spec in Hs as [base ->]. eauto.
  - intros (fields & base & -> & Hl & ->). unfold wav_filename, get_filename.
    rewrite Hl. simpl.
    assert (base +:+ ".wav" ≠ "") as Hne.
    { intros Heq. apply (f_equal String.length) in Heq.
      rewrite string_length_app in Heq. simpl in Heq. lia. }
    rewrite bool_decide_eq_false_2 by done. simpl.
    by rewrite (proj2 (endsWith_spec _ _) (ex_intro _ base eq_refl)).
Qed.

(** X7. The message handler of sync_and_play_nats.js changes the state only
    for a payload that is an object whose [filename] is a string ending in
    ".wav" and naming a file that is neither queued nor played.  It then
    appends that name to the queue, leaves the timer disarmed, and starts an
    scp for the name exactly when the file is absent from LOCAL_DIR. *)
Theorem nats_handler_accepts p st :
  NatsOnly.onMessage p st ≠ st →
  ∃ fields base f,
    p = Parsed (JObj fields)
    ∧ lookup_field "filename" fields = Some (JStr f)
    ∧ f = base +:+ ".wav"
    ∧ (f ∉ NatsOnly.playedFiles st) ∧ (f ∉ NatsOnly.playQueue st)
    ∧ NatsOnly.playQueue (NatsOnly.onMessage p st) = NatsOnly.playQueue st ++ [f]
    ∧ NatsOnly.idleTimer (NatsOnly.onMessage p st) = None
    ∧ NatsOnly.playedFiles (NatsOnly.onMessage p st) = NatsOnly.playedFiles st
    ∧ NatsOnly.scps (NatsOnly.onMessage p st)
      = (if bool_decide (f ∈ NatsOnly.localFiles st) then NatsOnly.scps st
         else NatsOnly.scps st ++ [f]).
Proof.
  intros Hchg. unfold NatsOnly.onMessage in *.
  destruct (wav_filename p) as [[f|]|] eqn:Hf; try done.
  apply wav_filename_accepts in Hf as (fields & base & -> & Hl & ->).
  exists fields, base, (base +:+ ".wav").
  case_bool_decide as Hp; [done|]. case_bool_decide as Hq; [done|].
  destruct (nats_disarm_fields (NatsOnly.push (base +:+ ".wav") st))
    as (Ep & Eq & _ & El & _ & Es & _ & _ & Ei).
  unfold NatsOnly.existsSync. rewrite El. simpl.
  repeat split; try done;
    destruct (bool_decide (base +:+ ".wav" ∈ NatsOnly.localFiles st));
    simpl; by rewrite ?Ep, ?Eq, ?Es, ?Ei.
Qed.

Lemma nats_handler_accepts_witness :
  ∃ fields base f,
    Parsed (JObj [("filename", JStr "old.wav"); ("filename", JStr "seg_001.wav")])
    = Parsed (JObj fields)
    ∧ lookup_field "filename" fields = Some (JStr f)
    ∧ f = base +:+ ".wav"
    ∧ NatsOnly.playQueue
        (NatsOnly.onMessage
           (Parsed (JObj [("filename", JStr "old.wav");
                          ("filename", JStr "seg_001.wav")]))
           (NatsOnly.init ∅))
      = [f].
Proof.
  destruct (nats_handler_accepts
              (Parsed (JObj [("filename", JStr "old.wav");
                             ("filename", JStr "seg_001.wav")]))
              (NatsOnly.init ∅))
    as (fields & base & f & Hp & Hl & Hf & _ & _ & Hq & _).
  - vm_compute. discriminate.
  - exists fields, base, f. repeat split; assumption.
Defined.

Lemma nats_played_exact_step st e st' :
  nats_queue_inv st → nats_played_exact st → NatsOnly.step st e = Some st' →
  nats_played_exact st'.
Proof.
  intros [_ Hp] Hex Hstep. unfold NatsOnly.step in Hstep.
  destruct (NatsOnly.exitCode st); [done|]. unfold nats_played_exact in *.
  destruct e as [p| |f c|f c|h|dir]; simplify_eq/=; try done.
  - destruct (nats_onMessage_cases p st) as [->|(f & _ & _ & _ & [-> | ->])];
      [done| |]; simpl;
      destruct (nats_disarm_fields (NatsOnly.push f st))
        as (-> & _ & _ & _ & -> & _ & -> & _);
      simpl; intros g; by rewrite ?plays_snoc, ?app_nil_r.
  - destruct (nats_processQueue_cases st)
      as [(-> & _)|[(f & -> & _ & _ & Hnp)|[(f & -> & _)| ->]]]; simpl; try done.
    + rewrite Hnp in Hp. rewrite Hp in *. intros g.
      rewrite plays_snoc, elem_of_app, Hex, elem_of_nil. simpl. tauto.
    + intros g. by rewrite plays_snoc, app_nil_r.
  - case_bool_decide as Hin; simplify_eq/=.
    assert (NatsOnly.aplays st = [f]) as Ha.
    { destruct (NatsOnly.isPlaying st).
      - destruct Hp as [x Hx]. rewrite Hx in *.
        by apply list_elem_of_singleton in Hin as ->.
      - rewrite Hp in Hin. by apply elem_of_nil in Hin. }
    intros g. rewrite Hex, Ha, remove1_singleton by (rewrite <- Ha; done).
    replace (match playFile c with
             | Resolved => {[f]} ∪ NatsOnly.playedFiles st
             | Rejected => {[f]} ∪ NatsOnly.playedFiles st
             end) with ({[f]} ∪ NatsOnly.playedFiles st) by (by destruct (playFile c)).
    rewrite elem_of_union, elem_of_singleton, list_elem_of_singleton, elem_of_nil.
    tauto.
  - case_bool_decide; by simplify_eq/=.
  - case_bool_decide; by simplify_eq/=.
Qed.

Lemma serial_played_exact_step st e st' :
  serial_inv st → serial_played_exact st → NatsSerial.step st e = Some st' →
  serial_played_exact st'.
Proof.
  intros (_ & Hp & _ & _) Hex Hstep. unfold NatsSerial.step in Hstep.
  destruct (NatsSerial.exitCode st); [done|]. unfold serial_played_exact in *.
  assert (∀ st0, NatsSerial.playedFiles st0 = NatsSerial.playedFiles st →
            NatsSerial.aplays st0 = NatsSerial.aplays st →
            NatsSerial.history st0 = NatsSerial.history st →
            NatsSerial.isPlaying st0 = NatsSerial.isPlaying st →
            ∀ g, g ∈ plays (NatsSerial.history (NatsSerial.processQueue st0))
                 ↔ g ∈ NatsSerial.playedFiles (NatsSerial.processQueue st0)
                   ∨ g ∈ NatsSerial.aplays (NatsSerial.processQueue st0)) as Hpq.
  { intros st0 E1 E2 E3 E4 g.
    destruct (serial_processQueue_cases st0)
      as [(-> & _)|[(f & -> & _ & _ & Hnp & _)|[(f & -> & _)| ->]]]; simpl;
      rewrite ?E1, ?E2, ?E3; try done.
    - rewrite E4 in Hnp. rewrite Hnp in Hp. rewrite Hp in *.
      rewrite plays_snoc, elem_of_app, Hex, elem_of_nil. simpl. tauto.
    - by rewrite plays_snoc, app_nil_r. }
  destruct e as [p| | |f c|f attempts|f k attempts|h|dir]; simplify_eq/=; try done.
  - destruct (serial_onMessage_cases p st) as [->|(f & _ & _ & _ & [-> | ->])];
      [done| |]; simpl;
      destruct (serial_disarm_fields (NatsSerial.push f st))
        as (-> & _ & _ & _ & _ & -> & _ & -> & _);
      simpl; intros g; by rewrite ?plays_snoc, ?app_nil_r.
  - by apply Hpq.
  - case_bool_decide; simplify_eq/=. by apply Hpq.
  - case_bool_decide as Hin; simplify_eq/=.
    assert (NatsSerial.aplays st = [f]) as Ha.
    { destruct (NatsSerial.isPlaying st).
      - destruct Hp as [x Hx]. rewrite Hx in *.
        by apply list_elem_of_singleton in Hin as ->.
      - rewrite Hp in Hin. by apply elem_of_nil in Hin. }
    intros g.
    destruct (serial_played_cases f (playFile c) st) as [->|(g' & -> & _)]; simpl;
      rewrite ?plays_snoc, ?app_nil_r, Hex, Ha, remove1_singleton
        by (rewrite <- Ha; done);
      rewrite elem_of_union, elem_of_singleton, list_elem_of_singleton, elem_of_nil;
      tauto.
  - case_bool_decide; [|done].
    by destruct (NatsSerial.syncFile _ _ _) as [[[r t] effs]|]; simplify_eq/=.
  - case_bool_decide; [|done].
    by destruct (NatsSerial.syncFile _ _ _) as [[[r t] effs]|]; simplify_eq/=.
  - case_bool_decide; by simplify_eq/=.
Qed.

(** X8. In sync_and_play_nats.js and in the serialized script [playedFiles]
    is exact: a name is in it, or is the one being played, if and only if
    aplay was started for it.  In particular no name enters [playedFiles]
    without having been played, and every finished playback is recorded. *)
Theorem played_files_exact :
  (∀ dir es st,
     NatsOnly.run (NatsOnly.init dir) es = Some st →
     ∀ f, f ∈ plays (NatsOnly.history st)
          ↔ f ∈ NatsOnly.playedFiles st ∨ f ∈ NatsOnly.aplays st)
  ∧ (∀ dir es st,
       NatsSerial.run (NatsSerial.init dir) es = Some st →
       ∀ f, f ∈ plays (NatsSerial.history st)
            ↔ f ∈ NatsSerial.playedFiles st ∨ f ∈ NatsSerial.aplays st).
Proof.
  split; intros dir es st Hrun.
  - assert (nats_queue_inv st ∧ nats_played_exact st) as [_ Hex]; [|done].
    revert Hrun.
    apply (nats_run_invariant (λ st, nats_queue_inv st ∧ nats_played_exact st)).
    + intros st0 e st1 [Hq Hx] Hstep. split.
      * by eapply nats_queue_inv_step.
      * by eapply nats_played_exact_step.
    + split; [apply nats_queue_inv_init|]. intros f. simpl.
      rewrite elem_of_nil. split; [done|].
      intros [Hf|Hf]; [|done]. by apply not_elem_of_empty in Hf.
  - assert (serial_inv st ∧ serial_played_exact st) as [_ Hex]; [|done].
    revert Hrun.
    apply (serial_run_invariant (λ st, serial_inv st ∧ serial_played_exact st)).
    + intros st0 e st1 [Hq Hx] Hstep. split.
      * by eapply serial_inv_step.
      * by eapply serial_played_exact_step.
    + split; [apply serial_inv_init|]. intros f. simpl.
      rewrite elem_of_nil. split; [done|].
      intros [Hf|Hf]; [|done]. by apply not_elem_of_empty in Hf.
Qed.

(** A step of sync_and_play_nats.js calls [syncFile] at most once, for a name
    that is in the queue afterwards and whose file is absent. *)
Lemma nats_step_fetches st e st' :
  NatsOnly.step st e = Some st' →
  fetches (NatsOnly.history st') = fetches (NatsOnly.history st)
  ∨ ∃ f, fetches (NatsOnly.history st') = fetches (NatsOnly.history st) ++ [f]
         ∧ (f ∉ NatsOnly.localFiles st) ∧ f ∈ NatsOnly.playQueue st'.
Proof.
  intros Hstep. unfold NatsOnly.step in Hstep.
  destruct (NatsOnly.exitCode st); [done|].
  destruct e as [p| |f c|f c|h|dir]; simplify_eq/=; auto.
  - unfold NatsOnly.onMessage.
    destruct (wav_filename p) as [[f|]|]; auto.
    case_bool_decide; auto. case_bool_decide; auto.
    destruct (nats_disarm_fields (NatsOnly.push f st))
      as (_ & Eq & _ & El & _ & _ & Eh & _).
    unfold NatsOnly.existsSync. rewrite El. simpl.
    destruct (bool_decide (f ∈ NatsOnly.localFiles st)) eqn:Hex; simpl.
    + left. by rewrite Eh; simpl; rewrite fetches_snoc, app_nil_r.
    + right. exists f. apply bool_decide_eq_false in Hex.
      rewrite Eh, Eq. simpl. rewrite !fetches_snoc, app_nil_r.
      split; [done|]. split; [done|]. apply elem_of_app. right. left.
  - destruct (nats_processQueue_cases st)
      as [(-> & _)|[(f & -> & _)|[(f & -> & Hhd & Hex & _)| ->]]]; simpl; auto.
    + left. by rewrite fetches_snoc, app_nil_r.
    + right. exists f. rewrite fetches_snoc. split; [done|]. split; [done|].
      apply head_cons_tail in Hhd. rewrite Hhd. left.
  - case_bool_decide; simplify_eq/=; auto.
  - case_bool_decide; simplify_eq/=; auto.
  - case_bool_decide; simplify_eq/=; auto.
Qed.

(** In a step of the serialized script [processQueue] calls [syncFile] at
    most once, while it waits for no earlier call, for the head of the
    queue, whose file is absent; no aplay runs afterwards. *)
Lemma serial_step_fetches st e st' :
  serial_inv st →
  NatsSerial.step st e = Some st' →
  fetches (NatsSerial.history st') = fetches (NatsSerial.history st)
  ∨ ∃ f, fetches (NatsSerial.history st') = fetches (NatsSerial.history st) ++ [f]
         ∧ (f ∉ NatsSerial.localFiles st)
         ∧ head (NatsSerial.playQueue st') = Some f
         ∧ NatsSerial.syncs st = []
         ∧ NatsSerial.aplays st' = [].
Proof.
  intros (_ & Hp & Hs & Hx) Hstep. unfold NatsSerial.step in Hstep.
  destruct (NatsSerial.exitCode st); [done|].
  assert (∀ st0, NatsSerial.playQueue st0 = NatsSerial.playQueue st →
            NatsSerial.localFiles st0 = NatsSerial.localFiles st →
            NatsSerial.history st0 = NatsSerial.history st →
            NatsSerial.isSyncing st0 = NatsSerial.isSyncing st →
            NatsSerial.isPlaying st0 = NatsSerial.isPlaying st →
            NatsSerial.aplays st0 = NatsSerial.aplays st →
            let st' := NatsSerial.processQueue st0 in
            fetches (NatsSerial.history st') = fetches (NatsSerial.history st)
            ∨ ∃ f, fetches (NatsSerial.history st')
                   = fetches (NatsSerial.history st) ++ [f]
                   ∧ (f ∉ NatsSerial.localFiles st)
                   ∧ head (NatsSerial.playQueue st') = Some f
                   ∧ NatsSerial.syncs st = []
                   ∧ NatsSerial.aplays st' = []) as Hpq.
  { intros st0 E1 E2 E3 E4 E5 E6. simpl.
    destruct (serial_processQueue_cases st0)
      as [(-> & _)|[(f & -> & _)|[(f & -> & Hhd & Hex & Hnp & Hns)| ->]]]; simpl;
      rewrite ?E3; auto.
    - left. by rewrite fetches_snoc, app_nil_r.
    - right. exists f. rewrite fetches_snoc, <- E2, E6.
      rewrite E4 in Hns. rewrite E5 in Hnp. rewrite Hns in Hs. rewrite Hnp in Hp.
      auto 10. }
  destruct e as [p| | |f c|f attempts|f k attempts|h|dir]; simplify_eq/=; auto.
  - left.
    destruct (serial_onMessage_cases p st) as [->|(f & _ & _ & _ & [-> | ->])];
      [done| |]; simpl;
      destruct (serial_disarm_fields (NatsSerial.push f st))
        as (_ & _ & _ & _ & _ & _ & _ & -> & _);
      simpl; by rewrite fetches_snoc, app_nil_r.
  - case_bool_decide; simplify_eq/=. by apply Hpq.
  - case_bool_decide as Hin; simplify_eq/=.
    assert (NatsSerial.isPlaying st = true) as Hpl.
    { destruct (NatsSerial.isPlaying st); [done|]. rewrite Hp in Hin.
      by apply elem_of_nil in Hin. }
    rewrite Hpl in Hp. destruct Hp as [x Hx']. rewrite Hx' in Hin.
    apply list_elem_of_singleton in Hin as ->.
    rewrite (Hx Hpl) in Hs.
    destruct (serial_played_cases x (playFile c) st) as [->|(g & -> & Hhd & Hex)];
      simpl; auto.
    right. exists g. rewrite fetches_snoc, Hx', remove1_singleton by set_solver.
    auto 10.
  - case_bool_decide; [|done].
    destruct (NatsSerial.syncFile _ _ _) as [[[r t] effs]|]; simplify_eq/=. auto.
  - case_bool_decide; [|done].
    destruct (NatsSerial.syncFile _ _ _) as [[[r t] effs]|]; simplify_eq/=. auto.
  - case_bool_decide; simplify_eq/=; auto.
Qed.

(** X9. Transfers are started only for what is needed.  In
    sync_and_play_nats.js a step calls [syncFile] only for a name that is in
    the queue and whose file is absent from LOCAL_DIR at that moment.  In
    the serialized script [processQueue] calls [syncFile] only for the head
    of the queue, only when its file is absent, and only while it waits for
    no earlier call of its own and no aplay runs.  (The retries that
    [syncFile] makes by itself, among them one that a failed spawn leaves
    behind, are not calls of [processQueue].) *)
Theorem fetch_only_absent_queued :
  (∀ dir es st e st' f,
     NatsOnly.run (NatsOnly.init dir) es = Some st →
     NatsOnly.step st e = Some st' →
     fetches (NatsOnly.history st') = fetches (NatsOnly.history st) ++ [f] →
     (f ∉ NatsOnly.localFiles st) ∧ f ∈ NatsOnly.playQueue st'
     ∧ f ∈ pushes (NatsOnly.history st'))
  ∧ (∀ dir es st e st' f,
       NatsSerial.run (NatsSerial.init dir) es = Some st →
       NatsSerial.step st e = Some st' →
       fetches (NatsSerial.history st') = fetches (NatsSerial.history st) ++ [f] →
       (f ∉ NatsSerial.localFiles st)
       ∧ head (NatsSerial.playQueue st') = Some f
       ∧ NatsSerial.syncs st = [] ∧ NatsSerial.aplays st' = []).
Proof.
  assert (∀ (l : list string) f, l = l ++ [f] → False) as Hno.
  { intros l f Hl. apply (f_equal length) in Hl. rewrite length_app in Hl.
    simpl in Hl. lia. }
  split; intros dir es st e st' f Hrun Hstep Hf.
  - destruct (nats_step_fetches _ _ _ Hstep) as [Heq|(g & Hg & Habs & Hin)].
    { rewrite Heq in Hf. by destruct (Hno _ _ Hf). }
    rewrite Hg in Hf. apply app_inv_head in Hf. simplify_eq.
    split; [done|]. split; [done|].
    pose proof (nats_queue_inv_reachable _ _ _ Hrun) as Hinv.
    destruct (nats_queue_inv_step _ _ _ Hinv Hstep) as [<- _].
    apply elem_of_app. by right.
  - pose proof (serial_inv_reachable _ _ _ Hrun) as Hinv.
    destruct (serial_step_fetches _ _ _ Hinv Hstep) as [Heq|(g & Hg & Hrest)].
    { rewrite Heq in Hf. by destruct (Hno _ _ Hf). }
    rewrite Hg in Hf. apply app_inv_head in Hf. by simplify_eq.
Qed.

Lemma fetch_only_absent_queued_witness :
  ∃ st st',
    NatsOnly.run (NatsOnly.init {["seg_001.wav"]})
      [NatsOnly.arrival "seg_001.wav"; NatsOnly.arrival "seg_002.wav";
       NatsOnly.Tick; NatsOnly.AplayDone "seg_001.wav" (Exit 0 "")] = Some st
    ∧ NatsOnly.step st NatsOnly.Tick = Some st'
    ∧ fetches (NatsOnly.history st') = ["seg_002.wav"; "seg_002.wav"]
    ∧ ("seg_002.wav" ∉ NatsOnly.localFiles st)
    ∧ "seg_002.wav" ∈ NatsOnly.playQueue st'.
Proof.
  destruct (NatsOnly.run (NatsOnly.init {["seg_001.wav"]})
              [NatsOnly.arrival "seg_001.wav"; NatsOnly.arrival "seg_002.wav";
               NatsOnly.Tick; NatsOnly.AplayDone "seg_001.wav" (Exit 0 "")])
    as [st|] eqn:Hrun.
  - destruct (NatsOnly.step st NatsOnly.Tick) as [st'|] eqn:Hstep.
    + assert (fetches (NatsOnly.history st) = ["seg_002.wav"]
              ∧ fetches (NatsOnly.history st') = ["seg_002.wav"; "seg_002.wav"])
        as [Hf Hf'].
      { vm_compute in Hrun. injection Hrun as <-.
        vm_compute in Hstep. injection Hstep as <-. split; reflexivity. }
      destruct (proj1 fetch_only_absent_queued _ _ st NatsOnly.Tick st'
                  "seg_002.wav" Hrun Hstep) as (Habs & Hin & _).
      { rewrite Hf, Hf'. reflexivity. }
      exists st, st'. split; [reflexivity|]. split; [exact Hstep|].
      split; [exact Hf'|]. split; [exact Habs|exact Hin].
    + vm_compute in Hrun. injection Hrun as <-. vm_compute in Hstep.
      discriminate Hstep.
  - vm_compute in Hrun. discriminate Hrun.
Defined.

(** X10. What [processQueue] of the serialized script waits for: in every
    reachable state it waits for at most one aplay or one [syncFile] call,
    never for both; [isPlaying] is set exactly while it waits for an aplay,
    [isSyncing] exactly while it waits for a [syncFile], and that [syncFile]
    is the one for the current head of the queue.  The scp children
    themselves are not serialized: when scp cannot be spawned, the awaited
    [syncFile] rejects at once, [isSyncing] is cleared with the queue as it
    was, and the retry scheduled by the 'error' handler is left behind, so
    that its scp can run beside the next transfer or playback. *)
Theorem serial_play_and_fetch_exclusive dir es st :
  NatsSerial.run (NatsSerial.init dir) es = Some st →
  (length (NatsSerial.aplays st) + length (NatsSerial.syncs st) ≤ 1)%nat
  ∧ (NatsSerial.isPlaying st = true ↔ NatsSerial.aplays st ≠ [])
  ∧ (NatsSerial.isSyncing st = true ↔ NatsSerial.syncs st ≠ [])
  ∧ (∀ f, f ∈ NatsSerial.syncs st → head (NatsSerial.playQueue st) = Some f)
  ∧ (∀ f a rest,
       NatsSerial.exitCode st = None →
       f ∈ NatsSerial.syncs st →
       NatsSerial.outcome a = SpawnError →
       ∃ st',
         NatsSerial.step st (NatsSerial.SyncDone f (a :: rest)) = Some st'
         ∧ NatsSerial.isSyncing st' = false
         ∧ NatsSerial.syncs st' = []
         ∧ NatsSerial.retries st' = NatsSerial.retries st ++ [(f, 1%nat)]
         ∧ NatsSerial.playQueue st' = NatsSerial.playQueue st
         ∧ NatsSerial.localFiles st' = NatsSerial.localFiles st
         ∧ NatsSerial.lastSyncTime st' = NatsSerial.lastSyncTime st).
Proof.
  intros Hrun. destruct (serial_inv_reachable _ _ _ Hrun) as (_ & Hp & Hs & Hx).
  assert (∀ f a rest,
            NatsSerial.exitCode st = None →
            NatsSerial.syncs st = [f] →
            NatsSerial.outcome a = SpawnError →
            ∃ st',
              NatsSerial.step st (NatsSerial.SyncDone f (a :: rest)) = Some st'
              ∧ NatsSerial.isSyncing st' = false
              ∧ NatsSerial.syncs st' = []
              ∧ NatsSerial.retries st' = NatsSerial.retries st ++ [(f, 1%nat)]
              ∧ NatsSerial.playQueue st' = NatsSerial.playQueue st
              ∧ NatsSerial.localFiles st' = NatsSerial.localFiles st
              ∧ NatsSerial.lastSyncTime st' = NatsSerial.lastSyncTime st)
    as Hspawn.
  { intros f a rest Hlive Hsy Hout.
    destruct (syncFile_with_spawn_error NatsSerial.MAX_SYNC_RETRIES
                NatsSerial.RETRY_DELAY a rest 0 (NatsSerial.lastSyncTime st) Hout)
      as (effs & Hsync & _ & _ & Ho).
    fold NatsSerial.syncFile in Hsync.
    eexists. split.
    { unfold NatsSerial.step. rewrite Hlive, Hsy.
      rewrite bool_decide_eq_true_2 by set_solver. by rewrite Hsync. }
    simpl. rewrite Ho, Hsy, remove1_singleton by set_solver. done. }
  destruct (NatsSerial.isPlaying st) eqn:Hpl.
  - rewrite (Hx eq_refl) in *. destruct Hp as [g ->]. rewrite Hs in *.
    repeat split; try done.
    + intros f Hf. by apply elem_of_nil in Hf.
    + intros f a rest _ Hf. by apply elem_of_nil in Hf.
  - rewrite Hp. destruct (NatsSerial.isSyncing st) eqn:Hsy.
    + destruct Hs as (g & Hg & Hhd). rewrite Hg in *. repeat split; try done.
      * intros f ->%list_elem_of_singleton. done.
      * intros f a rest Hlive ->%list_elem_of_singleton Hout.
        by apply Hspawn.
    + rewrite Hs in *. repeat split; try done; simpl; try lia.
      * intros f Hf. by apply elem_of_nil in Hf.
      * intros f a rest _ Hf. by apply elem_of_nil in Hf.
Qed.

Lemma serial_play_and_fetch_exclusive_witness :
  ∃ st st',
    NatsSerial.run (NatsSerial.init ∅)
      [NatsSerial.arrival "seg_001.wav"; NatsSerial.Immediate] = Some st
    ∧ NatsSerial.syncs st = ["seg_001.wav"]
    ∧ NatsSerial.step st
        (NatsSerial.SyncDone "seg_001.wav"
           [NatsSerial.mkAttempt 1000 SpawnError 1000]) = Some st'
    ∧ NatsSerial.isSyncing st' = false
    ∧ NatsSerial.retries st' = [("seg_001.wav", 1%nat)]
    ∧ NatsSerial.syncs (NatsSerial.processQueue st') = ["seg_001.wav"].
Proof.
  destruct (NatsSerial.run (NatsSerial.init ∅)
              [NatsSerial.arrival "seg_001.wav"; NatsSerial.Immediate])
    as [st|] eqn:Hrun; [|vm_compute in Hrun; discriminate Hrun].
  assert (NatsSerial.exitCode st = None ∧ NatsSerial.syncs st = ["seg_001.wav"]
          ∧ NatsSerial.retries st = []
          ∧ NatsSerial.playQueue st = ["seg_001.wav"]
          ∧ NatsSerial.localFiles st = ∅
          ∧ NatsSerial.isPlaying st = false)
    as (Hlive & Hsy & Hr & Hq & Hl & Hnp).
  { vm_compute in Hrun. injection Hrun as <-. repeat split; reflexivity. }
  destruct (serial_play_and_fetch_exclusive _ _ st Hrun)
    as (_ & _ & _ & _ & Hspawn).
  destruct (Hspawn "seg_001.wav" (NatsSerial.mkAttempt 1000 SpawnError 1000) []
              Hlive ltac:(rewrite Hsy; left) eq_refl)
    as (st' & Hstep & Hns & Hsy' & Hr' & Hq' & Hl' & _).
  exists st, st'. split; [reflexivity|]. split; [exact Hsy|].
  split; [exact Hstep|]. split; [exact Hns|].
  split; [by rewrite Hr', Hr|].
  assert (NatsSerial.isPlaying st' = false) as Hnp'.
  { unfold NatsSerial.step in Hstep. rewrite Hlive in Hstep.
    destruct (bool_decide _); [|discriminate Hstep].
    destruct (NatsSerial.syncFile _ _ _) as [[[r t] effs]|];
      [|discriminate Hstep].
    injection Hstep as <-. exact Hnp. }
  assert (NatsSerial.processQueue st'
          = NatsSerial.start_sync "seg_001.wav" st') as ->.
  { unfold NatsSerial.processQueue, NatsSerial.existsSync.
    rewrite Hq', Hq, Hnp', Hns, Hl', Hl. simpl.
    by rewrite bool_decide_eq_false_2 by apply not_elem_of_empty. }
  simpl. by rewrite Hsy'.
Defined.

(** X11. The idle timer of the serialized script: while the process runs it
    is held only when the queue is empty and [processQueue] waits for
    nothing, neither an aplay nor a [syncFile] call, and it is then the only
    pending timeout; a [processQueue] that finds the queue empty and nothing
    awaited leaves it armed, whether or not a retry left behind by a failed
    spawn is still pending. *)
Theorem serial_idle_timer_only_when_idle dir es st :
  NatsSerial.run (NatsSerial.init dir) es = Some st →
  NatsSerial.exitCode st = None →
  match NatsSerial.idleTimer st with
  | Some h =>
      NatsSerial.timeouts st = [h] ∧ NatsSerial.playQueue st = []
      ∧ NatsSerial.aplays st = [] ∧ NatsSerial.syncs st = []
  | None => NatsSerial.timeouts st = []
  end
  ∧ (NatsSerial.playQueue st = [] → NatsSerial.aplays st = [] →
     NatsSerial.syncs st = [] →
     ∃ h, NatsSerial.idleTimer (NatsSerial.processQueue st) = Some h
          ∧ NatsSerial.timeouts (NatsSerial.processQueue st) = [h]).
Proof.
  intros Hrun Hlive.
  pose proof (serial_timer_inv_reachable _ _ _ Hrun Hlive) as Ht.
  destruct (serial_inv_reachable _ _ _ Hrun) as (_ & Hp & Hs & _).
  split.
  - destruct (NatsSerial.idleTimer st) as [h|]; [|done].
    destruct Ht as (Hto & Hq & Hnp & Hns). rewrite Hnp in Hp. rewrite Hns in Hs.
    done.
  - intros Hq Ha Hsy.
    assert (NatsSerial.isPlaying st = false) as Hnp.
    { destruct (NatsSerial.isPlaying st); [|done]. destruct Hp as [g Hg].
      by rewrite Hg in Ha. }
    assert (NatsSerial.isSyncing st = false) as Hns.
    { destruct (NatsSerial.isSyncing st); [|done]. destruct Hs as (g & Hg & _).
      by rewrite Hg in Hsy. }
    unfold NatsSerial.processQueue. rewrite Hq, Hnp, Hns. simpl.
    destruct (NatsSerial.idleTimer st) as [h|] eqn:Hi.
    + exists h. rewrite Hi. by destruct Ht as (? & _).
    + exists (NatsSerial.fresh st). simpl. by rewrite Ht.
Qed.

Lemma serial_idle_timer_only_when_idle_witness :
  ∃ st,
    NatsSerial.run (NatsSerial.init ∅)
      (serial_scenario_C
       ++ [NatsSerial.AplayDone "seg_003.wav" (Exit 0 ""); NatsSerial.Tick])
    = Some st
    ∧ NatsSerial.idleTimer st = Some 0%nat
    ∧ NatsSerial.syncs st = [].
Proof.
  destruct (NatsSerial.run (NatsSerial.init ∅)
              (serial_scenario_C
               ++ [NatsSerial.AplayDone "seg_003.wav" (Exit 0 ""); NatsSerial.Tick]))
    as [st|] eqn:Hrun.
  - assert (NatsSerial.exitCode st = None) as Hlive.
    { vm_compute in Hrun. injection Hrun as <-. reflexivity. }
    assert (NatsSerial.idleTimer st = Some 0%nat) as Hi.
    { vm_compute in Hrun. injection Hrun as <-. reflexivity. }
    destruct (serial_idle_timer_only_when_idle _ _ st Hrun Hlive) as [Harmed _].
    rewrite Hi in Harmed. destruct Harmed as (_ & _ & _ & Hs).
    exists st. split; [reflexivity|]. split; [exact Hi|exact Hs].
  - vm_compute in Hrun. discriminate Hrun.
Defined.

Lemma serial_step_pushes st e st' :
  NatsSerial.step st e = Some st' →
  ∃ l, pushes (NatsSerial.history st') = pushes (NatsSerial.history st) ++ l
       ∧ l `sublist_of` serial_arrivals [e].
Proof.
  intros Hstep. unfold NatsSerial.step in Hstep.
  destruct (NatsSerial.exitCode st); [done|].
  assert (∀ st0, NatsSerial.history st0 = NatsSerial.history st →
            pushes (NatsSerial.history (NatsSerial.processQueue st0))
            = pushes (NatsSerial.history st) ++ []) as Hpq.
  { intros st0 E. rewrite app_nil_r.
    destruct (serial_processQueue_cases st0)
      as [(-> & _)|[(f & -> & _)|[(f & -> & _)| ->]]]; simpl; rewrite E;
      by rewrite ?pushes_snoc, ?app_nil_r. }
  destruct e as [p| | |f c|f attempts|f k attempts|h|dir]; simplify_eq/=.
  - destruct (serial_onMessage_cases p st) as [->|(f & Hf & _ & _ & Hcase)].
    + exists []. rewrite app_nil_r. split; [done|apply sublist_nil_l].
    + exists [f]. split.
      * destruct (serial_disarm_fields (NatsSerial.push f st))
          as (_ & _ & _ & _ & _ & _ & _ & Hh & _).
        destruct Hcase as [-> | ->]; simpl; rewrite Hh; simpl;
          by rewrite pushes_snoc.
      * unfold serial_arrivals. simpl. by rewrite Hf.
  - exists []. split; [by apply Hpq|done].
  - case_bool_decide; simplify_eq/=. exists []. split; [by apply Hpq|done].
  - case_bool_decide; simplify_eq/=. exists []. rewrite app_nil_r. split; [|done].
    destruct (serial_played_cases f (playFile c) st) as [->|(g & -> & _)]; simpl;
      by rewrite ?pushes_snoc, ?app_nil_r.
  - case_bool_decide; [|done].
    destruct (NatsSerial.syncFile _ _ _) as [[[r t] effs]|]; simplify_eq/=.
    exists []. by rewrite app_nil_r.
  - case_bool_decide; [|done].
    destruct (NatsSerial.syncFile _ _ _) as [[[r t] effs]|]; simplify_eq/=.
    exists []. by rewrite app_nil_r.
  - case_bool_decide; simplify_eq/=. exists []. by rewrite app_nil_r.
  - exists []. by rewrite app_nil_r.
Qed.

Lemma serial_run_pushes es : ∀ st st',
  NatsSerial.run st es = Some st' →
  ∃ l, pushes (NatsSerial.history st') = pushes (NatsSerial.history st) ++ l
       ∧ l `sublist_of` serial_arrivals es.
Proof.
  induction es as [|e es IH]; intros st st' Hrun.
  - simplify_eq/=. exists []. by rewrite app_nil_r.
  - simpl in Hrun. destruct (NatsSerial.step st e) as [st1|] eqn:He; [|done].
    destruct (serial_step_pushes _ _ _ He) as (l1 & Hl1 & Hs1).
    destruct (IH _ _ Hrun) as (l2 & Hl2 & Hs2).
    exists (l1 ++ l2). split; [by rewrite Hl2, Hl1, app_assoc|].
    change (serial_arrivals (e :: es)) with (serial_arrivals ([e] ++ es)).
    unfold serial_arrivals in *. rewrite omap_app. by apply sublist_app.
Qed.

(** X12. The serialized script plays in receipt order: in every reachable
    state the names handed to aplay followed by the queue are exactly the
    names pushed, and those are a subsequence of the .wav names received, so
    neither the retries of a transfer nor the transfer started right after a
    playback can reorder playback. *)
Theorem serial_fifo_by_receipt dir es st :
  NatsSerial.run (NatsSerial.init dir) es = Some st →
  plays (NatsSerial.history st) ++ NatsSerial.playQueue st
  = pushes (NatsSerial.history st)
  ∧ pushes (NatsSerial.history st) `sublist_of` serial_arrivals es.
Proof.
  intros Hrun. split.
  - by destruct (serial_inv_reachable _ _ _ Hrun).
  - destruct (serial_run_pushes _ _ _ Hrun) as (l & Hl & Hsub). by rewrite Hl.
Qed.

Lemma serial_fifo_by_receipt_witness :
  ∃ st,
    NatsSerial.run (NatsSerial.init ∅) serial_scenario_D = Some st
    ∧ plays (NatsSerial.history st) ++ NatsSerial.playQueue st
      = pushes (NatsSerial.history st).
Proof.
  destruct (NatsSerial.run (NatsSerial.init ∅) serial_scenario_D) as [st|] eqn:Hrun.
  - exists st. split; [reflexivity|].
    exact (proj1 (serial_fifo_by_receipt _ _ st Hrun)).
  - vm_compute in Hrun. discriminate Hrun.
Defined.

(** X13. No stall with work queued.  In a reachable state of
    sync_and_play_nats.js with no aplay running, and of the serialized script
    with no aplay and no transfer running, a [processQueue] on a non-empty
    queue always acts on the head: it starts its playback when the file
    exists and its transfer otherwise. *)
Theorem queued_work_is_taken_up :
  (∀ dir es st f rest,
     NatsOnly.run (NatsOnly.init dir) es = Some st →
     NatsOnly.aplays st = [] →
     NatsOnly.playQueue st = f :: rest →
     NatsOnly.processQueue st
     = if bool_decide (f ∈ NatsOnly.localFiles st)
       then NatsOnly.start_play f st else NatsOnly.spawn_scp f st)
  ∧ (∀ dir es st f rest,
       NatsSerial.run (NatsSerial.init dir) es = Some st →
       NatsSerial.aplays st = [] → NatsSerial.syncs st = [] →
       NatsSerial.playQueue st = f :: rest →
       NatsSerial.processQueue st
       = if bool_decide (f ∈ NatsSerial.localFiles st)
         then NatsSerial.start_play f st else NatsSerial.start_sync f st).
Proof.
  split.
  - intros dir es st f rest Hrun Ha Hq.
    destruct (nats_queue_inv_reachable _ _ _ Hrun) as [_ Hp].
    assert (NatsOnly.isPlaying st = false) as Hnp.
    { destruct (NatsOnly.isPlaying st); [|done]. destruct Hp as [g Hg].
      by rewrite Hg in Ha. }
    unfold NatsOnly.processQueue, NatsOnly.existsSync. by rewrite Hq, Hnp.
  - intros dir es st f rest Hrun Ha Hsy Hq.
    destruct (serial_inv_reachable _ _ _ Hrun) as (_ & Hp & Hs & _).
    assert (NatsSerial.isPlaying st = false) as Hnp.
    { destruct (NatsSerial.isPlaying st); [|done]. destruct Hp as [g Hg].
      by rewrite Hg in Ha. }
    assert (NatsSerial.isSyncing st = false) as Hns.
    { destruct (NatsSerial.isSyncing st); [|done]. destruct Hs as (g & Hg & _).
      by rewrite Hg in Hsy. }
    unfold NatsSerial.processQueue, NatsSerial.existsSync. by rewrite Hq, Hnp, Hns.
Qed.

End NatsCoverage.

(** ** [syncFile] of the serialized script: clock, throttle, failures *)
Section SyncFileCoverage.
Import NatsSerial.
Variable max_retries : nat.
Variable retry_delay : Z.

Lemma syncFile_with_unfold a rest k last :
  syncFile_with max_retries retry_delay (a :: rest) k last
  = let doSync :=
      (if bool_decide (0 < Z.max 0 (SYNC_DELAY - (now a - last)))
       then [Throttle (Z.max 0 (SYNC_DELAY - (now a - last)))] else [])
      ++ [Scp] in
    let retry :=
      match syncFile_with max_retries retry_delay rest (S k) last with
      | Some (r, t, effs) =>
          Some (r, t, doSync ++ Backoff (retry_delay * 2 ^ Z.of_nat k) :: effs)
      | None => None
      end in
    match outcome a with
    | Exit code stderr =>
        if bool_decide (code = 0) then Some (Resolved, closed_at a, doSync)
        else if isConnectionError code stderr && bool_decide (k < max_retries)%nat
        then retry
        else Some (Rejected, last, doSync)
    | SpawnError =>
        if bool_decide (k < max_retries)%nat
        then Some (Rejected, last,
                   doSync ++ [Orphan (retry_delay * 2 ^ Z.of_nat k) (S k)])
        else Some (Rejected, last, doSync)
    end.
Proof. reflexivity. Qed.

(** What one settled [syncFile] tells about the clock: a rejection leaves
    [lastSyncTime] alone, a resolution sets it to the close time of an attempt
    that ended with exit code 0; and when the clock has not gone back behind
    [lastSyncTime], every wait before an scp run is positive and at most
    [SYNC_DELAY]. *)
Lemma syncFile_with_clock attempts : ∀ k last r t effs,
  syncFile_with max_retries retry_delay attempts k last = Some (r, t, effs) →
  match r with
  | Rejected => t = last
  | Resolved =>
      ∃ a stderr, a ∈ attempts ∧ outcome a = Exit 0 stderr ∧ t = closed_at a
  end
  ∧ (Forall (λ a, (last ≤ now a)%Z) attempts →
     ∀ d, Throttle d ∈ effs → 0 < d ≤ SYNC_DELAY).
Proof.
  induction attempts as [|a rest IH]; intros k last r t effs Hrun; [done|].
  rewrite syncFile_with_unfold in Hrun. simpl in Hrun.
  set (d0 := Z.max 0 (SYNC_DELAY - (now a - last))) in *.
  set (pre := (if bool_decide (0 < d0) then [Throttle d0] else []) ++ [Scp]) in *.
  assert ((last ≤ now a)%Z → ∀ d, Throttle d ∈ pre → 0 < d ≤ SYNC_DELAY) as Hpre.
  { intros Hmono d Hd. subst pre. case_bool_decide as Hpos; simpl in Hd.
    - apply elem_of_cons in Hd as [[= ->]|Hd].
      + subst d0. lia.
      + by apply list_elem_of_singleton in Hd.
    - by apply list_elem_of_singleton in Hd. }
  assert (∀ r t effs,
    match syncFile_with max_retries retry_delay rest (S k) last with
    | Some (r, t, effs) =>
        Some (r, t, pre ++ Backoff (retry_delay * 2 ^ Z.of_nat k) :: effs)
    | None => None
    end = Some (r, t, effs) →
    match r with
    | Rejected => t = last
    | Resolved =>
        ∃ a' stderr, a' ∈ a :: rest ∧ outcome a' = Exit 0 stderr ∧ t = closed_at a'
    end
    ∧ (Forall (λ a, (last ≤ now a)%Z) (a :: rest) →
       ∀ d, Throttle d ∈ effs → 0 < d ≤ SYNC_DELAY)) as Hretry.
  { clear Hrun r t effs. intros r t effs Hrun.
    destruct (syncFile_with _ _ rest (S k) last) as [[[r' t'] effs']|] eqn:Hrec;
      [|done].
    simplify_eq. destruct (IH _ _ _ _ _ Hrec) as [Hclock Hthr]. split.
    - destruct r; [|done]. destruct Hclock as (a' & stderr & Hin & Hok & Ht).
      exists a', stderr. split; [by right|done].
    - intros [Hmono Hall]%Forall_cons d [Hd|Hd]%elem_of_app.
      + by apply Hpre.
      + apply elem_of_cons in Hd as [?|Hd]; [done|]. by apply Hthr. }
  assert (Forall (λ a, (last ≤ now a)%Z) (a :: rest) →
          ∀ d, Throttle d ∈ pre → 0 < d ≤ SYNC_DELAY) as Hstop.
  { intros [Hmono _]%Forall_cons. by apply Hpre. }
  destruct (outcome a) as [code stderr|] eqn:Hout.
  - case_bool_decide as Hcode.
    + simplify_eq. split; [|done]. exists a, stderr. split; [left|done].
    + destruct (isConnectionError code stderr); simpl in Hrun.
      * case_bool_decide; [by apply Hretry|by simplify_eq].
      * by simplify_eq.
  - case_bool_decide; simplify_eq; (split; [done|]); [|done].
    intros Hall d [Hd|Hd]%elem_of_app; [by apply Hstop|].
    by apply list_elem_of_singleton in Hd.
Qed.


(** Connection failures within the limit, then a failed spawn. *)
Lemma syncFile_with_spawn_error_after fails : ∀ a rest k last,
  Forall transient fails →
  (k + length fails ≤ max_retries)%nat →
  outcome a = SpawnError →
  ∃ effs,
    syncFile_with max_retries retry_delay (fails ++ a :: rest) k last
      = Some (Rejected, last, effs)
    ∧ backoffs effs
      = map (fun i => retry_delay * 2 ^ Z.of_nat (k + i)) (seq 0 (length fails))
    ∧ scp_runs effs = S (length fails)
    ∧ orphans effs
      = (if bool_decide (k + length fails < max_retries)%nat
         then [S (k + length fails)] else []).
Proof.
  induction fails as [|b fails IH]; intros a rest k last Hall Hlen Hout.
  - destruct (syncFile_with_spawn_error max_retries retry_delay a rest k last Hout)
      as (effs & Hrun & Hb & Hs & Ho).
    exists effs. rewrite Nat.add_0_r. split; [exact Hrun|]. done.
  - apply Forall_cons in Hall as [Hb Hall]. simpl in Hlen.
    destruct (IH a rest (S k) last Hall ltac:(lia) Hout)
      as (effs & Hrec & Hd & Hn & Ho).
    change ((b :: fails) ++ a :: rest) with (b :: (fails ++ a :: rest)).
    rewrite syncFile_with_unfold. simpl. rewrite Hrec. unfold transient in Hb.
    destruct (outcome b) as [code err|]; [|done]. destruct Hb as [Hne Hconn].
    rewrite bool_decide_eq_false_2 by done. rewrite Hconn. simpl.
    rewrite (bool_decide_eq_true_2 (k < max_retries)%nat) by lia.
    eexists. split; [done|].
    destruct (doSync_effects (Z.max 0 (SYNC_DELAY - (now b - last)))) as [Hb0 Hs0].
    pose proof (doSync_orphans (Z.max 0 (SYNC_DELAY - (now b - last)))) as Ho0.
    simpl in Hb0, Hs0.
    rewrite backoffs_app, scp_runs_app, orphans_app, Hb0, Hs0, Ho0.
    change (scp_runs (Backoff (retry_delay * 2 ^ Z.of_nat k) :: effs))
      with (scp_runs effs).
    change (orphans (Backoff (retry_delay * 2 ^ Z.of_nat k) :: effs))
      with (orphans effs).
    change (backoffs (Backoff (retry_delay * 2 ^ Z.of_nat k) :: effs))
      with (retry_delay * 2 ^ Z.of_nat k :: backoffs effs).
    rewrite Hn, Ho, Hd. simpl. rewrite Nat.add_0_r.
    replace (k + S (length fails))%nat with (S (k + length fails))%nat by lia.
    split; [|done]. f_equal.
    rewrite <- seq_shift, map_map. apply map_ext. intros i.
    by rewrite Nat.add_succ_r.
Qed.

(** Retries are left behind by rejections only, one at most, with a
    [retryCount] above the call's and within the limit. *)
Lemma syncFile_with_orphans attempts : ∀ k last r t effs,
  syncFile_with max_retries retry_delay attempts k last = Some (r, t, effs) →
  (r = Resolved → orphans effs = [])
  ∧ (length (orphans effs) ≤ 1)%nat
  ∧ Forall (λ j, (k < j ≤ max_retries)%nat) (orphans effs).
Proof.
  induction attempts as [|a rest IH]; intros k last r t effs Hrun; [done|].
  rewrite syncFile_with_unfold in Hrun. simpl in Hrun.
  pose proof (doSync_orphans (Z.max 0 (SYNC_DELAY - (now a - last)))) as Ho.
  set (pre := (if bool_decide (0 < Z.max 0 (SYNC_DELAY - (now a - last)))
               then [Throttle (Z.max 0 (SYNC_DELAY - (now a - last)))]
               else []) ++ [Scp]) in *.
  assert ((r = Resolved → orphans pre = [])
          ∧ (length (orphans pre) ≤ 1)%nat
          ∧ Forall (λ j, (k < j ≤ max_retries)%nat) (orphans pre)) as Hstop.
  { rewrite Ho. simpl. repeat split; [lia|constructor]. }
  destruct (outcome a) as [code stderr|] eqn:Hout.
  - destruct (bool_decide (code = 0)); [by simplify_eq|].
    destruct (isConnectionError code stderr); simpl in Hrun; [|by simplify_eq].
    destruct (bool_decide (k < max_retries)%nat); [|by simplify_eq].
    destruct (syncFile_with _ _ rest (S k) last) as [[[r' t'] effs']|] eqn:Hrec;
      [|done].
    simplify_eq. destruct (IH _ _ _ _ _ Hrec) as (Hres & Hlen & Hall).
    rewrite orphans_app, Ho. simpl.
    change (orphans (Backoff (retry_delay * 2 ^ Z.of_nat k) :: effs'))
      with (orphans effs').
    split; [done|]. split; [done|].
    eapply Forall_impl; [exact Hall|]. simpl. intros j ?. lia.
  - destruct (decide (k < max_retries)%nat) as [Hk|Hk].
    + rewrite (bool_decide_eq_true_2 _ Hk) in Hrun. simplify_eq.
      rewrite orphans_app, Ho. simpl. split; [done|]. split; [lia|].
      constructor; [lia|constructor].
    + rewrite (bool_decide_eq_false_2 _ Hk) in Hrun. by simplify_eq.
Qed.

(** X15. A failed spawn in [syncFile].  When scp cannot be spawned the
    promise rejects at once, for every [retryCount]: one scp, no wait.
    While [retryCount < max_retries] the retry that the 'error' handler
    scheduled is left behind to run [syncFile] with [retryCount + 1]; it
    settles nothing.  After [n] connection failures within the limit the
    same happens at the spawn that fails: the promise rejects after the [n]
    waits made so far, and a retry with [retryCount = n + 1] is left behind
    when [n < max_retries].  Retries are left behind by rejected promises
    only, at most one per call, each with a [retryCount] above the call's
    and at most [max_retries]. *)
Theorem syncFile_failed_spawn_leaves_retry :
  (∀ a rest k last,
     outcome a = SpawnError →
     ∃ effs,
       syncFile_with max_retries retry_delay (a :: rest) k last
         = Some (Rejected, last, effs)
       ∧ backoffs effs = [] ∧ scp_runs effs = 1%nat
       ∧ orphans effs = (if bool_decide (k < max_retries)%nat then [S k] else []))
  ∧ (∀ fails a rest last,
       Forall transient fails →
       (length fails ≤ max_retries)%nat →
       outcome a = SpawnError →
       ∃ effs,
         syncFile_with max_retries retry_delay (fails ++ a :: rest) 0 last
           = Some (Rejected, last, effs)
         ∧ backoffs effs
           = map (λ i, retry_delay * 2 ^ Z.of_nat i) (seq 0 (length fails))
         ∧ scp_runs effs = S (length fails)
         ∧ orphans effs
           = (if bool_decide (length fails < max_retries)%nat
              then [S (length fails)] else []))
  ∧ (∀ attempts k last r t effs,
       syncFile_with max_retries retry_delay attempts k last = Some (r, t, effs) →
       (r = Resolved → orphans effs = [])
       ∧ (length (orphans effs) ≤ 1)%nat
       ∧ Forall (λ j, (k < j ≤ max_retries)%nat) (orphans effs)).
Proof.
  split; [|split].
  - intros a rest k last. apply syncFile_with_spawn_error.
  - intros fails a rest last Hall Hlen Hout.
    by apply (syncFile_with_spawn_error_after fails a rest 0 last).
  - intros attempts k last r t effs. apply syncFile_with_orphans.
Qed.

End SyncFileCoverage.


Lemma syncFile_failed_spawn_leaves_retry_witness :
  ∃ effs,
    NatsSerial.syncFile
      ([NatsSerial.mkAttempt 1000 refused 1100]
       ++ [NatsSerial.mkAttempt 3100 SpawnError 3100]) 0 0
    = Some (Rejected, 0, effs)
    ∧ NatsSerial.backoffs effs = [2000]
    ∧ NatsSerial.scp_runs effs = 2%nat
    ∧ NatsSerial.orphans effs = [2%nat].
Proof.
  destruct (syncFile_failed_spawn_leaves_retry NatsSerial.MAX_SYNC_RETRIES
              NatsSerial.RETRY_DELAY) as (_ & Hafter & _).
  apply (Hafter [NatsSerial.mkAttempt 1000 refused 1100]
           (NatsSerial.mkAttempt 3100 SpawnError 3100) [] 0).
  - apply Forall_cons. split; [|apply Forall_nil_2].
    split; [discriminate|reflexivity].
  - vm_compute. lia.
  - reflexivity.
Defined.

(** ** Retries left behind in the serialized script *)
Section LeftBehind.
Import NatsSerial.

Lemma serial_remove_retry_subseteq x l : remove_retry x l ⊆ l.
Proof.
  induction l as [|y l IH]; [done|]. simpl. case_bool_decide.
  - by apply list_subseteq_cons.
  - intros z [->|Hz]%elem_of_cons; [left|right; by apply IH].
Qed.

Lemma serial_retries_inv_step st e st' :
  Forall (λ x, (1 ≤ x.2 ≤ MAX_SYNC_RETRIES)%nat) (retries st) →
  step st e = Some st' →
  Forall (λ x, (1 ≤ x.2 ≤ MAX_SYNC_RETRIES)%nat) (retries st').
Proof.
  intros Hinv Hstep. unfold step in Hstep.
  destruct (exitCode st); [done|].
  assert (∀ st0, retries st0 = retries st →
            retries (processQueue st0) = retries st) as Hpq.
  { intros st0 E.
    destruct (serial_processQueue_cases st0)
      as [(-> & _)|[(f & -> & _)|[(f & -> & _)| ->]]]; done. }
  assert (∀ f (l : list (string * nat)) k attempts r t effs,
            syncFile attempts k (lastSyncTime st) = Some (r, t, effs) →
            Forall (λ x, (1 ≤ x.2 ≤ MAX_SYNC_RETRIES)%nat) l →
            Forall (λ x, (1 ≤ x.2 ≤ MAX_SYNC_RETRIES)%nat)
                   (l ++ map (λ j, (f, j)) (orphans effs))) as Hadd.
  { intros f l k attempts r t effs Hsync Hl.
    destruct (syncFile_with_orphans _ _ _ _ _ _ _ _ Hsync) as (_ & _ & Hall).
    apply Forall_app. split; [done|]. apply Forall_map.
    eapply Forall_impl; [exact Hall|]. simpl. intros j ?. lia. }
  destruct e as [p| | |f c|f attempts|f k attempts|h|dir]; simpl in Hstep.
  - injection Hstep as <-.
    destruct (serial_onMessage_cases p st) as [->|(f & _ & _ & _ & [-> | ->])];
      [done| |]; simpl; unfold disarm; simpl; by destruct (idleTimer st).
  - injection Hstep as <-. by rewrite Hpq.
  - destruct (bool_decide _); [|done]. injection Hstep as <-.
    unfold run_immediate. by rewrite Hpq.
  - destruct (bool_decide _); [|done]. injection Hstep as <-.
    by destruct (serial_played_cases f (playFile c) st) as [->|(g & -> & _)].
  - destruct (bool_decide _); [|done].
    destruct (syncFile attempts 0 (lastSyncTime st)) as [[[r t] effs]|] eqn:Hsync;
      [|done].
    injection Hstep as <-. simpl. by eapply Hadd.
  - destruct (bool_decide _); [|done].
    destruct (syncFile attempts k (lastSyncTime st)) as [[[r t] effs]|] eqn:Hsync;
      [|done].
    injection Hstep as <-. simpl. eapply Hadd; [exact Hsync|].
    eapply Forall_forall. intros x Hx. eapply Forall_forall in Hinv; [exact Hinv|].
    by apply (serial_remove_retry_subseteq (f, k)).
  - destruct (bool_decide _); [|done]. by injection Hstep as <-.
  - by injection Hstep as <-.
Qed.

(** X23. The retries that failed spawns leave behind in the serialized
    script.  In every reachable state each of them has a [retryCount]
    between 1 and [MAX_SYNC_RETRIES].  When one comes to its end nobody is
    waiting for it: [isSyncing], [isPlaying], the queue, [playedFiles], the
    idle timer and what [processQueue] waits for are as before, whatever
    they are; if its scp succeeded the file is in LOCAL_DIR and
    [lastSyncTime] is the close time of that scp; otherwise [lastSyncTime]
    is unchanged; and it leaves at most one further retry behind, with a
    larger [retryCount]. *)
Theorem serial_left_behind_retries dir es st :
  run (init dir) es = Some st →
  Forall (λ x, (1 ≤ x.2 ≤ MAX_SYNC_RETRIES)%nat) (retries st)
  ∧ ∀ f k attempts st',
      step st (RetryDone f k attempts) = Some st' →
      ∃ r t effs,
        syncFile attempts k (lastSyncTime st) = Some (r, t, effs)
        ∧ isSyncing st' = isSyncing st ∧ isPlaying st' = isPlaying st
        ∧ playQueue st' = playQueue st ∧ playedFiles st' = playedFiles st
        ∧ syncs st' = syncs st ∧ aplays st' = aplays st
        ∧ idleTimer st' = idleTimer st ∧ timeouts st' = timeouts st
        ∧ history st' = history st
        ∧ lastSyncTime st' = t
        ∧ match r with
          | Resolved =>
              f ∈ localFiles st'
              ∧ ∃ a stderr, a ∈ attempts ∧ outcome a = Exit 0 stderr
                            ∧ t = closed_at a
          | Rejected => localFiles st' = localFiles st ∧ t = lastSyncTime st
          end
        ∧ retries st'
          = remove_retry (f, k) (retries st) ++ map (λ j, (f, j)) (orphans effs)
        ∧ (length (orphans effs) ≤ 1)%nat
        ∧ Forall (λ j, (k < j)%nat) (orphans effs).
Proof.
  intros Hrun. split.
  - revert Hrun.
    apply (serial_run_invariant
             (λ st, Forall (λ x, (1 ≤ x.2 ≤ MAX_SYNC_RETRIES)%nat) (retries st)));
      [apply serial_retries_inv_step|].
    constructor.
  - intros f k attempts st' Hstep. unfold step in Hstep.
    destruct (exitCode st); [done|]. destruct (bool_decide _); [|done].
    destruct (syncFile attempts k (lastSyncTime st)) as [[[r t] effs]|] eqn:Hsync;
      [|done].
    injection Hstep as <-. exists r, t, effs. split; [done|].
    destruct (syncFile_with_orphans _ _ _ _ _ _ _ _ Hsync) as (_ & Hlen & Hall).
    destruct (syncFile_with_clock _ _ _ _ _ _ _ _ Hsync) as [Hclock _].
    simpl. repeat split; try done.
    + destruct r; [|done]. split; [|done].
      apply elem_of_union. left. by apply elem_of_singleton.
    + eapply Forall_impl; [exact Hall|]. simpl. intros j ?. lia.
Qed.

Lemma serial_left_behind_retries_witness :
  ∃ st st',
    run (init ∅)
      [arrival "seg_001.wav"; Immediate;
       SyncDone "seg_001.wav" [mkAttempt 1000 SpawnError 1000];
       Tick] = Some st
    ∧ retries st = [("seg_001.wav", 1%nat)]
    ∧ syncs st = ["seg_001.wav"]
    ∧ step st (RetryDone "seg_001.wav" 1 [mkAttempt 3000 (Exit 0 "") 3400])
      = Some st'
    ∧ isSyncing st' = true
    ∧ lastSyncTime st' = 3400
    ∧ retries st' = [].
Proof.
  destruct (run (init ∅)
              [arrival "seg_001.wav"; Immediate;
               SyncDone "seg_001.wav" [mkAttempt 1000 SpawnError 1000];
               Tick]) as [st|] eqn:Hrun;
    [|vm_compute in Hrun; discriminate Hrun].
  assert (retries st = [("seg_001.wav", 1%nat)] ∧ syncs st = ["seg_001.wav"]
          ∧ isSyncing st = true) as (Hr & Hs & Hsy).
  { vm_compute in Hrun. injection Hrun as <-. repeat split; reflexivity. }
  destruct (step st (RetryDone "seg_001.wav" 1 [mkAttempt 3000 (Exit 0 "") 3400]))
    as [st'|] eqn:Hstep;
    [|vm_compute in Hrun; injection Hrun as <-; vm_compute in Hstep;
      discriminate Hstep].
  destruct (serial_left_behind_retries _ _ st Hrun) as [_ Hdone].
  destruct (Hdone _ _ _ _ Hstep)
    as (r & t & effs & Hsync & Hsy' & _ & _ & _ & _ & _ & _ & _ & _ & Ht & _
        & Hr' & _).
  assert (t = 3400 ∧ effs = [Scp]) as [-> ->].
  { vm_compute in Hrun. injection Hrun as <-. vm_compute in Hsync.
    injection Hsync as _ <- <-. done. }
  exists st, st'. split; [reflexivity|]. split; [exact Hr|]. split; [exact Hs|].
  split; [exact Hstep|]. split; [by rewrite Hsy', Hsy|]. split; [exact Ht|].
  rewrite Hr', Hr. vm_compute. reflexivity.
Defined.

End LeftBehind.

(** ** The script of unnamed/part_000 *)
Section HybridCoverage.
Import Hybrid.

Lemma hybrid_disarm_frame st :
  playedFiles (disarm st) = playedFiles st
  ∧ playQueue (disarm st) = playQueue st
  ∧ isPlaying (disarm st) = isPlaying st
  ∧ natsClient (disarm st) = natsClient st
  ∧ RSYNC_INTERVAL (disarm st) = RSYNC_INTERVAL st
  ∧ aplays (disarm st) = aplays st
  ∧ rsyncs (disarm st) = rsyncs st
  ∧ handling (disarm st) = handling st
  ∧ started (disarm st) = started st
  ∧ closing (disarm st) = closing st
  ∧ history (disarm st) = history st
  ∧ localDir (disarm st) = localDir st.
Proof. unfold disarm. destruct (idleTimer st); simpl; repeat split; done. Qed.

Lemma hybrid_enqueue_frame f st :
  isPlaying (enqueue f st) = isPlaying st
  ∧ natsClient (enqueue f st) = natsClient st
  ∧ RSYNC_INTERVAL (enqueue f st) = RSYNC_INTERVAL st
  ∧ aplays (enqueue f st) = aplays st
  ∧ rsyncs (enqueue f st) = rsyncs st
  ∧ handling (enqueue f st) = handling st
  ∧ started (enqueue f st) = started st
  ∧ closing (enqueue f st) = closing st.
Proof.
  unfold enqueue. destruct (_ && _); [|repeat split; done].
  destruct (hybrid_disarm_frame (push f st))
    as (_ & _ & -> & -> & -> & -> & -> & -> & -> & -> & _).
  repeat split; done.
Qed.

(** The listing part of [processFiles]: the variables it leaves alone, and
    the one thing it may start. *)
Lemma hybrid_processListing_frame st :
  playedFiles (processListing st) = playedFiles st
  ∧ playQueue (processListing st) = playQueue st
  ∧ natsClient (processListing st) = natsClient st
  ∧ RSYNC_INTERVAL (processListing st) = RSYNC_INTERVAL st
  ∧ rsyncs (processListing st) = rsyncs st
  ∧ handling (processListing st) = handling st
  ∧ started (processListing st) = started st
  ∧ closing (processListing st) = closing st
  ∧ localDir (processListing st) = localDir st
  ∧ ((isPlaying (processListing st) = isPlaying st
      ∧ aplays (processListing st) = aplays st
      ∧ history (processListing st) = history st)
     ∨ (∃ f, isPlaying st = false
             ∧ head (unplayed (getWavFiles st) st) = Some f
             ∧ isPlaying (processListing st) = true
             ∧ aplays (processListing st) = aplays st ++ [f]
             ∧ history (processListing st) = history st ++ [Play f])).
Proof.
  unfold processListing.
  set (files := getWavFiles st).
  set (st1 := if bool_decide (_ ≠ _) then _ else st).
  assert (playedFiles st1 = playedFiles st ∧ playQueue st1 = playQueue st
          ∧ isPlaying st1 = isPlaying st ∧ natsClient st1 = natsClient st
          ∧ RSYNC_INTERVAL st1 = RSYNC_INTERVAL st ∧ aplays st1 = aplays st
          ∧ rsyncs st1 = rsyncs st ∧ handling st1 = handling st
          ∧ started st1 = started st ∧ closing st1 = closing st
          ∧ history st1 = history st ∧ localDir st1 = localDir st)
    as (Hp & Hq & Hi & Hn & Hr & Ha & Hs & Hh & Hst & Hc & Hhist & Hd).
  { subst st1. case_bool_decide; [|repeat split; done].
    apply (hybrid_disarm_frame (set_lastFileCount (length files) st)). }
  destruct (_ && _ && _).
  { destruct (idleTimer st1); simpl; repeat split; try done; left; done. }
  destruct (bool_decide (0 < length (unplayed files st))%nat) eqn:Hlen; simpl;
    [|repeat split; try done; left; done].
  destruct (isPlaying st1) eqn:Hi1; simpl;
    [repeat split; try done; left; split; [congruence|done]|].
  destruct (head (unplayed files st)) as [f|] eqn:Hhd; simpl;
    [|repeat split; try done; left; split; [congruence|done]].
  repeat split; try done. right. exists f.
  rewrite Ha, Hhist. split; [congruence|]. done.
Qed.

(** [processFiles]: likewise, with the queue. *)
Lemma hybrid_processFiles_frame st :
  playedFiles (processFiles st) = playedFiles st
  ∧ natsClient (processFiles st) = natsClient st
  ∧ RSYNC_INTERVAL (processFiles st) = RSYNC_INTERVAL st
  ∧ rsyncs (processFiles st) = rsyncs st
  ∧ handling (processFiles st) = handling st
  ∧ started (processFiles st) = started st
  ∧ closing (processFiles st) = closing st
  ∧ localDir (processFiles st) = localDir st
  ∧ ((isPlaying (processFiles st) = isPlaying st
      ∧ aplays (processFiles st) = aplays st
      ∧ history (processFiles st) = history st
      ∧ playQueue (processFiles st) = playQueue st)
     ∨ (∃ f, isPlaying st = false
             ∧ isPlaying (processFiles st) = true
             ∧ aplays (processFiles st) = aplays st ++ [f]
             ∧ history (processFiles st) = history st ++ [Play f]
             ∧ ((head (playQueue st) = Some f ∧ existsSync f st = true
                 ∧ playQueue (processFiles st) = tail (playQueue st))
                ∨ (head (unplayed (getWavFiles st) st) = Some f
                   ∧ playQueue (processFiles st) = playQueue st
                   ∧ ∀ g, head (playQueue st) = Some g →
                          existsSync g st = false)))).
Proof.
  destruct (hybrid_processListing_frame st)
    as (Hp & Hq & Hn & Hr & Hs & Hh & Hst & Hc & Hd & Hplay).
  assert ((∀ g, head (playQueue st) = Some g → existsSync g st = false) →
          processFiles st = processListing st →
          playedFiles (processFiles st) = playedFiles st
  ∧ natsClient (processFiles st) = natsClient st
  ∧ RSYNC_INTERVAL (processFiles st) = RSYNC_INTERVAL st
  ∧ rsyncs (processFiles st) = rsyncs st
  ∧ handling (processFiles st) = handling st
  ∧ started (processFiles st) = started st
  ∧ closing (processFiles st) = closing st
  ∧ localDir (processFiles st) = localDir st
  ∧ ((isPlaying (processFiles st) = isPlaying st
      ∧ aplays (processFiles st) = aplays st
      ∧ history (processFiles st) = history st
      ∧ playQueue (processFiles st) = playQueue st)
     ∨ (∃ f, isPlaying st = false
             ∧ isPlaying (processFiles st) = true
             ∧ aplays (processFiles st) = aplays st ++ [f]
             ∧ history (processFiles st) = history st ++ [Play f]
             ∧ ((head (playQueue st) = Some f ∧ existsSync f st = true
                 ∧ playQueue (processFiles st) = tail (playQueue st))
                ∨ (head (unplayed (getWavFiles st) st) = Some f
                   ∧ playQueue (processFiles st) = playQueue st
                   ∧ ∀ g, head (playQueue st) = Some g →
                          existsSync g st = false))))) as Hlisting.
  { intros Hmissing ->. repeat split; try done.
    destruct Hplay as [(? & ? & ?)|(f & ? & ? & ? & ? & ?)].
    - left. done.
    - right. exists f. repeat split; try done. right. done. }
  unfold processFiles in *.
  destruct (bool_decide (0 < length (playQueue st))%nat) eqn:Hlen; simpl in *.
  2:{ apply Hlisting; [|done]. intros g Hg.
      apply bool_decide_eq_false in Hlen.
      destruct (playQueue st); [done|simpl in Hlen; lia]. }
  destruct (isPlaying st) eqn:Hplaying; simpl in *.
  { clear Hlisting. repeat split; try done.
    destruct Hplay as [(? & ? & ?)|(f & ? & _)]; [|done]. left. done. }
  destruct (head (playQueue st)) as [q|] eqn:Hhd.
  2:{ apply Hlisting; done. }
  destruct (existsSync q st) eqn:Hex.
  2:{ apply Hlisting; [|done]. intros g [= <-]. done. }
  simpl. repeat split; try done. right. exists q. repeat split; try done.
  left. done.
Qed.

Lemma hybrid_playing_inv_step st e st' :
  hybrid_playing_inv st → step st e = Some st' → hybrid_playing_inv st'.
Proof.
  unfold hybrid_playing_inv. intros Hinv Hstep. unfold step in Hstep.
  destruct (exitCode st); [done|].
  destruct e as [p|c| | |f c|h| |dir]; simplify_eq/=.
  - destruct (_ && _); simplify_eq/=. unfold onMessage.
    destruct (wav_filename p) as [[f|]|]; try done.
    case_bool_decide; [done|].
    by destruct (hybrid_enqueue_frame f st) as (-> & _ & _ & -> & _).
  - case_bool_decide; [|done]. destruct (handling st) as [f|].
    + simplify_eq/=. unfold onMessage_synced.
      destruct (syncFiles c);
        by destruct (hybrid_enqueue_frame f (reap_rsync None st))
          as (-> & _ & _ & -> & _).
    + destruct (started st); simplify_eq/=; [done|].
      unfold initial_sync. by destruct (syncFiles c).
  - by destruct (_ && _); simplify_eq/=.
  - destruct (started st); simplify_eq/=.
    destruct (hybrid_processFiles_frame st)
      as (_ & _ & _ & _ & _ & _ & _ & _ & Hplay).
    destruct Hplay as [(-> & -> & _)|(f & Hp & -> & -> & _)]; [done|].
    rewrite Hp in Hinv. rewrite Hinv. by exists f.
  - case_bool_decide as Hin; simplify_eq/=.
    destruct (isPlaying st); [|by rewrite Hinv in Hin; apply elem_of_nil in Hin].
    destruct Hinv as [g Hg]. rewrite Hg in *. by apply remove1_singleton.
  - case_bool_decide as Hin; simplify_eq/=.
    unfold idle_fired. by destruct (natsClient st).
  - by destruct (closing st); simplify_eq/=.
  - done.
Qed.

(** X16. One playback at a time in unnamed/part_000: in every state of a run
    at most one aplay child exists, and [isPlaying] is set exactly while it
    does; a timer tick during a playback starts nothing, whatever is queued
    or listed. *)
Theorem hybrid_one_playback_at_a_time connected interval dir es st :
  run (init connected interval dir) es = Some st →
  (length (aplays st) ≤ 1)%nat
  ∧ (isPlaying st = true ↔ aplays st ≠ [])
  ∧ (aplays st ≠ [] →
     history (processFiles st) = history st
     ∧ aplays (processFiles st) = aplays st
     ∧ playQueue (processFiles st) = playQueue st).
Proof.
  intros Hrun.
  assert (hybrid_playing_inv st) as Hinv.
  { revert Hrun. apply hybrid_run_invariant; [apply hybrid_playing_inv_step|done]. }
  unfold hybrid_playing_inv in Hinv.
  destruct (isPlaying st) eqn:Hp.
  - destruct Hinv as [f Hf]. rewrite Hf. split; [simpl; lia|].
    split; [done|]. intros _.
    destruct (hybrid_processFiles_frame st)
      as (_ & _ & _ & _ & _ & _ & _ & _ & Hplay).
    destruct Hplay as [(_ & Ha & Hh & Hq)|(g & Hg & _)]; [|congruence].
    by rewrite <- Hf.
  - rewrite Hinv. split; [simpl; lia|]. split; [done|]. done.
Qed.

Lemma hybrid_one_playback_at_a_time_witness :
  ∃ st,
    run (init true (Some 0) (Some {["a.wav"]}))
        [arrival "a.wav"; RsyncDone (Exit 0 ""); Tick; arrival "b.wav"]
      = Some st
    ∧ aplays st = ["a.wav"]
    ∧ (length (aplays st) ≤ 1)%nat.
Proof.
  destruct (run (init true (Some 0) (Some {["a.wav"]}))
              [arrival "a.wav"; RsyncDone (Exit 0 ""); Tick; arrival "b.wav"])
    as [st|] eqn:Hrun.
  - exists st. split; [reflexivity|].
    split; [vm_compute in Hrun; injection Hrun as <-; reflexivity|].
    apply (hybrid_one_playback_at_a_time _ _ _ _ _ Hrun).
  - vm_compute in Hrun. discriminate Hrun.
Defined.

(** X17. What a tick of unnamed/part_000 can start, when the .wav names of
    the listing are ASCII.  A tick starts at most one playback, and only
    when none is running.  The file is the head of [playQueue] if that file
    exists locally (the head is then shifted off); otherwise, with the queue
    untouched, it is the first .wav name of the listing, in ascending order
    of characters (the order of [sort()] on such names), that is neither
    played nor queued, so a queued name whose file is missing does not block
    the files that are there. *)
Theorem hybrid_tick_plays st st' f :
  Forall ascii_name (getWavFiles st) →
  step st Tick = Some st' →
  history st' = history st ++ [Play f] →
  isPlaying st = false
  ∧ aplays st' = aplays st ++ [f]
  ∧ playedFiles st' = playedFiles st
  ∧ ((head (playQueue st) = Some f ∧ existsSync f st = true
      ∧ playQueue st' = tail (playQueue st))
     ∨ (playQueue st' = playQueue st
        ∧ (∀ g, head (playQueue st) = Some g → existsSync g st = false)
        ∧ f ∈ getWavFiles st ∧ (f ∉ playedFiles st) ∧ (f ∉ playQueue st)
        ∧ ∀ g, g ∈ getWavFiles st → g ∉ playedFiles st → g ∉ playQueue st →
               string_le f g)).
Proof.
  intros _ Hstep Hhist. unfold step in Hstep.
  destruct (exitCode st); [done|]. destruct (started st); simplify_eq/=.
  destruct (hybrid_processFiles_frame st)
    as (Hp & _ & _ & _ & _ & _ & _ & _ & Hplay).
  destruct Hplay as [(_ & _ & Hh & _)|(g & Hplaying & _ & Ha & Hh & Hwhich)].
  { rewrite Hh in Hhist. apply (f_equal length) in Hhist.
    rewrite length_app in Hhist. simpl in Hhist. lia. }
  rewrite Hh in Hhist. apply app_inj_tail in Hhist as [_ [= ->]].
  split; [done|]. split; [done|]. split; [done|].
  destruct Hwhich as [?|(Hhd & Hq & Hmissing)]; [by left|right].
  split; [done|]. split; [done|].
  assert (StronglySorted string_le (getWavFiles st)) as Hsorted.
  { apply getWavFiles_sorted_hybrid. }
  unfold unplayed in Hhd.
  destruct (head_filter_least string_le _ _ _ Hsorted Hhd)
    as ([Hnp Hnq] & Hin & Hleast).
  split; [done|]. split; [done|]. split; [done|].
  intros g' Hg' Hnp' Hnq'.
  destruct (Hleast g' Hg' (conj Hnp' Hnq')) as [->|?]; [|done].
  destruct (String.leb_total f f); done.
Qed.

Lemma hybrid_tick_plays_witness :
  ∃ st st',
    run (init true None (Some {["seg_002.wav"; "seg_001.wav"]}))
        [arrival "gone.wav"] = Some st
    ∧ step st Tick = Some st'
    ∧ playQueue st' = ["gone.wav"]
    ∧ aplays st' = ["seg_001.wav"].
Proof.
  destruct (run (init true None (Some {["seg_002.wav"; "seg_001.wav"]}))
              [arrival "gone.wav"]) as [st|] eqn:Hrun;
    [|vm_compute in Hrun; discriminate Hrun].
  destruct (step st Tick) as [st'|] eqn:Hstep;
    [|vm_compute in Hrun; injection Hrun as <-; vm_compute in Hstep;
      discriminate Hstep].
  exists st, st'. split; [reflexivity|]. split; [exact Hstep|].
  assert (history st' = history st ++ [Play "seg_001.wav"]) as Hhist.
  { vm_compute in Hrun. injection Hrun as <-.
    vm_compute in Hstep. injection Hstep as <-. reflexivity. }
  assert (playQueue st = ["gone.wav"] ∧ aplays st = []) as [Hq Ha].
  { vm_compute in Hrun. injection Hrun as <-. split; reflexivity. }
  assert (Forall ascii_name (getWavFiles st)) as Hascii.
  { vm_compute in Hrun. injection Hrun as <-. vm_compute. repeat constructor. }
  destruct (hybrid_tick_plays st st' "seg_001.wav" Hascii Hstep Hhist)
    as (_ & Ha' & _ & [(Hhd & _)|(Hq' & _)]).
  - rewrite Hq in Hhd. discriminate Hhd.
  - rewrite Hq', Hq, Ha', Ha. done.
Defined.

Lemma hybrid_sync_inv_step interval st e st' :
  hybrid_sync_inv interval st → step st e = Some st' →
  hybrid_sync_inv interval st'.
Proof.
  unfold hybrid_sync_inv. intros [<- Hinv] Hstep. unfold step in Hstep.
  destruct (exitCode st); [done|].
  destruct e as [p|c| | |f c|h| |dir]; simpl in Hstep.
  - destruct (natsClient st); simpl in Hstep; [|done].
    destruct (decide (handling st = None)) as [Hh|Hh];
      [rewrite (bool_decide_eq_true_2 _ Hh) in Hstep
      |by rewrite (bool_decide_eq_false_2 _ Hh) in Hstep].
    injection Hstep as <-. unfold onMessage.
    destruct (wav_filename p) as [[f|]|]; try done.
    destruct (decide (RSYNC_INTERVAL st = Some 0)) as [Hmode|Hmode].
    + rewrite (bool_decide_eq_true_2 _ Hmode) in *. simpl. split; [done|].
      rewrite Hh in Hinv. destruct Hinv as [-> ->]. done.
    + rewrite (bool_decide_eq_false_2 _ Hmode) in *.
      by destruct (hybrid_enqueue_frame f st)
        as (_ & _ & -> & _ & -> & -> & -> & _).
  - destruct (decide (0 < rsyncs st)%nat) as [Hpos|Hpos];
      [rewrite (bool_decide_eq_true_2 _ Hpos) in Hstep
      |by rewrite (bool_decide_eq_false_2 _ Hpos) in Hstep].
    destruct (handling st) as [f|] eqn:Hh.
    + injection Hstep as <-.
      assert (RSYNC_INTERVAL (onMessage_synced f (syncFiles c) st)
                = RSYNC_INTERVAL st
              ∧ rsyncs (onMessage_synced f (syncFiles c) st) = pred (rsyncs st)
              ∧ handling (onMessage_synced f (syncFiles c) st) = None
              ∧ started (onMessage_synced f (syncFiles c) st) = started st)
        as (-> & -> & -> & ->).
      { unfold onMessage_synced.
        destruct (syncFiles c);
          by destruct (hybrid_enqueue_frame f (reap_rsync None st))
            as (_ & _ & -> & _ & -> & -> & -> & _). }
      split; [done|].
      destruct (bool_decide (RSYNC_INTERVAL st = Some 0)); [|by destruct Hinv].
      destruct Hinv as [-> ->]. done.
    + destruct (decide (RSYNC_INTERVAL st = Some 0)) as [Hmode|Hmode].
      * rewrite (bool_decide_eq_true_2 _ Hmode) in Hinv.
        destruct Hinv as [Hs Hr]. lia.
      * rewrite (bool_decide_eq_false_2 _ Hmode) in *.
        destruct Hinv as [_ Hinv].
        destruct (started st) eqn:Hs; injection Hstep as <-.
        -- simpl. rewrite Hh. split; [done|]. split; [done|]. intros Hper.
           destruct (Hinv Hper). lia.
        -- unfold initial_sync.
           destruct (syncFiles c); simpl; rewrite ?Hh;
             (split; [done|]); (split; [done|]); intros Hper;
             by destruct (Hinv Hper).
  - destruct (started st) eqn:Hs; simpl in Hstep; [|done].
    destruct (periodic (RSYNC_INTERVAL st)) eqn:Hper; [|done].
    injection Hstep as <-. simpl. split; [done|].
    destruct (decide (RSYNC_INTERVAL st = Some 0)) as [Hmode|Hmode].
    + by rewrite Hmode in Hper.
    + rewrite (bool_decide_eq_false_2 _ Hmode) in *.
      split; [by destruct Hinv|]. congruence.
  - destruct (started st) eqn:Hs; [|done]. injection Hstep as <-.
    destruct (hybrid_processFiles_frame st)
      as (_ & _ & -> & -> & -> & -> & _).
    by rewrite Hs.
  - destruct (bool_decide (f ∈ aplays st)); [|done]. by injection Hstep as <-.
  - destruct (bool_decide (h ∈ timeouts st)); [|done]. injection Hstep as <-.
    unfold idle_fired. by destruct (natsClient st).
  - destruct (closing st); [|done]. by injection Hstep as <-.
  - by injection Hstep as <-.
Qed.

(** X18. Who runs rsync in unnamed/part_000, by the value of
    [RSYNC_INTERVAL].  With 0 the only rsync is the one the message handler
    waits for: at most one runs, and the handler takes no other message
    until it has closed.  With a positive value the handler never runs
    rsync.  With any other value (negative, or NaN for text that is not a
    number) no rsync ever runs: such a player only sees files that reach
    LOCAL_DIR some other way. *)
Theorem hybrid_sync_modes connected interval dir es st :
  run (init connected interval dir) es = Some st →
  RSYNC_INTERVAL st = interval
  ∧ (interval = Some 0 →
     (rsyncs st ≤ 1)%nat
     ∧ (rsyncs st = 1%nat ↔ handling st ≠ None)
     ∧ (rsyncs st = 1%nat → ∀ p, step st (Message p) = None)
     ∧ step st SyncTick = None)
  ∧ (interval ≠ Some 0 → handling st = None)
  ∧ (interval ≠ Some 0 → periodic interval = false → rsyncs st = 0%nat).
Proof.
  intros Hrun.
  assert (hybrid_sync_inv interval st) as [Hint Hinv].
  { revert Hrun. apply hybrid_run_invariant; [apply hybrid_sync_inv_step|].
    unfold hybrid_sync_inv, init. simpl. split; [done|].
    case_bool_decide as Hmode; [by subst|]. split; [done|].
    by intros ->. }
  split; [done|]. split; [|split].
  - intros ->. rewrite bool_decide_eq_true_2 in Hinv by done.
    destruct Hinv as [Hs Hr]. rewrite Hr.
    destruct (handling st) as [f|] eqn:Hh.
    + split; [lia|]. split; [done|]. split.
      * intros _ p. unfold step. destruct (exitCode st); [done|].
        rewrite Hh. by rewrite andb_false_r.
      * unfold step. destruct (exitCode st); [done|].
        by rewrite Hint, andb_false_r.
    + split; [lia|]. split; [split; [lia|done]|]. split; [lia|].
      unfold step. destruct (exitCode st); [done|].
      by rewrite Hint, andb_false_r.
  - intros Hmode. rewrite bool_decide_eq_false_2 in Hinv by done. by destruct Hinv.
  - intros Hmode Hper. rewrite bool_decide_eq_false_2 in Hinv by done.
    destruct Hinv as [_ Hinv]. by destruct (Hinv Hper).
Qed.

Lemma hybrid_sync_modes_witness :
  ∃ st,
    run (init true (Some 0) None) [arrival "a.wav"] = Some st
    ∧ rsyncs st = 1%nat
    ∧ step st (arrival "b.wav") = None.
Proof.
  destruct (run (init true (Some 0) None) [arrival "a.wav"]) as [st|] eqn:Hrun;
    [|vm_compute in Hrun; discriminate Hrun].
  exists st. split; [reflexivity|].
  assert (rsyncs st = 1%nat) as Hr.
  { vm_compute in Hrun. injection Hrun as <-. reflexivity. }
  split; [done|].
  destruct (hybrid_sync_modes _ _ _ _ _ Hrun) as (_ & Hzero & _).
  destruct (Hzero eq_refl) as (_ & _ & Hbusy & _). by apply Hbusy.
Defined.

Lemma hybrid_to_poll_disarm st :
  hybrid_to_poll (disarm st) = Poll.disarm (hybrid_to_poll st).
Proof. unfold disarm, Poll.disarm. simpl. by destruct (idleTimer st). Qed.

Lemma hybrid_to_poll_unplayed files st :
  playQueue st = [] →
  unplayed files st = Poll.unplayed files (hybrid_to_poll st).
Proof.
  intros Hq. unfold unplayed, Poll.unplayed. apply list_filter_iff.
  intros f. simpl. rewrite Hq. split; [by intros [? _]|].
  intros ?. split; [done|]. apply not_elem_of_nil.
Qed.

Lemma hybrid_to_poll_processFiles st :
  playQueue st = [] →
  hybrid_to_poll (processFiles st) = Poll.processFiles (hybrid_to_poll st).
Proof.
  intros Hq. unfold processFiles. rewrite Hq. simpl.
  unfold processListing, Poll.processFiles.
  change (Poll.getWavFiles (hybrid_to_poll st)) with (getWavFiles st).
  rewrite <- (hybrid_to_poll_unplayed _ st Hq).
  change (Poll.lastFileCount (hybrid_to_poll st)) with (lastFileCount st).
  set (files := getWavFiles st).
  set (st1 := if bool_decide (_ ≠ _) then _ else st).
  set (pst1 := if bool_decide (_ ≠ _) then _ else hybrid_to_poll st).
  assert (hybrid_to_poll st1 = pst1 ∧ playQueue st1 = []) as [Hst1 Hq1].
  { subst st1 pst1. case_bool_decide; [|done]. split.
    - by rewrite hybrid_to_poll_disarm.
    - by destruct (hybrid_disarm_frame (set_lastFileCount (length files) st))
        as (_ & -> & _). }
  rewrite Hq1. simpl. rewrite andb_true_r. rewrite <- Hst1. simpl.
  destruct (bool_decide (length (unplayed files st) = 0%nat) && negb (isPlaying st1)).
  { by destruct (idleTimer st1). }
  destruct (_ && _); [|done]. by destruct (head _).
Qed.

Lemma hybrid_polling_step st e st' :
  hybrid_polling st → step st e = Some st' →
  hybrid_polling st'
  ∧ ∃ e', hybrid_to_poll_event e = Some e'
          ∧ Poll.step (hybrid_to_poll st) e' = Some (hybrid_to_poll st').
Proof.
  unfold hybrid_polling. intros (Hn & Hq & Hh & Hc & Hper) Hstep.
  unfold step in Hstep. unfold Poll.step. simpl.
  destruct (exitCode st); [done|].
  destruct e as [p|c| | |f c|h| |dir]; simpl in Hstep.
  - by rewrite Hn in Hstep.
  - case_bool_decide as Hpos; [|done]. rewrite Hh in Hstep.
    split; [|exists (Poll.RsyncDone c); split; [done|]; simpl;
             rewrite ?bool_decide_eq_true_2 by done].
    + destruct (started st); simplify_eq/=; [done|]. unfold initial_sync.
      by destruct (syncFiles c).
    + destruct (started st); simplify_eq/=; [done|].
      unfold initial_sync, Poll.initial_sync.
      change (Poll.syncFiles c) with (syncFiles c). rewrite Hh.
      by destruct (syncFiles c).
  - rewrite Hper, andb_true_r in Hstep.
    destruct (started st) eqn:Hs; simplify_eq/=. rewrite Hh.
    split; [done|]. by exists Poll.SyncTick.
  - destruct (started st) eqn:Hs; simplify_eq/=. split.
    + destruct (hybrid_processFiles_frame st)
        as (_ & -> & -> & _ & -> & _ & -> & _ & Hplay).
      repeat split; try done.
      destruct Hplay as [(_ & _ & _ & ->)|(g & _ & _ & _ & _ & Hwhich)]; [done|].
      destruct Hwhich as [(Hhd & _)|(_ & -> & _)]; [|done].
      by rewrite Hq in Hhd.
    + exists Poll.Tick. split; [done|]. simpl.
      by rewrite hybrid_to_poll_processFiles.
  - case_bool_decide as Hin; simplify_eq/=. split; [done|].
    exists (Poll.AplayDone f c). split; [done|]. simpl.
    rewrite ?bool_decide_eq_true_2 by done. unfold played, Poll.played. simpl.
    by destruct (playFile c).
  - case_bool_decide as Hin; simplify_eq/=. unfold idle_fired. rewrite Hn.
    split; [done|]. exists (Poll.TimerFired h). split; [done|]. simpl.
    by rewrite ?bool_decide_eq_true_2.
  - by rewrite Hc in Hstep.
  - simplify_eq/=. split; [done|]. by exists (Poll.DirChanged dir).
Qed.

Lemma poll_step_hybrid st e' pst' :
  hybrid_polling st → Poll.step (hybrid_to_poll st) e' = Some pst' →
  ∃ st', step st (poll_to_hybrid_event e') = Some st'
         ∧ hybrid_to_poll st' = pst'.
Proof.
  unfold hybrid_polling. intros (Hn & Hq & Hh & Hc & Hper) Hstep.
  unfold Poll.step in Hstep. simpl in Hstep. unfold step.
  destruct (exitCode st); [done|].
  destruct e' as [c| | |f c|h|dir]; simpl in *.
  - case_bool_decide as Hpos; [|done]. rewrite Hh.
    destruct (started st); simplify_eq/=; eexists; (split; [done|]).
    + done.
    + unfold initial_sync, Poll.initial_sync.
      change (Poll.syncFiles c) with (syncFiles c). rewrite Hh.
      by destruct (syncFiles c).
  - rewrite Hper, andb_true_r.
    destruct (started st); simplify_eq/=. eexists. split; [done|]. done.
  - destruct (started st); simplify_eq/=. eexists. split; [done|].
    by apply hybrid_to_poll_processFiles.
  - case_bool_decide as Hin; simplify_eq/=. eexists. split; [done|].
    unfold played, Poll.played. simpl. by destruct (playFile c).
  - case_bool_decide as Hin; simplify_eq/=. eexists. split; [done|].
    unfold idle_fired. by rewrite Hn.
  - simplify_eq/=. eexists. split; [done|]. done.
Qed.

Lemma hybrid_polling_run es : ∀ st st',
  hybrid_polling st → run st es = Some st' →
  hybrid_polling st'
  ∧ Poll.run (hybrid_to_poll st) (omap hybrid_to_poll_event es)
    = Some (hybrid_to_poll st')
  ∧ length (omap hybrid_to_poll_event es) = length es.
Proof.
  induction es as [|e es IH]; intros st st' Hinv Hrun.
  - by simplify_eq/=.
  - simpl in Hrun. destruct (step st e) as [st1|] eqn:Hstep; [|done].
    destruct (hybrid_polling_step _ _ _ Hinv Hstep) as (Hinv1 & e' & He & Hp).
    destruct (IH _ _ Hinv1 Hrun) as (Hinv' & Hrun' & Hlen).
    split; [done|]. simpl. rewrite He. simpl. rewrite Hp. split; [done|].
    by f_equal.
Qed.

Lemma poll_run_hybrid es' : ∀ st pst',
  hybrid_polling st → Poll.run (hybrid_to_poll st) es' = Some pst' →
  ∃ st', run st (map poll_to_hybrid_event es') = Some st'
         ∧ hybrid_to_poll st' = pst'.
Proof.
  induction es' as [|e' es' IH]; intros st pst' Hinv Hrun.
  - simplify_eq/=. by exists st.
  - simpl in Hrun.
    destruct (Poll.step (hybrid_to_poll st) e') as [pst1|] eqn:Hstep; [|done].
    destruct (poll_step_hybrid _ _ _ Hinv Hstep) as (st1 & Hs & <-).
    destruct (hybrid_polling_step _ _ _ Hinv Hs) as (Hinv1 & _).
    destruct (IH _ _ Hinv1 Hrun) as (st' & Hrun' & Hst').
    exists st'. simpl. rewrite Hs. done.
Qed.

(** X19. Without a NATS connection and with a positive [RSYNC_INTERVAL],
    unnamed/part_000 is sync_and_play.js: every run of the one is, event for
    event, a run of the other, through the same values of [playedFiles],
    [isPlaying], [lastFileCount], the idle timer, the running children, the
    playback history and the exit code; the queue stays empty throughout. *)
Theorem hybrid_without_nats_is_poll ms dir :
  0 < ms →
  (∀ es st,
     run (init false (Some ms) dir) es = Some st →
     playQueue st = []
     ∧ length (omap hybrid_to_poll_event es) = length es
     ∧ Poll.run (Poll.init dir) (omap hybrid_to_poll_event es)
       = Some (hybrid_to_poll st))
  ∧ (∀ es' pst,
       Poll.run (Poll.init dir) es' = Some pst →
       ∃ st, run (init false (Some ms) dir) (map poll_to_hybrid_event es')
               = Some st
             ∧ hybrid_to_poll st = pst).
Proof.
  intros Hms.
  assert (periodic (Some ms) = true) as Hper.
  { simpl. by rewrite bool_decide_eq_true_2. }
  assert (hybrid_polling (init false (Some ms) dir)) as Hinit.
  { unfold hybrid_polling. by rewrite <- Hper. }
  assert (hybrid_to_poll (init false (Some ms) dir) = Poll.init dir) as Hproj.
  { unfold hybrid_to_poll, init, Poll.init. simpl.
    by rewrite bool_decide_eq_true_2. }
  split.
  - intros es st Hrun.
    destruct (hybrid_polling_run es _ _ Hinit Hrun) as (Hinv & Hrun' & Hlen).
    split; [by destruct Hinv as (_ & ? & _)|]. split; [done|].
    by rewrite <- Hproj.
  - intros es' pst Hrun. rewrite <- Hproj in Hrun.
    by apply poll_run_hybrid.
Qed.

Lemma hybrid_without_nats_is_poll_witness :
  ∃ st,
    run (init false (Some 2000) (Some {["seg_001.wav"]}))
        [RsyncDone (Exit 0 ""); Tick] = Some st
    ∧ Poll.run (Poll.init (Some {["seg_001.wav"]}))
        [Poll.RsyncDone (Exit 0 ""); Poll.Tick] = Some (hybrid_to_poll st)
    ∧ aplays st = ["seg_001.wav"].
Proof.
  destruct (run (init false (Some 2000) (Some {["seg_001.wav"]}))
              [RsyncDone (Exit 0 ""); Tick]) as [st|] eqn:Hrun;
    [|vm_compute in Hrun; discriminate Hrun].
  exists st. split; [reflexivity|].
  assert (0 < 2000) as Hms by lia.
  destruct (hybrid_without_nats_is_poll 2000 (Some {["seg_001.wav"]}) Hms)
    as [Hsim _].
  destruct (Hsim _ _ Hrun) as (_ & _ & Hpoll).
  split; [exact Hpoll|]. vm_compute in Hrun. injection Hrun as <-. reflexivity.
Defined.

(** X20. [syncFiles] of the first script of unnamed/part_001 is stricter
    than its successors: it resolves exactly for rsync exit codes 0, 23 and
    24 and rejects every other exit and a failed spawn, whereas [syncFiles]
    of sync_and_play.js and of unnamed/part_000 reject only a failed
    spawn. *)
Theorem legacy_syncFiles_stricter c :
  (Legacy.syncFiles c = Resolved
   ↔ ∃ code stderr, c = Exit code stderr ∧ (code = 0 ∨ code = 23 ∨ code = 24))
  ∧ (Poll.syncFiles c = Rejected ↔ c = SpawnError)
  ∧ (syncFiles c = Rejected ↔ c = SpawnError)
  ∧ (Legacy.syncFiles c = Resolved →
     Poll.syncFiles c = Resolved ∧ syncFiles c = Resolved).
Proof.
  assert (Poll.syncFiles c = Rejected ↔ c = SpawnError) as Hpoll.
  { destruct c as [code stderr|]; [|done]. unfold Poll.syncFiles.
    case_bool_decide; [done|]. destruct (Poll.isConnectionError code stderr); [done|].
    by destruct (_ || _). }
  assert (syncFiles c = Rejected ↔ c = SpawnError) as Hhyb.
  { destruct c as [code stderr|]; [|done]. unfold syncFiles.
    case_bool_decide; [done|]. destruct (isConnectionError code stderr); [done|].
    by destruct (_ || _). }
  assert (Legacy.syncFiles c = Resolved
          ↔ ∃ code stderr, c = Exit code stderr
                           ∧ (code = 0 ∨ code = 23 ∨ code = 24)) as Hleg.
  { destruct c as [code stderr|]; simpl.
    - split.
      + intros Hres. exists code, stderr. split; [done|].
        repeat case_bool_decide; simpl in Hres; try done; lia.
      + intros (code' & stderr' & [= <- <-] & Hcode).
        repeat case_bool_decide; simpl; try done; lia.
    - split; [done|]. by intros (? & ? & ? & _). }
  split; [done|]. split; [done|]. split; [done|].
  intros (code & stderr & -> & _)%Hleg. split.
  - destruct Hpoll as [Hp _].
    destruct (Poll.syncFiles (Exit code stderr)); [done|]. by specialize (Hp eq_refl).
  - destruct Hhyb as [Hp _].
    destruct (syncFiles (Exit code stderr)); [done|]. by specialize (Hp eq_refl).
Qed.

Lemma hybrid_lifecycle_inv_step st e st' :
  hybrid_lifecycle_inv st → step st e = Some st' → hybrid_lifecycle_inv st'.
Proof.
  unfold hybrid_lifecycle_inv. intros [Hpre Hexit] Hstep. unfold step in Hstep.
  destruct (exitCode st) eqn:Hx; [done|]. clear Hexit.
  destruct e as [p|c| | |f c|h| |dir]; simpl in Hstep.
  - destruct (_ && _); [|done]. injection Hstep as <-.
    assert (started (onMessage p st) = started st
            ∧ RSYNC_INTERVAL (onMessage p st) = RSYNC_INTERVAL st
            ∧ aplays (onMessage p st) = aplays st
            ∧ closing (onMessage p st) = closing st
            ∧ exitCode (onMessage p st) = None
            ∧ plays (history (onMessage p st)) = plays (history st)
            ∧ (timeouts st = [] → timeouts (onMessage p st) = []))
      as (-> & -> & -> & -> & -> & -> & Ht).
    { unfold onMessage. destruct (wav_filename p) as [[f|]|]; try done.
      case_bool_decide; [done|]. unfold enqueue.
      destruct (_ && _); [|done]. unfold disarm. simpl.
      destruct (idleTimer st); simpl; rewrite plays_snoc; simpl;
        rewrite ?app_nil_r; repeat split; try done.
      by intros ->. }
    split; [|done]. intros Hs. destruct (Hpre Hs) as (? & ? & ? & ? & ?).
    repeat split; try done. by apply Ht.
  - destruct (bool_decide (0 < rsyncs st)%nat); [|done].
    destruct (handling st) as [f|] eqn:Hh.
    + injection Hstep as <-.
      assert (started (onMessage_synced f (syncFiles c) st) = started st
              ∧ RSYNC_INTERVAL (onMessage_synced f (syncFiles c) st)
                = RSYNC_INTERVAL st
              ∧ aplays (onMessage_synced f (syncFiles c) st) = aplays st
              ∧ closing (onMessage_synced f (syncFiles c) st) = closing st
              ∧ exitCode (onMessage_synced f (syncFiles c) st) = None
              ∧ plays (history (onMessage_synced f (syncFiles c) st))
                = plays (history st)
              ∧ (timeouts st = [] →
                 timeouts (onMessage_synced f (syncFiles c) st) = []))
        as (-> & -> & -> & -> & -> & -> & Ht).
      { assert (onMessage_synced f (syncFiles c) st
                = enqueue f (reap_rsync None st)) as ->.
        { unfold onMessage_synced. by destruct (syncFiles c). }
        unfold enqueue. destruct (_ && _); [|done]. unfold disarm. simpl.
        destruct (idleTimer st); simpl; rewrite plays_snoc; simpl;
          rewrite ?app_nil_r; repeat split; try done.
        by intros ->. }
      split; [|done]. intros Hs. destruct (Hpre Hs) as (? & ? & ? & ? & ?).
      repeat split; try done. by apply Ht.
    + destruct (started st) eqn:Hs; injection Hstep as <-.
      * simpl. rewrite Hs, Hx. done.
      * destruct (Hpre eq_refl) as (? & ? & ? & ? & ?).
        unfold initial_sync. destruct (syncFiles c); simpl.
        -- rewrite Hx. done.
        -- rewrite Hs. split; [done|]. by right.
  - destruct (started st) eqn:Hs; simpl in Hstep; [|done].
    destruct (periodic _); [|done]. injection Hstep as <-. simpl.
    by rewrite Hs, Hx.
  - destruct (started st) eqn:Hs; [|done]. injection Hstep as <-.
    destruct (hybrid_processFiles_frame st)
      as (_ & _ & _ & _ & _ & -> & _).
    rewrite Hs. split; [done|].
    assert (exitCode (processFiles st) = None) as ->; [|done].
    assert (∀ st0, exitCode (disarm st0) = exitCode st0) as Hd.
    { intros st0. unfold disarm. by destruct (idleTimer st0). }
    assert (exitCode (processListing st) = None) as Hl.
    { unfold processListing.
      set (st1 := if bool_decide (_ ≠ _) then _ else st).
      assert (exitCode st1 = None) as Hx1.
      { subst st1. case_bool_decide; [|done]. by rewrite Hd. }
      destruct (_ && _ && _); [by destruct (idleTimer st1)|].
      destruct (_ && _); [|done]. by destruct (head _). }
    unfold processFiles. destruct (_ && _); [|done].
    destruct (head (playQueue st)); [|done]. by destruct (existsSync _ _).
  - destruct (decide (f ∈ aplays st)) as [Hin|Hin];
      [rewrite (bool_decide_eq_true_2 _ Hin) in Hstep
      |by rewrite (bool_decide_eq_false_2 _ Hin) in Hstep].
    injection Hstep as <-. simpl. rewrite Hx. split; [|done].
    intros Hs. destruct (Hpre Hs) as (_ & _ & Ha & _).
    rewrite Ha in Hin. by apply elem_of_nil in Hin.
  - destruct (decide (h ∈ timeouts st)) as [Hin|Hin];
      [rewrite (bool_decide_eq_true_2 _ Hin) in Hstep
      |by rewrite (bool_decide_eq_false_2 _ Hin) in Hstep].
    injection Hstep as <-.
    assert (started st = true) as Hs.
    { destruct (started st) eqn:Hs; [done|].
      destruct (Hpre eq_refl) as (_ & _ & _ & Ht & _).
      rewrite Ht in Hin. by apply elem_of_nil in Hin. }
    unfold idle_fired. destruct (natsClient st); simpl; rewrite Hs, ?Hx.
    + done.
    + split; [done|]. by left.
  - destruct (closing st) eqn:Hc; [|done]. injection Hstep as <-. simpl.
    assert (started st = true) as Hs.
    { destruct (started st) eqn:Hs; [done|].
      destruct (Hpre eq_refl) as (_ & _ & _ & _ & ?). done. }
    rewrite Hs. split; [done|]. by left.
  - injection Hstep as <-. simpl. by rewrite Hx.
Qed.

(** X21. The idle exit and the first rsync of unnamed/part_000.  When the
    idle timeout fires and there is no NATS connection the script exits with
    code 0 at once; with a connection the callback first waits for
    [natsClient.close()], the script goes on running meanwhile, and when the
    close returns it exits with code 0 whatever has been queued since.
    Before the intervals are set, which happens only with a positive
    [RSYNC_INTERVAL] while the first rsync runs, nothing is played and no
    timer is armed; that first rsync sets the intervals when it ends with
    any exit code, and the script exits with code 1 when it could not be
    spawned.  A failed NATS connection alone does not end the script. *)
Theorem hybrid_idle_exit_and_first_rsync connected interval dir es st :
  run (init connected interval dir) es = Some st →
  (started st = false →
   periodic interval = true ∧ plays (history st) = [] ∧ aplays st = []
   ∧ timeouts st = [])
  ∧ (∀ h st', step st (TimerFired h) = Some st' →
       if natsClient st then exitCode st' = None ∧ closing st' = true
       else exitCode st' = Some 0)
  ∧ (∀ st', step st NatsClosed = Some st' →
       exitCode st' = Some 0 ∧ playQueue st' = playQueue st)
  ∧ (∀ c st',
       started st = false → handling st = None →
       step st (RsyncDone c) = Some st' →
       match c with
       | Exit _ _ => started st' = true ∧ exitCode st' = None
       | SpawnError => exitCode st' = Some 1
       end)
  ∧ exitCode (init false interval dir) = None.
Proof.
  intros Hrun.
  assert (hybrid_sync_inv interval st) as [Hint _].
  { revert Hrun. apply hybrid_run_invariant; [apply hybrid_sync_inv_step|].
    unfold hybrid_sync_inv, init. simpl. split; [done|].
    case_bool_decide as Hmode; [by subst|]. split; [done|].
    by intros ->. }
  assert (hybrid_lifecycle_inv st) as [Hpre Hexit].
  { revert Hrun. apply hybrid_run_invariant; [apply hybrid_lifecycle_inv_step|].
    unfold hybrid_lifecycle_inv, init. simpl. split; [|done].
    destruct (periodic interval); done. }
  split; [|split; [|split; [|split; [|done]]]].
  - intros Hs. destruct (Hpre Hs) as (Hper & Hp & Ha & Ht & _).
    rewrite Hint in Hper. done.
  - intros h st' Hstep. unfold step in Hstep.
    destruct (exitCode st) eqn:Hx; [done|].
    destruct (bool_decide (h ∈ timeouts st)); [|done]. injection Hstep as <-.
    unfold idle_fired. destruct (natsClient st) eqn:Hn; simpl; rewrite ?Hn; done.
  - intros st' Hstep. unfold step in Hstep.
    destruct (exitCode st); [done|]. destruct (closing st); [|done].
    by injection Hstep as <-.
  - intros c st' Hs Hh Hstep. unfold step in Hstep.
    destruct (exitCode st) eqn:Hx; [done|].
    destruct (bool_decide (0 < rsyncs st)%nat); [|done].
    rewrite Hh, Hs in Hstep. injection Hstep as <-.
    destruct c as [code stderr|]; [|done].
    assert (syncFiles (Exit code stderr) = Resolved) as ->.
    { unfold syncFiles. case_bool_decide; [done|].
      destruct (isConnectionError code stderr); [done|]. by destruct (_ || _). }
    simpl. by rewrite Hx.
Qed.

Lemma hybrid_idle_exit_and_first_rsync_witness :
  ∃ st st',
    run (init true None (Some ∅))
      [Tick; TimerFired 0; arrival "late.wav"] = Some st
    ∧ playQueue st = ["late.wav"]
    ∧ step st NatsClosed = Some st'
    ∧ exitCode st' = Some 0
    ∧ playQueue st' = ["late.wav"].
Proof.
  destruct (run (init true None (Some ∅))
              [Tick; TimerFired 0; arrival "late.wav"]) as [st|] eqn:Hrun;
    [|vm_compute in Hrun; discriminate Hrun].
  assert (playQueue st = ["late.wav"]) as Hq.
  { vm_compute in Hrun. injection Hrun as <-. reflexivity. }
  destruct (step st NatsClosed) as [st'|] eqn:Hstep;
    [|vm_compute in Hrun; injection Hrun as <-; vm_compute in Hstep;
      discriminate Hstep].
  destruct (hybrid_idle_exit_and_first_rsync _ _ _ _ _ Hrun)
    as (_ & _ & Hclosed & _).
  destruct (Hclosed _ Hstep) as [Hx Hq'].
  exists st, st'. split; [reflexivity|]. split; [exact Hq|].
  split; [exact Hstep|]. split; [exact Hx|]. by rewrite Hq', Hq.
Defined.

(** X22. A queued name whose file is not in LOCAL_DIR, in unnamed/part_000:
    a tick leaves it at the head of the queue (it is never skipped), and as
    long as the queue is not empty no idle timeout is pending, none can
    fire, and a tick arms none.  This does not keep an idle callback that
    fired earlier from ending the script: if it is waiting for
    [natsClient.close()], the script exits with code 0 when the close
    returns, with the name still queued. *)
Theorem hybrid_missing_head_keeps_timer_off connected interval dir es st f :
  run (init connected interval dir) es = Some st →
  head (playQueue st) = Some f →
  timeouts st = []
  ∧ (∀ h, step st (TimerFired h) = None)
  ∧ (existsSync f st = false →
     playQueue (processFiles st) = playQueue st
     ∧ timeouts (processFiles st) = [])
  ∧ (exitCode st = None → closing st = true →
     ∃ st', step st NatsClosed = Some st'
            ∧ exitCode st' = Some 0 ∧ head (playQueue st') = Some f).
Proof.
  intros Hrun Hhd.
  assert (hybrid_timer_inv st) as Hinv.
  { revert Hrun. apply hybrid_run_invariant; [apply hybrid_timer_inv_step|by left]. }
  assert (timeouts st = []) as Ht.
  { destruct Hinv as [?|(h & _ & _ & Hq)]; [done|]. by rewrite Hq in Hhd. }
  split; [done|]. split; [|split].
  - intros h. unfold step. destruct (exitCode st); [done|].
    rewrite Ht. by rewrite bool_decide_eq_false_2 by apply not_elem_of_nil.
  - intros Hmissing.
    assert (playQueue (processFiles st) = playQueue st) as Hq.
    { destruct (hybrid_processFiles_frame st)
        as (_ & _ & _ & _ & _ & _ & _ & _ & Hplay).
      destruct Hplay as [(_ & _ & _ & ?)|(g & _ & _ & _ & _ & Hwhich)]; [done|].
      destruct Hwhich as [(Hg & Hex & _)|(_ & ? & _)]; [|done].
      rewrite Hhd in Hg. injection Hg as <-. congruence. }
    split; [done|].
    assert (hybrid_timer_inv (processFiles st)) as Hinv'.
    { destruct (exitCode st) eqn:Hx.
      - unfold processFiles. rewrite Hhd, Hmissing.
        destruct (_ && _); by apply hybrid_processListing_inv.
      - unfold processFiles. rewrite Hhd, Hmissing.
        destruct (_ && _); by apply hybrid_processListing_inv. }
    destruct Hinv' as [?|(h & _ & _ & Hq')]; [done|].
    rewrite Hq in Hq'. by rewrite Hq' in Hhd.
  - intros Hlive Hc. eexists. split.
    { unfold step. by rewrite Hlive, Hc. }
    done.
Qed.

Lemma hybrid_missing_head_keeps_timer_off_witness :
  ∃ st,
    run (init true None (Some ∅)) [arrival "gone.wav"; Tick; Tick] = Some st
    ∧ playQueue st = ["gone.wav"]
    ∧ timeouts st = []
    ∧ playQueue (processFiles st) = playQueue st.
Proof.
  destruct (run (init true None (Some ∅)) [arrival "gone.wav"; Tick; Tick])
    as [st|] eqn:Hrun; [|vm_compute in Hrun; discriminate Hrun].
  exists st. split; [reflexivity|].
  assert (playQueue st = ["gone.wav"] ∧ existsSync "gone.wav" st = false)
    as [Hq Hex].
  { vm_compute in Hrun. injection Hrun as <-. split; reflexivity. }
  assert (head (playQueue st) = Some "gone.wav") as Hhd by (by rewrite Hq).
  destruct (hybrid_missing_head_keeps_timer_off _ _ _ _ _ _ Hrun Hhd)
    as (Ht & _ & Hkeep & _).
  destruct (Hkeep Hex) as [Hq' _]. done.
Defined.

End HybridCoverage.
